(** * Stream readers of the host backend (uart_reader.py, i2c_reader.py)

    A shallow embedding of [UartReader] (and of [I2CReader], which has the
    same code up to names): the line framer of [_run], the agent queue
    with its drop-oldest push, [drain], the listener registry, and the
    life cycle ([ensure_running], [stop], the connector loop).

    Python [str] values are lists of Unicode code points, [bytes] values
    are lists of bytes, [asyncio.Queue] is a record with its [maxsize]
    and its items, oldest first. *)

From Stdlib Require Import ZArith NArith QArith Lia Strings.Ascii Strings.String Strings.Byte.
From stdpp Require Import gmap strings list fin_maps.

Set Default Proof Using "Type".
#[local] Set Warnings "-clear-no-such-hyp".

(** ** Python strings *)

Module PyStr.

Local Open Scope N_scope.

(** A [str] is a sequence of code points. *)
Abbreviation str := (list N).

Definition LF : N := 10.
Definition CR : N := 13.
(** U+FFFD, what [errors="replace"] puts for undecodable bytes. *)
Definition REPLACEMENT : N := 0xFFFD.

(** A literal of the source, as code points. *)
Definition lit (s : string) : str :=
  map N_of_ascii (String.list_ascii_of_string s).

(** [c in s] for a one-character string [c]. *)
Definition contains (c : N) (s : str) : bool := existsb (N.eqb c) s.

(** [s.partition(c)] for a one-character separator: the part before
    the first [c], the separator found (empty if absent), the part
    after it. Without the separator the result is [(s, "", "")]. *)
Fixpoint partition (c : N) (s : str) : str * str * str :=
  match s with
  | [] => ([], [], [])
  | x :: r =>
      if x =? c then ([], [c], r)
      else let '(before, sep, after) := partition c r in
           (x :: before, sep, after)
  end.

(** [s.rstrip(chars)]: drop every trailing character that is in
    [chars]. *)
Fixpoint rstrip (chars : str) (s : str) : str :=
  match s with
  | [] => []
  | x :: r =>
      match rstrip chars r with
      | [] => if existsb (N.eqb x) chars then [] else [x]
      | r' => x :: r'
      end
  end.

(** [str.isspace] on one character (the code points CPython lists as
    white space). *)
Definition isspace (c : N) : bool :=
  ((0x09 <=? c) && (c <=? 0x0D)) || ((0x1C <=? c) && (c <=? 0x20))
  || (c =? 0x85) || (c =? 0xA0) || (c =? 0x1680)
  || ((0x2000 <=? c) && (c <=? 0x200A))
  || (c =? 0x2028) || (c =? 0x2029) || (c =? 0x202F)
  || (c =? 0x205F) || (c =? 0x3000).

(** [s.lstrip()]: drop leading white space. *)
Fixpoint lstrip (s : str) : str :=
  match s with
  | [] => []
  | x :: r => if isspace x then lstrip r else s
  end.

(** [s.startswith(p)]. *)
Fixpoint startswith (s p : str) : bool :=
  match p, s with
  | [], _ => true
  | _ :: _, [] => false
  | a :: p', b :: s' => (a =? b) && startswith s' p'
  end.

(** *** [bytes.decode("utf-8", errors="replace")]

    The codec of CPython: a well-formed sequence gives its code point;
    a maximal ill-formed prefix (an invalid start byte, or a lead byte
    with the continuation bytes that are valid after it) gives one
    U+FFFD. *)

Definition is_continuation (b : N) : bool := (0x80 <=? b) && (b <=? 0xBF).

(** The second byte allowed after a three-byte lead (no overlong
    forms, no surrogates). *)
Definition second_of_3 (b0 b1 : N) : bool :=
  if b0 =? 0xE0 then (0xA0 <=? b1) && (b1 <=? 0xBF)
  else if b0 =? 0xED then (0x80 <=? b1) && (b1 <=? 0x9F)
  else is_continuation b1.

(** The second byte allowed after a four-byte lead (no overlong forms,
    nothing above U+10FFFF). *)
Definition second_of_4 (b0 b1 : N) : bool :=
  if b0 =? 0xF0 then (0x90 <=? b1) && (b1 <=? 0xBF)
  else if b0 =? 0xF4 then (0x80 <=? b1) && (b1 <=? 0x8F)
  else is_continuation b1.

Fixpoint decode_utf8 (bs : list N) : str :=
  match bs with
  | [] => []
  | b0 :: r0 =>
      if b0 <? 0x80 then b0 :: decode_utf8 r0
      else if b0 <? 0xC2 then REPLACEMENT :: decode_utf8 r0
      else if b0 <? 0xE0 then
        match r0 with
        | b1 :: r1 =>
            if is_continuation b1
            then ((b0 - 0xC0) * 64 + (b1 - 0x80)) :: decode_utf8 r1
            else REPLACEMENT :: decode_utf8 r0
        | [] => [REPLACEMENT]
        end
      else if b0 <? 0xF0 then
        match r0 with
        | b1 :: r1 =>
            if second_of_3 b0 b1 then
              match r1 with
              | b2 :: r2 =>
                  if is_continuation b2
                  then ((b0 - 0xE0) * 4096 + (b1 - 0x80) * 64 + (b2 - 0x80))
                         :: decode_utf8 r2
                  else REPLACEMENT :: decode_utf8 r1
              | [] => [REPLACEMENT]
              end
            else REPLACEMENT :: decode_utf8 r0
        | [] => [REPLACEMENT]
        end
      else if b0 <? 0xF5 then
        match r0 with
        | b1 :: r1 =>
            if second_of_4 b0 b1 then
              match r1 with
              | b2 :: r2 =>
                  if is_continuation b2 then
                    match r2 with
                    | b3 :: r3 =>
                        if is_continuation b3
                        then ((b0 - 0xF0) * 262144 + (b1 - 0x80) * 4096
                              + (b2 - 0x80) * 64 + (b3 - 0x80))
                               :: decode_utf8 r3
                        else REPLACEMENT :: decode_utf8 r2
                    | [] => [REPLACEMENT]
                    end
                  else REPLACEMENT :: decode_utf8 r1
              | [] => [REPLACEMENT]
              end
            else REPLACEMENT :: decode_utf8 r0
        | [] => [REPLACEMENT]
        end
      else REPLACEMENT :: decode_utf8 r0
  end.

(** [raw.decode("utf-8", errors="replace")]. *)
Definition decode (raw : list byte) : str :=
  decode_utf8 (map Byte.to_N raw).

(** The bytes of an ASCII literal. *)
Definition blit (s : string) : list byte := String.list_byte_of_string s.

End PyStr.

Import PyStr.


(** ** The line framer (the [while] loop of [_run], lines 112-124) *)

Module Framer.

(** The SSE prefix tested by [line.startswith("data:")]. *)
Definition DATA_PREFIX : str := lit "data:".

(** The loop condition ["\n" in partial or "\r" in partial]. *)
Definition has_terminator (partial : str) : bool :=
  contains LF partial || contains CR partial.

(** Lines 113-116: partition on the newline; only when there is no
    newline, partition on the carriage return. Gives the line and the
    remainder that becomes the new [partial]. *)
Definition split_once (partial : str) : str * str :=
  let '(line, sep, remainder) := partition LF partial in
  if bool_decide (sep = []) then
    let '(line, sep, remainder) := partition CR partial in
    (line, remainder)
  else (line, remainder).

(** Lines 117-121: [rstrip("\r\n")], then the prefix and the white
    space after it are removed. *)
Definition strip_line (line : str) : str :=
  let line := rstrip [CR; LF] line in
  if startswith line DATA_PREFIX then lstrip (drop 5 line) else line.

Section Loop.
(** What the body does with an accepted line (lines 126-147): the
    state [S] is whatever the lines are teed into. *)
Context {S : Type} (accept : str → S → S).

(** The [while] loop; each round removes at least one character from
    [partial], so [length partial] rounds are enough (see
    [while_terminator_fuel]). *)
Fixpoint while_terminator (fuel : nat) (partial : str) (st : S) : str * S :=
  match fuel with
  | O => (partial, st)
  | Datatypes.S fuel' =>
      if has_terminator partial then
        let '(line, remainder) := split_once partial in
        let line := strip_line line in
        if bool_decide (line = []) then
          while_terminator fuel' remainder st       (* continue *)
        else
          while_terminator fuel' remainder (accept line st)
      else (partial, st)
  end.

Definition frame (partial : str) (st : S) : str * S :=
  while_terminator (length partial) partial st.
End Loop.

(** The loop with the accepted lines collected in order. *)
Definition collect (line : str) (acc : list str) : list str := acc ++ [line].

Definition frame_lines (partial : str) : str * list str :=
  frame collect partial [].

(** One round of [async for raw in ...] on the framer alone (lines
    105-124): an empty chunk is skipped, otherwise the chunk is decoded
    and appended, and the loop runs. Gives the new [partial] and the
    lines accepted in this round. *)
Definition feed (partial : str) (raw : list byte) : str * list str :=
  if bool_decide (raw = []) then (partial, [])
  else frame_lines (partial ++ decode raw).

(** The framer over a sequence of chunks, from [partial]. *)
Fixpoint feed_all (partial : str) (chunks : list (list byte)) : str * list str :=
  match chunks with
  | [] => (partial, [])
  | raw :: rest =>
      let '(partial', ls) := feed partial raw in
      let '(partial'', ls') := feed_all partial' rest in
      (partial'', ls ++ ls')
  end.

(** The lines of a whole connection: [partial = ""] at line 100. *)
Definition framed (chunks : list (list byte)) : list str :=
  (feed_all [] chunks).2.

End Framer.

Import Framer.

(** ** Exceptions and a small monad for code that can raise *)

(** The exceptions the readers meet. The first four derive from
    [BaseException] only; the others derive from [Exception]. *)
Inductive exn :=
| CancelledError          (* asyncio.CancelledError *)
| KeyboardInterrupt
| SystemExit
| GeneratorExit
| QueueEmpty              (* asyncio.QueueEmpty *)
| QueueFull               (* asyncio.QueueFull *)
| TimeoutError            (* asyncio.TimeoutError *)
| OtherError (text : str) (* any other Exception, with its str() *).

#[global] Instance exn_eq_dec : EqDecision exn.
Proof. solve_decision. Defined.

(** [isinstance(e, Exception)], what [except Exception] catches. *)
Definition is_Exception (e : exn) : bool :=
  match e with
  | CancelledError | KeyboardInterrupt | SystemExit | GeneratorExit => false
  | QueueEmpty | QueueFull | TimeoutError | OtherError _ => true
  end.

(** [str(exc)]. *)
Definition str_of_exn (e : exn) : str :=
  match e with
  | OtherError text => text
  | _ => []
  end.

(** A computation on a mutable state [St] that returns an [A] or raises;
    what was mutated before the raise stays mutated. *)
Definition M (St A : Type) : Type := St → (exn + A) * St.

#[global] Instance M_ret {St} : MRet (M St) := λ A a s, (inr a, s).

#[global] Instance M_bind {St} : MBind (M St) := λ A B k m s,
  match m s with
  | (inl e, s') => (inl e, s')
  | (inr a, s') => k a s'
  end.

(** [try: body except E: handler], [catch] telling what [E] matches. *)
Definition try_except {St A} (body : M St A) (catch : exn → bool)
    (handler : exn → M St A) : M St A :=
  λ s, match body s with
       | (inl e, s') => if catch e then handler e s' else (inl e, s')
       | (inr a, s') => (inr a, s')
       end.

(** Branch on the current state. *)
Definition reading {St A} (f : St → M St A) : M St A := λ s, f s s.

(** [pass]. *)
Definition pass {St} : M St unit := mret ().

(** ** [asyncio.Queue] *)

Module AsyncQueue.

(** A queue object: [maxsize] as given to the constructor, and the
    items, oldest first. *)
Record Queue := mkQueue { maxsize : Z; items : list str }.

(** [asyncio.Queue(maxsize)]. *)
Definition new (maxsize : Z) : Queue := mkQueue maxsize [].

Definition qsize (q : Queue) : Z := Z.of_nat (length (items q)).

Definition empty (q : Queue) : bool := bool_decide (items q = []).

(** A queue with [maxsize <= 0] is never full. *)
Definition full (q : Queue) : bool :=
  if (maxsize q <=? 0)%Z then false else (maxsize q <=? qsize q)%Z.

Definition get_nowait : M Queue str := λ q,
  match items q with
  | [] => (inl QueueEmpty, q)
  | x :: rest => (inr x, mkQueue (maxsize q) rest)
  end.

Definition put_nowait (item : str) : M Queue unit := λ q,
  if full q then (inl QueueFull, q)
  else (inr (), mkQueue (maxsize q) (items q ++ [item])).

End AsyncQueue.

Import AsyncQueue.

(** ** The agent queue: push with drop-oldest, and drain *)

Module Relay.

(** Lines 130-139 of uart_reader.py (126-135 of i2c_reader.py). *)
Definition push (line : str) : M Queue unit :=
  reading (λ q, if full q
                then try_except (get_nowait ;; pass)
                       (λ e, bool_decide (e = QueueEmpty)) (λ _, pass)
                else pass) ;;
  try_except (put_nowait line)
    (λ e, bool_decide (e = QueueFull)) (λ _, pass).

(** The queue after a push (that [push] never raises is
    [push_returns]). *)
Definition pushed (line : str) (q : Queue) : Queue := (push line q).2.

Definition pushed_all (lines : list str) (q : Queue) : Queue :=
  foldl (λ q line, pushed line q) q lines.

(** The [wait_seconds] argument, a Python float. *)
Inductive pyfloat := Finite (q : Q) | PosInf | NegInf | NaN.

(** [wait_seconds > 0]. *)
Definition gt0 (x : pyfloat) : bool :=
  match x with
  | Finite q => negb (Qle_bool q 0)
  | PosInf => true
  | NegInf | NaN => false
  end.

(** What happens while [drain] is suspended in [wait_for]: the lines
    the reader task pushes meanwhile, and whether the timeout fires
    before the waiting [get] takes an item. *)
Record Waited := mkWaited { arrivals : list str; timeout_first : bool }.

(** [await asyncio.wait_for(self._agent_queue.get(), timeout)] after
    the suspension described by [env]: [get] takes the oldest item if
    there is one and the timeout has not fired. *)
Definition wait_for_get (env : Waited) : M Queue str := λ q,
  let q := pushed_all (arrivals env) q in
  if timeout_first env || empty q then (inl TimeoutError, q)
  else get_nowait q.

(** Lines 176-180: [while not empty: try: append(get_nowait()) except
    QueueEmpty: break]. Each round removes one item, so the number of
    items is enough fuel. *)
Fixpoint drain_rest (fuel : nat) (lines : list str) : M Queue (list str) :=
  λ q,
  match fuel with
  | O => (inr lines, q)
  | S fuel' =>
      if empty q then (inr lines, q)
      else match get_nowait q with
           | (inl e, q') =>
               if bool_decide (e = QueueEmpty) then (inr lines, q')  (* break *)
               else (inl e, q')
           | (inr x, q') => drain_rest fuel' (lines ++ [x]) q'
           end
  end.

(** [drain(wait_seconds)], lines 157-182. *)
Definition drain (wait_seconds : pyfloat) (env : Waited) : M Queue (list str) :=
  lines ← reading (λ q, if empty q && gt0 wait_seconds
                        then try_except
                               (first_line ← wait_for_get env; mret [first_line])
                               (λ e, bool_decide (e = TimeoutError)) (λ _, mret [])
                        else mret []);
  reading (λ q, drain_rest (length (items q)) lines).

End Relay.

Import Relay.

(** The monad and the queue operations, for unfolding in proofs. *)
Create HintDb pyqueue.
#[global] Hint Unfold push pushed mbind M_bind reading try_except pass mret
  M_ret get_nowait put_nowait : pyqueue.

(** ** The reader object and its world *)

Module Reader.

(** The values of [self._status]. *)
Inductive Status :=
| initialized | starting | connecting | connected | error | stopped.

#[global] Instance Status_eq_dec : EqDecision Status.
Proof. solve_decision. Defined.

(** Objects are named by identity: a listener queue by its handle, a
    task by its position in the list of the tasks created. *)
Abbreviation handle := positive (only parsing).
Abbreviation task_id := nat (only parsing).

(** The attributes of a [UartReader]. [stop_event] is
    [self._stop_event.is_set()]; [ui_queues] holds the handles of the
    queue objects in the set; [task] names [self._task]. *)
Record Reader := mkReader {
  url : string;
  agent_queue : Queue;
  ui_queues : gset handle;
  task : option task_id;
  stop_event : bool;
  debug : bool;
  status : Status;
  last_error : option str;
  lines_read : Z;
  last_activity : string;
}.

(** Where the coroutine [_run] of a task stands: not yet entered,
    suspended at one of its [await]s, or over. *)
Inductive Pc :=
| Created                       (* create_task done, body not entered *)
| Connecting                    (* in session.get(...), line 92 *)
| Streaming (partial : str)     (* waiting for the next chunk, line 101 *)
| Backoff (seconds : Z)         (* in asyncio.sleep(seconds), line 155 *)
| Finished (raised : option exn).

#[global] Instance Pc_eq_dec : EqDecision Pc.
Proof. solve_decision. Defined.

(** A task object; [must_cancel] is set by [Task.cancel()] and makes
    the next resumption throw [CancelledError] into the coroutine. *)
Record Task := mkTask { pc : Pc; must_cancel : bool }.

(** [task.done()]. *)
Definition done (t : Task) : bool :=
  match pc t with Finished _ => true | _ => false end.

(** The reader with what it refers to: the listener queue objects, the
    tasks created by [ensure_running], and the tasks that calls of
    [stop] still wait for (line 191). *)
Record World := mkWorld {
  self : Reader;
  queues : gmap handle Queue;
  tasks : list Task;
  stopping : list task_id;
}.

(** *** Attribute updates *)

Definition set_agent_queue (q : Queue) (r : Reader) : Reader :=
  mkReader (url r) q (ui_queues r) (task r) (stop_event r) (debug r)
    (status r) (last_error r) (lines_read r) (last_activity r).
Definition set_ui_queues (s : gset handle) (r : Reader) : Reader :=
  mkReader (url r) (agent_queue r) s (task r) (stop_event r) (debug r)
    (status r) (last_error r) (lines_read r) (last_activity r).
Definition set_task (t : option task_id) (r : Reader) : Reader :=
  mkReader (url r) (agent_queue r) (ui_queues r) t (stop_event r) (debug r)
    (status r) (last_error r) (lines_read r) (last_activity r).
Definition set_stop_event (b : bool) (r : Reader) : Reader :=
  mkReader (url r) (agent_queue r) (ui_queues r) (task r) b (debug r)
    (status r) (last_error r) (lines_read r) (last_activity r).
Definition set_status (s : Status) (r : Reader) : Reader :=
  mkReader (url r) (agent_queue r) (ui_queues r) (task r) (stop_event r)
    (debug r) s (last_error r) (lines_read r) (last_activity r).
Definition set_last_error (e : option str) (r : Reader) : Reader :=
  mkReader (url r) (agent_queue r) (ui_queues r) (task r) (stop_event r)
    (debug r) (status r) e (lines_read r) (last_activity r).
Definition set_lines_read (n : Z) (r : Reader) : Reader :=
  mkReader (url r) (agent_queue r) (ui_queues r) (task r) (stop_event r)
    (debug r) (status r) (last_error r) n (last_activity r).
Definition set_last_activity (a : string) (r : Reader) : Reader :=
  mkReader (url r) (agent_queue r) (ui_queues r) (task r) (stop_event r)
    (debug r) (status r) (last_error r) (lines_read r) a.

Definition set_self (r : Reader) (w : World) : World :=
  mkWorld r (queues w) (tasks w) (stopping w).
Definition set_queues (qs : gmap handle Queue) (w : World) : World :=
  mkWorld (self w) qs (tasks w) (stopping w).
Definition set_tasks (ts : list Task) (w : World) : World :=
  mkWorld (self w) (queues w) ts (stopping w).
Definition set_stopping (l : list task_id) (w : World) : World :=
  mkWorld (self w) (queues w) (tasks w) l.

(** *** [__init__] (lines 26-42) *)

Definition DEFAULT_UART_URL : string := "http://10.0.0.104:8000/uart".
Definition DEFAULT_BUFFER_MAX_LINES : Z := 1000.

(** [url] and [debug] are what the environment variables leave. *)
Definition init (url : string) (max_lines : Z) (debug : bool) : World :=
  mkWorld
    (mkReader url (AsyncQueue.new max_lines) ∅ None false debug
       initialized None 0 "never")
    ∅ [] [].

(** The module's singleton [uart_reader = UartReader()]. *)
Definition uart_reader : World :=
  init DEFAULT_UART_URL DEFAULT_BUFFER_MAX_LINES false.

(** The same for i2c_reader.py, whose [I2CReader] is this reader with
    another default URL ([_events_read] there is [lines_read] here). *)
Definition DEFAULT_I2C_URL : string := "http://10.0.0.104:8000/i2c".
Definition i2c_reader : World :=
  init DEFAULT_I2C_URL DEFAULT_BUFFER_MAX_LINES false.

(** *** Listeners (lines 52-62) *)

(** [add_listener]: a new unbounded queue object, registered; its
    handle is returned. *)
Definition add_listener (w : World) : handle * World :=
  let q := fresh (dom (queues w)) in
  (q, set_self (set_ui_queues ({[q]} ∪ ui_queues (self w)) (self w))
        (set_queues (<[q := AsyncQueue.new 0]> (queues w)) w)).

(** [remove_listener(q)]: [set.discard]. *)
Definition remove_listener (q : handle) (w : World) : World :=
  set_self (set_ui_queues (ui_queues (self w) ∖ {[q]}) (self w)) w.

(** *** Accepting a line (lines 126-147) *)

(** Lines 143-147, for one listener: [q.put_nowait(line)] with
    [QueueFull] passed over. *)
Definition offer (line : str) (q : handle) (qs : gmap handle Queue)
    : gmap handle Queue :=
  match qs !! q with
  | Some obj =>
      <[q := (try_except (put_nowait line)
                (λ e, bool_decide (e = QueueFull)) (λ _, pass) obj).2]> qs
  | None => qs
  end.

(** Lines 142-147: [for q in list(self._ui_queues)]. *)
Definition broadcast (line : str) (w : World) : World :=
  set_queues (foldr (offer line) (queues w) (elements (ui_queues (self w)))) w.

(** Lines 126-147: count the line, tee it to the agent queue and to
    the listeners. *)
Definition accept (line : str) (w : World) : World :=
  let r := set_lines_read (lines_read (self w) + 1)%Z (self w) in
  let r := set_agent_queue (pushed line (agent_queue r)) r in
  broadcast line (set_self r w).

(** *** [ensure_running], [is_running], [get_diagnostics], [stop] *)

(** [self._task and not self._task.done()]. *)
Definition task_alive (w : World) : bool :=
  match task (self w) with
  | Some t => match tasks w !! t with
              | Some tk => negb (done tk)
              | None => false
              end
  | None => false
  end.

(** Lines 44-50. *)
Definition ensure_running (w : World) : World :=
  if task_alive w then w
  else
    let r := set_stop_event false (self w) in
    let r := set_task (Some (length (tasks w))) r in
    set_self r (set_tasks (tasks w ++ [mkTask Created false]) w).

(** Lines 64-66. *)
Definition is_running (w : World) : bool :=
  task_alive w && negb (stop_event (self w)).

Record Diagnostics := mkDiagnostics {
  d_status : Status;
  d_url : string;
  d_last_error : option str;
  d_lines_read_total : Z;
  d_last_activity : string;
  d_agent_queue_size : Z;
  d_active_listeners : nat;
  d_task_running : bool;
}.

(** Lines 68-78. *)
Definition get_diagnostics (w : World) : Diagnostics :=
  mkDiagnostics (status (self w)) (url (self w)) (last_error (self w))
    (lines_read (self w)) (last_activity (self w))
    (qsize (agent_queue (self w))) (size (ui_queues (self w)))
    (task_alive w).

(** [task.cancel()]: nothing on a task that is done. *)
Definition cancel (t : task_id) (ts : list Task) : list Task :=
  match ts !! t with
  | Some tk => if done tk then ts else <[t := mkTask (pc tk) true]> ts
  | None => ts
  end.

(** [stop], lines 186-191, up to its [await]: the event is set, the
    task is cancelled and waited for. Without a task [stop] runs to
    its end at once (line 194). *)
Definition stop_begin (w : World) : World :=
  let w := set_self (set_stop_event true (self w)) w in
  match task (self w) with
  | Some t => set_stopping (t :: stopping w) (set_tasks (cancel t (tasks w)) w)
  | None => set_self (set_status stopped (self w)) w
  end.

(** What [await wait_for(shield(task), 2.0)] does when it ends: the
    exception it raises, if any. A task that is not done by then gives
    [TimeoutError] (or the caller is itself cancelled). *)
Definition wait_outcome (t : task_id) (w : World) : option exn :=
  match tasks w !! t with
  | Some tk => match pc tk with
               | Finished raised => raised
               | _ => Some TimeoutError
               end
  | None => None
  end.

(** One waiting [stop] less for task [t]. *)
Fixpoint remove_one (t : task_id) (l : list task_id) : list task_id :=
  match l with
  | [] => []
  | x :: r => if bool_decide (x = t) then r else x :: remove_one t r
  end.

(** [stop], lines 191-194, from the end of the wait for task [t]:
    [CancelledError] and [TimeoutError] are passed over, then the
    status is set; another exception leaves [stop] before line 194. *)
Definition stop_end (t : task_id) (w : World) : World :=
  if bool_decide (t ∈ stopping w) then
    let w' := set_stopping (remove_one t (stopping w)) w in
    match wait_outcome t w with
    | None | Some CancelledError | Some TimeoutError =>
        set_self (set_status stopped (self w')) w'
    | Some _ => w'
    end
  else w.

(** *** The connector loop [_run] (lines 80-155) *)

(** What resumes a suspended task: the outcome of what it awaited.
    [now] is [datetime.datetime.now().isoformat()] at that time. The
    reader asks for chunks of one byte ([iter_chunked(1)]); the handler
    below takes a chunk of any size, as the loop body does. *)
Inductive Resume :=
| Go                                  (* first run; the sleep is over *)
| Response                            (* a response whose status passes line 96 *)
| Chunk (raw : list byte) (now : string)
| EndOfStream
| Raise (e : exn).

(** Line 84 and, if the loop goes on, lines 86-92: the condition of
    the outer [while], then the status and the request. *)
Definition loop_head (w : World) : World * Pc :=
  if stop_event (self w) then (w, Finished None)
  else (set_self (set_status connecting (self w)) w, Connecting).

(** Lines 149-155, for an exception raised in the [try] body. *)
Definition on_exception (e : exn) (w : World) : World * Pc :=
  if bool_decide (e = CancelledError) then (w, Finished (Some e))   (* raise *)
  else if is_Exception e then
    (set_self (set_last_error (Some (str_of_exn e))
                 (set_status error (self w))) w,
     Backoff 1)
  else (w, Finished (Some e)).

(** Lines 102-147, for one chunk. *)
Definition on_chunk (partial : str) (raw : list byte) (now : string)
    (w : World) : World * Pc :=
  if stop_event (self w) then loop_head w                (* break *)
  else if bool_decide (raw = []) then (w, Streaming partial)   (* continue *)
  else
    let w := set_self (set_last_activity now (self w)) w in
    let '(partial', w') := frame accept (partial ++ decode raw) w in
    (w', Streaming partial').

(** The coroutine from where it stands, resumed with [i], up to its
    next [await] or its end. An outcome that what is awaited cannot
    have leaves the task where it is. *)
Definition _run (p : Pc) (i : Resume) (w : World) : World * Pc :=
  match p, i with
  | Finished _, _ => (w, p)
  | Created, Raise e => (w, Finished (Some e))
  | Created, _ => loop_head (set_self (set_status starting (self w)) w)
  | Connecting, Response =>
      (set_self (set_last_error None (set_status connected (self w))) w,
       Streaming [])
  | Connecting, Raise e => on_exception e w
  | Streaming partial, Chunk raw now => on_chunk partial raw now w
  | Streaming _, EndOfStream => loop_head w
  | Streaming _, Raise e => on_exception e w
  | Backoff _, Go => loop_head w
  | Backoff _, Raise e => (w, Finished (Some e))
  | _, _ => (w, p)
  end.

(** The event loop runs task [t]: a cancelled task is resumed by
    [CancelledError], whatever it waited for. *)
Definition step (t : task_id) (i : Resume) (w : World) : World :=
  match tasks w !! t with
  | Some tk =>
      let i := if must_cancel tk then Raise CancelledError else i in
      let '(w', p') := _run (pc tk) i w in
      set_tasks (<[t := mkTask p' false]> (tasks w')) w'
  | None => w
  end.

(** *** Runs *)

(** What can happen to a reader, one atomic piece at a time. *)
Inductive Op :=
| EnsureRunning
| StopBegin
| StopEnd (t : task_id)
| Step (t : task_id) (i : Resume)
| AddListener
| RemoveListener (q : handle).

Definition exec (w : World) (o : Op) : World :=
  match o with
  | EnsureRunning => ensure_running w
  | StopBegin => stop_begin w
  | StopEnd t => stop_end t w
  | Step t i => step t i w
  | AddListener => (add_listener w).2
  | RemoveListener q => remove_listener q w
  end.

Definition exec_all (w : World) (ops : list Op) : World := foldl exec w ops.

End Reader.

Import Reader.

(** ** Notions used to state the properties *)

Module Lines.

Local Open Scope N_scope.

Definition is_terminator (c : N) : bool := (c =? LF) || (c =? CR).

(** What the loop body hands over for an extracted line: the stripped
    line, unless it is empty. *)
Definition event_of (line : str) : list str :=
  let l := strip_line line in
  if bool_decide (l = []) then [] else [l].

(** Following the spec: the text is cut at every newline or carriage
    return, whichever comes first, repeatedly; [cur] is the line being
    assembled. Gives what is left after the last terminator and the
    events of the lines cut off. *)
Fixpoint split_all (cur : str) (s : str) : str * list str :=
  match s with
  | [] => (cur, [])
  | c :: r =>
      if is_terminator c then
        let '(rest, ls) := split_all [] r in (rest, event_of cur ++ ls)
      else split_all (cur ++ [c]) r
  end.

(** [s] starts with carriage returns up to a newline, or holds no
    newline at all. *)
Fixpoint cr_run_to_lf (s : str) : bool :=
  match s with
  | [] => true
  | c :: r =>
      if c =? LF then true
      else if c =? CR then cr_run_to_lf r
      else negb (contains LF r)
  end.

(** Every carriage return of [s] that has a newline somewhere after it
    is separated from the next newline by carriage returns only. *)
Fixpoint cr_glued (s : str) : bool :=
  match s with
  | [] => true
  | c :: r => (if c =? CR then cr_run_to_lf r else true) && cr_glued r
  end.

(** A byte that is a character of its own in UTF-8. *)
Definition is_ascii (b : byte) : bool := Byte.to_N b <? 0x80.

End Lines.

Import Lines.

(** The last [n] elements of a list. *)
Definition lastn {A} (n : nat) (l : list A) : list A :=
  drop (length l - n) l.

(** *** Listeners seen from outside *)

Module Listeners.

(** The steps that matter to a listener: a registration, a removal,
    and the loop body accepting one line (lines 126-147). *)
Inductive Event :=
| Add
| Remove (q : handle)
| Push (line : str).

Definition apply (w : World) (e : Event) : World :=
  match e with
  | Add => (add_listener w).2
  | Remove q => remove_listener q w
  | Push line => accept line w
  end.


(** What the queue object [q] holds (nothing before it exists). *)
Definition received (q : handle) (w : World) : list str :=
  match queues w !! q with
  | Some obj => items obj
  | None => []
  end.


(** What [offer] does to the queue object it finds. *)
Definition offered (line : str) (obj : Queue) : Queue :=
  (try_except (put_nowait line)
     (λ e, bool_decide (e = QueueFull)) (λ _, pass) obj).2.

(** Registered handles name queue objects, and these are unbounded. *)
Definition well_formed (w : World) : Prop :=
  ui_queues (self w) ⊆ dom (queues w)
  ∧ ∀ q obj, queues w !! q = Some obj → maxsize obj = 0%Z.

End Listeners.

Import Listeners.

(** *** The life cycle seen from outside *)

Module Lifecycle.

(** [w'] differs from [w] at most in what accepting lines changes: the
    counters, the agent queue and the listener queues. *)
Definition same_control (w w' : World) : Prop :=
  tasks w' = tasks w ∧ stopping w' = stopping w
  ∧ task (self w') = task (self w)
  ∧ stop_event (self w') = stop_event (self w)
  ∧ status (self w') = status (self w)
  ∧ last_error (self w') = last_error (self w).

(** At most one task is not done, and it is [self._task]. *)
Definition one_alive (w : World) : Prop :=
  ∀ i ti, tasks w !! i = Some ti → done ti = false → task (self w) = Some i.

(** While the status is ["error"], a task is asleep in the backoff,
    not yet started, or done. *)
Definition error_means_backoff (w : World) : Prop :=
  status (self w) = error →
  ∀ i ti, tasks w !! i = Some ti →
          (∃ seconds, pc ti = Backoff seconds) ∨ pc ti = Created
          ∨ done ti = true.

(** While the stop event is set, a task is done or cancelled: [stop]
    sets the event and cancels the task together, and [ensure_running]
    makes a new event with a new task. *)
Definition stop_means_cancel (w : World) : Prop :=
  stop_event (self w) = true →
  ∀ i ti, tasks w !! i = Some ti → done ti = true ∨ must_cancel ti = true.

(** A call of [stop]: its first part or its last. *)
Definition is_stop (o : Op) : Prop := o = StopBegin ∨ ∃ t, o = StopEnd t.

End Lifecycle.

Import Lifecycle.

(** ** Further notions: what the queues hold, and the callers *)

Module Delivered.

Local Open Scope N_scope.

(** A line as the loop body hands it over: not empty, without newline,
    and not ending in a carriage return. *)
Definition clean (line : str) : bool :=
  negb (bool_decide (line = []))
  && negb (contains LF line)
  && match last line with
     | Some c => negb (is_terminator c)
     | None => true
     end.

(** Every line held for the agent or for a listener is [clean]. *)
Definition all_clean (w : World) : Prop :=
  forallb clean (items (agent_queue (self w))) = true
  ∧ ∀ q obj, queues w !! q = Some obj → forallb clean (items obj) = true.

(** The agent queue is the one [__init__] made for [max_lines], and it
    holds no more lines than were counted. *)
Definition counted (max_lines : Z) (w : World) : Prop :=
  maxsize (agent_queue (self w)) = max_lines
  ∧ (0 < max_lines → qsize (agent_queue (self w)) ≤ max_lines)%Z
  ∧ (qsize (agent_queue (self w)) ≤ lines_read (self w))%Z.

(** A connection that fails with each of [errors] in turn: the error is
    raised where task [t] waits, then the sleep of the backoff ends. *)
Definition failures (t : nat) (errors : list exn) : list Op :=
  concat (map (λ e, [Step t (Raise e); Step t Go]) errors).

(** An operation that is neither [add_listener] nor
    [remove_listener]. *)
Definition keeps_listeners (o : Op) : bool :=
  match o with
  | AddListener | RemoveListener _ => false
  | _ => true
  end.

(** The task [t] of [w] waits for a chunk with [partial] pending, and
    nothing stops it. *)
Definition streaming (t : nat) (partial : str) (w : World) : Prop :=
  tasks w !! t = Some (mkTask (Streaming partial) false)
  ∧ stop_event (self w) = false.

(** What one connection that ends without an error does to task [t]:
    the response, then its chunks, each with the time it arrives at,
    then the end of the stream. *)
Definition connection (t : nat) (chunks : list (list byte * string))
    : list Op :=
  Step t Response :: map (λ c, Step t (Chunk c.1 c.2)) chunks
  ++ [Step t EndOfStream].

End Delivered.

Import Delivered.

(** ** The agent's tools (my_tools.py) *)

Module Tools.
Local Open Scope N_scope.

(** [sep.join(lines)]. *)
Fixpoint join (sep : str) (lines : list str) : str :=
  match lines with
  | [] => []
  | [line] => line
  | line :: rest => line ++ sep ++ join sep rest
  end.

(** The text returned for an empty buffer (line 16). *)
Definition BUFFER_EMPTY : str := lit "(uart buffer empty)".

(** [read_uart], lines 12-17, on the module's [uart_reader]: the
    reader is started if need be, its buffer is drained with a wait of
    1.5 seconds, and the lines are joined by newlines. [env] is what
    happens during the wait of [drain]. *)
Definition read_uart (env : Waited) : M World str := λ w,
  let w := ensure_running w in
  match drain (Finite (3 # 2)) env (agent_queue (self w)) with
  | (inl e, q) => (inl e, set_self (set_agent_queue q (self w)) w)
  | (inr lines, q) =>
      (inr (if bool_decide (lines = []) then BUFFER_EMPTY
            else join [LF] lines),
       set_self (set_agent_queue q (self w)) w)
  end.

End Tools.

Import Tools.

(** ** The listener endpoints of the server (server.py) *)

Module Server.

(** Where a handler [websocket_uart] (lines 133-153; [websocket_i2c],
    lines 168-190, is the same on [i2c_reader]) stands: at one of its
    [await]s, or over, with the exception it ended with, if any. *)
Inductive WsPc :=
| Accepting                              (* in websocket.accept(), line 135 *)
| Waiting (queue : handle)               (* in wait_for(queue.get(), 1.0) *)
| Sending (queue : handle) (line : str)  (* in websocket.send_text(line) *)
| Closed (raised : option exn).

(** What resumes a handler: the outcome of what it awaited. *)
Inductive WsResume :=
| Accepted            (* accept() returned *)
| Item                (* queue.get() returned an item *)
| Timeout             (* wait_for gave up after 1.0 s *)
| Sent                (* send_text() returned *)
| Throw (e : exn)     (* the await raised *).

(** The reader, one handler, and the texts the handler has sent to
    its client. *)
Record Server := mkServer { reader : World; handler : WsPc; sent : list str }.

(** Lines 143-147: [except asyncio.TimeoutError], around the wait and
    the send; then line 153 when the loop is left. *)
Definition on_timeout (q : handle) (s : Server) : Server :=
  if negb (is_running (reader s)) then
    mkServer (remove_listener q (reader s)) (Closed None) (sent s)  (* break *)
  else mkServer (reader s) (Waiting q) (sent s).                    (* continue *)

(** Lines 148-153, for another exception raised in the loop: an
    [Exception] (a [WebSocketDisconnect] is one) is logged, anything
    else goes on to the caller; the listener is removed in both
    cases. *)
Definition on_raise (q : handle) (e : exn) (s : Server) : Server :=
  mkServer (remove_listener q (reader s))
    (Closed (if is_Exception e then None else Some e)) (sent s).

(** [queue.get()] on the queue object [q] when it holds an item. *)
Definition get_item (q : handle) (w : World) : option (str * World) :=
  match queues w !! q with
  | Some obj =>
      match get_nowait obj with
      | (inr line, obj') => Some (line, set_queues (<[q := obj']> (queues w)) w)
      | (inl _, _) => None
      end
  | None => None
  end.

(** The handler from where it stands, resumed with [i], up to its next
    [await] or its end. An outcome that what is awaited cannot have
    leaves the handler where it is. *)
Definition websocket_uart (i : WsResume) (s : Server) : Server :=
  match handler s, i with
  | Accepting, Accepted =>
      let '(q, w) := add_listener (reader s) in mkServer w (Waiting q) (sent s)
  | Accepting, Throw e => mkServer (reader s) (Closed (Some e)) (sent s)
  | Waiting q, Item =>
      match get_item q (reader s) with
      | Some (line, w) => mkServer w (Sending q line) (sent s)
      | None => s
      end
  | Waiting q, Timeout => on_timeout q s
  | Sending q line, Sent => mkServer (reader s) (Waiting q) (sent s ++ [line])
  | Waiting q, Throw e | Sending q _, Throw e =>
      if bool_decide (e = TimeoutError) then on_timeout q s else on_raise q e s
  | _, _ => s
  end.

(** What happens in the server: an operation on the reader, or a
    resumption of the handler. *)
Inductive SEvent :=
| OnReader (o : Op)
| OnHandler (i : WsResume).

Definition serve (s : Server) (e : SEvent) : Server :=
  match e with
  | OnReader o => mkServer (exec (reader s) o) (handler s) (sent s)
  | OnHandler i => websocket_uart i s
  end.

Definition serve_all (s : Server) (evs : list SEvent) : Server :=
  foldl serve s evs.

(** The operations on the reader among [evs]. *)
Definition reader_ops (evs : list SEvent) : list Op :=
  omap (λ e, match e with OnReader o => Some o | OnHandler _ => None end) evs.

(** An event that is not a listener call from elsewhere. *)
Definition quiet (e : SEvent) : bool :=
  match e with
  | OnReader o => keeps_listeners o
  | OnHandler _ => true
  end.

(** The line taken from the queue and not yet sent. *)
Definition in_flight (p : WsPc) : list str :=
  match p with Sending _ line => [line] | _ => [] end.

(** The queue of a handler in its loop. *)
Definition listening (p : WsPc) : option handle :=
  match p with
  | Waiting q | Sending q _ => Some q
  | _ => None
  end.

(** The listener set of [s] is [ui0] and, while the handler is in its
    loop, its queue, which is not in [ui0]. *)
Definition one_more (ui0 : gset handle) (s : Server) : Prop :=
  match listening (handler s) with
  | Some q => (q ∉ ui0) ∧ ui_queues (self (reader s)) = {[q]} ∪ ui0
  | None => ui_queues (self (reader s)) = ui0
  end.

(** [ws] is [wp] with the items [taken] removed from the front of the
    listener queue [q]. *)
Definition consumed (q : handle) (taken : list str) (wp ws : World) : Prop :=
  self ws = self wp ∧ tasks ws = tasks wp ∧ stopping ws = stopping wp
  ∧ (∀ q', q' ≠ q → queues ws !! q' = queues wp !! q')
  ∧ ∃ rest, queues ws !! q = Some (mkQueue 0 rest)
            ∧ queues wp !! q = Some (mkQueue 0 (taken ++ rest)).

End Server.

Import Server.

(** ** The labelled stream of a run (openai_streamer.py) *)

Module Streamer.
Local Open Scope N_scope.

(** [event.data] of a [RawResponsesStreamEvent], by its class, with
    its [delta]. *)
Inductive Data :=
| ResponseReasoningTextDeltaEvent (delta : str)
| ResponseReasoningSummaryTextDeltaEvent (delta : str)
| ResponseTextDeltaEvent (delta : str)
| OtherData.

(** A part of a message, as the loop reads it: [getattr(part, "type",
    None)] and [getattr(part, "text", "")], [None] for an attribute
    that is missing or [None]. *)
Record ContentPart := mkContentPart {
  part_type : option str;
  part_text : option str;
}.

(** [item.raw_item] of a [MessageOutputItem]: [content] is
    [getattr(raw_item, "content", None)]. *)
Record RawMessage := mkRawMessage { content : option (list ContentPart) }.

(** [raw.action]: [query] is [None] without the attribute, and else
    its value, a string or [None]. *)
Record Action := mkAction { query : option (option str) }.

(** [item.raw_item] of a [ToolCallItem]: [name] and [arguments] are
    [None] when missing or [None]; [type] is [None] when missing and
    else its value; [action] is [None] when missing. *)
Record RawToolCall := mkRawToolCall {
  name : option str;
  type : option (option str);
  arguments : option str;
  action : option Action;
}.

Inductive Item :=
| MessageOutputItem (raw_item : option RawMessage)
| ToolCallItem (raw_item : RawToolCall)
| OtherItem.

Inductive StreamEvent :=
| RawResponsesStreamEvent (data : Data)
| RunItemStreamEvent (item : Item)
| OtherEvent.

(** [streamed.final_output]: missing or [None], a string, or another
    object with its truth value and its [str()]. *)
Inductive FinalOutput :=
| NoOutput
| StrOutput (s : str)
| ObjOutput (truth : bool) (as_str : str).

(** A streamed run: the events of [stream_events()], the exception
    that ends them if the stream fails, and [final_output]. *)
Record Streamed := mkStreamed {
  events : list StreamEvent;
  failure : option exn;
  final_output : FinalOutput;
}.

(** *** [json.dumps({"query": q})] *)

Definition hex_digit (n : N) : N := if n <? 10 then 48 + n else 87 + n.

(** ['\\u{0:04x}'.format(n)]. *)
Definition u_escape (n : N) : str :=
  [0x5C; 0x75; hex_digit (n / 4096 mod 16); hex_digit (n / 256 mod 16);
   hex_digit (n / 16 mod 16); hex_digit (n mod 16)].

(** The replacement of one character in [py_encode_basestring_ascii]:
    the backslash, the quote and the control characters with a short
    form, the printable ASCII characters as they are, the others as
    [\uXXXX], a surrogate pair above U+FFFF. *)
Definition escape_char (c : N) : str :=
  if c =? 0x5C then [0x5C; 0x5C]
  else if c =? 0x22 then [0x5C; 0x22]
  else if c =? 0x08 then [0x5C; 0x62]
  else if c =? 0x0C then [0x5C; 0x66]
  else if c =? 0x0A then [0x5C; 0x6E]
  else if c =? 0x0D then [0x5C; 0x72]
  else if c =? 0x09 then [0x5C; 0x74]
  else if (0x20 <=? c) && (c <=? 0x7E) then [c]
  else if c <? 0x10000 then u_escape c
  else
    let n := c - 0x10000 in
    u_escape (N.lor 0xD800 (N.land (N.shiftr n 10) 0x3FF))
    ++ u_escape (N.lor 0xDC00 (N.land n 0x3FF)).

Definition encode_basestring_ascii (s : str) : str :=
  [0x22] ++ flat_map escape_char s ++ [0x22].

(** [json.dumps({"query": q})] for a string or [None]. *)
Definition dumps_query (q : option str) : str :=
  [0x7B; 0x22] ++ lit "query" ++ [0x22] ++ lit ": "
  ++ match q with
     | Some s => encode_basestring_ascii s
     | None => lit "null"
     end
  ++ [0x7D].

(** *** [iter_labeled_deltas] (lines 40-103) *)

Inductive Label :=
| reasoning_start | reasoning | final_start | final | tool_call
| final_message.

#[global] Instance Label_eq_dec : EqDecision Label.
Proof. solve_decision. Defined.

(** What is yielded with a label: a text, or the dict of a tool call
    with its ["name"] and ["args"]. *)
Inductive Content :=
| Text (s : str)
| ToolCall (name : option str) (args : str).

Abbreviation Yield := (Label * Content)%type (only parsing).

Definition REASONING_STEP : str := lit "~~~REASONING STEP~~~".
Definition FINAL_OUTPUT : str := lit "~~~FINAL OUTPUT~~~".

(** The local variables of the generator (lines 53-55). *)
Record State := mkState {
  saw_reasoning : bool;
  saw_final : bool;
  last_message_output_text : option str;
}.

Definition initial : State := mkState false false None.

(** The truth value of a string. *)
Definition truthy (s : str) : bool := negb (bool_decide (s = [])).

(** Lines 75-81: the [output_text] parts of a message, joined. *)
Definition message_text (raw_item : option RawMessage) : str :=
  match raw_item with
  | Some raw =>
      match content raw with
      | Some ((_ :: _) as parts) =>
          foldl (λ text part,
                   if bool_decide (part_type part = Some (lit "output_text"))
                   then text ++ default [] (part_text part) else text)
            [] parts
      | _ => []
      end
  | None => []
  end.

(** Line 87: [getattr(raw, "name", None) or getattr(raw, "type",
    "unknown_tool")]. *)
Definition tool_name (raw : RawToolCall) : option str :=
  match name raw with
  | Some ((_ :: _) as n) => Some n
  | _ => match type raw with
         | Some t => t
         | None => Some (lit "unknown_tool")
         end
  end.

(** Lines 89-93. *)
Definition tool_arguments (raw : RawToolCall) : str :=
  let arguments := default [] (arguments raw) in
  if truthy arguments then arguments
  else match action raw with
       | Some action =>
           match query action with
           | Some q => dumps_query q
           | None => arguments
           end
       | None => arguments
       end.

(** The body of the loop (lines 58-94) for one event: what it yields,
    and the variables afterwards. *)
Definition on_event (event : StreamEvent) (st : State)
    : list Yield * State :=
  match event with
  | RawResponsesStreamEvent data =>
      match data with
      | ResponseReasoningTextDeltaEvent delta
      | ResponseReasoningSummaryTextDeltaEvent delta =>
          if truthy delta then
            ((if saw_reasoning st then []
              else [(reasoning_start, Text REASONING_STEP)])
             ++ [(reasoning, Text delta)],
             mkState true (saw_final st) (last_message_output_text st))
          else ([], st)
      | ResponseTextDeltaEvent delta =>
          if truthy delta then
            ((if saw_final st then []
              else [(final_start, Text FINAL_OUTPUT)])
             ++ [(final, Text delta)],
             mkState (saw_reasoning st) true (last_message_output_text st))
          else ([], st)
      | OtherData => ([], st)
      end
  | RunItemStreamEvent item =>
      match item with
      | MessageOutputItem raw_item =>
          let text := message_text raw_item in
          if truthy text
          then ([], mkState (saw_reasoning st) (saw_final st) (Some text))
          else ([], st)
      | ToolCallItem raw =>
          ([(tool_call, ToolCall (tool_name raw) (tool_arguments raw))], st)
      | OtherItem => ([], st)
      end
  | OtherEvent => ([], st)
  end.

(** The loop over the events that come. *)
Fixpoint loop (events : list StreamEvent) (st : State)
    : list Yield * State :=
  match events with
  | [] => ([], st)
  | event :: rest =>
      let '(ys, st) := on_event event st in
      let '(ys', st) := loop rest st in
      (ys ++ ys', st)
  end.

(** Lines 98-103, after the loop. *)
Definition after_loop (final_output : FinalOutput) (st : State)
    : list Yield :=
  let last :=
    match last_message_output_text st with
    | Some text => Some text
    | None => match final_output with
              | StrOutput s => Some s
              | _ => None
              end
    end in
  match last with
  | Some ((_ :: _) as text) => [(final_message, Text text)]
  | _ => []
  end.

(** The generator run to its end: everything it yields, and the
    exception it ends with when the stream fails. *)
Definition iter_labeled_deltas (streamed : Streamed)
    : list Yield * option exn :=
  let '(ys, st) := loop (events streamed) initial in
  match failure streamed with
  | Some e => (ys, Some e)
  | None => (ys ++ after_loop (final_output streamed) st, None)
  end.

(** *** [stream_to_stdout] (lines 105-132) *)

(** Lines 118-124: the text deltas collected from the events. *)
Definition collect_deltas (events : list StreamEvent) : list str :=
  omap (λ event,
          match event with
          | RawResponsesStreamEvent (ResponseTextDeltaEvent delta) =>
              if truthy delta then Some delta else None
          | _ => None
          end) events.

(** Lines 127-130, the [finally]. *)
Definition with_fallback (final_output : FinalOutput)
    (collected : list str) : list str :=
  match collected, final_output with
  | [], StrOutput s => if truthy s then [s] else []
  | [], ObjOutput true as_str => [as_str]
  | _, _ => collected
  end.

(** [start] is what [start_stream] gives: the run, or the exception
    it raises. *)
Definition stream_to_stdout (start : exn + Streamed) : exn + str :=
  match start with
  | inl e => if is_Exception e then inr [] else inl e
  | inr streamed =>
      let collected :=
        with_fallback (final_output streamed)
          (collect_deltas (events streamed)) in
      match failure streamed with
      | Some e => if is_Exception e then inr (concat collected) else inl e
      | None => inr (concat collected)
      end
  end.

(** The yields of [ys] with the label [l], in order. *)
Definition labelled (l : Label) (ys : list Yield) : list Content :=
  omap (λ y : Yield, if bool_decide (y.1 = l) then Some y.2 else None) ys.

(** The reasoning deltas of the events that are not empty, and the
    raw items of the tool calls, in order. *)
Definition reasoning_deltas (events : list StreamEvent) : list str :=
  omap (λ event,
          match event with
          | RawResponsesStreamEvent (ResponseReasoningTextDeltaEvent delta)
          | RawResponsesStreamEvent
              (ResponseReasoningSummaryTextDeltaEvent delta) =>
              if truthy delta then Some delta else None
          | _ => None
          end) events.

Definition tool_calls (events : list StreamEvent) : list RawToolCall :=
  omap (λ event,
          match event with
          | RunItemStreamEvent (ToolCallItem raw) => Some raw
          | _ => None
          end) events.

(** The texts of the messages of the events that are not empty. *)
Definition message_texts (events : list StreamEvent) : list str :=
  omap (λ event,
          match event with
          | RunItemStreamEvent (MessageOutputItem raw_item) =>
              if truthy (message_text raw_item)
              then Some (message_text raw_item) else None
          | _ => None
          end) events.

End Streamer.

(** * Properties *)

(** ** Python strings: lemmas *)

Section PyStrLemmas.

Local Open Scope N_scope.

Lemma contains_app c (s t : str) :
  contains c (s ++ t) = contains c s || contains c t.
Proof. unfold contains. apply existsb_app. Qed.

Lemma contains_cons c x (s : str) :
  contains c (x :: s) = (c =? x) || contains c s.
Proof. reflexivity. Qed.

Lemma partition_absent c (s : str) :
  contains c s = false → partition c s = (s, [], []).
Proof.
  induction s as [|x r IH]; simpl; [done|].
  intros [Hx Hr]%orb_false_iff. rewrite (N.eqb_sym x c), Hx.
  by rewrite (IH Hr).
Qed.

Lemma partition_present c (s : str) :
  contains c s = true →
  ∃ before after,
    partition c s = (before, [c], after) ∧ s = before ++ c :: after
    ∧ contains c before = false.
Proof.
  induction s as [|x r IH]; simpl; [done|].
  rewrite (N.eqb_sym c x). destruct (x =? c) eqn:Hx.
  - apply N.eqb_eq in Hx as ->. intros _. by exists [], r.
  - simpl. intros (b & a & -> & -> & Hb)%IH.
    exists (x :: b), a. simpl. rewrite (N.eqb_sym c x), Hx. done.
Qed.

Lemma rstrip_app_strippable chars (s t : str) :
  forallb (λ x, existsb (N.eqb x) chars) t = true →
  rstrip chars (s ++ t) = rstrip chars s.
Proof.
  intros Ht. assert (rstrip chars t = []) as Hnil.
  { induction t as [|x t IH]; simpl in *; [done|].
    apply andb_true_iff in Ht as [Hx Ht]. by rewrite (IH Ht), Hx. }
  induction s as [|y s IH]; simpl; [done|]. by rewrite IH.
Qed.

Lemma rstrip_prefix chars (s : str) :
  ∃ t, s = rstrip chars s ++ t
       ∧ forallb (λ x, existsb (N.eqb x) chars) t = true.
Proof.
  induction s as [|x s (t & IH & Ht)]; simpl; [by exists []|].
  destruct (rstrip chars s) as [|y r'] eqn:Hr; simpl in IH.
  - destruct (existsb (N.eqb x) chars) eqn:Hx.
    + exists (x :: s). split; [done|]. simpl. rewrite Hx. by subst t.
    + exists t. split; [|done]. simpl. by f_equal.
  - exists t. split; [|done]. simpl. by f_equal.
Qed.

Lemma rstrip_last chars (s r : str) c :
  rstrip chars s = r ++ [c] → existsb (N.eqb c) chars = false.
Proof.
  revert r. induction s as [|x s IH]; intros r; simpl.
  - by destruct r.
  - destruct (rstrip chars s) as [|y r'] eqn:Hr.
    + destruct (existsb (N.eqb x) chars) eqn:Hx; [by destruct r|].
      destruct r as [|? [|??]]; simpl; intros; simplify_eq. done.
    + destruct r as [|z r]; simpl; intros Heq; simplify_eq.
      by eapply IH.
Qed.

Lemma rstrip_no_trailing (s : str) :
  has_terminator s = false → rstrip [CR; LF] s = s.
Proof.
  unfold has_terminator. induction s as [|x s IH]; [done|].
  rewrite !contains_cons. intros H.
  apply orb_false_iff in H as [[H1 H2]%orb_false_iff [H3 H4]%orb_false_iff].
  cbn [rstrip]. rewrite IH by by rewrite H2, H4.
  destruct s; [|done]. cbn [existsb].
  rewrite (N.eqb_sym x CR), (N.eqb_sym x LF), H1, H3. done.
Qed.

End PyStrLemmas.

(** ** The framer: lemmas *)

Section FramerLemmas.

Lemma split_once_lf (s : str) :
  contains LF s = true →
  ∃ u r, split_once s = (u, r) ∧ s = u ++ LF :: r ∧ contains LF u = false.
Proof.
  intros (u & r & Hp & Hs & Hu)%partition_present.
  exists u, r. unfold split_once. rewrite Hp. done.
Qed.

Lemma split_once_cr (s : str) :
  contains LF s = false → contains CR s = true →
  ∃ u r, split_once s = (u, r) ∧ s = u ++ CR :: r
         ∧ has_terminator u = false.
Proof.
  intros Hlf (u & r & Hp & Hs & Hu)%partition_present.
  exists u, r. unfold split_once. rewrite (partition_absent _ _ Hlf), Hp.
  split_and!; [done..|]. unfold has_terminator. rewrite Hu.
  rewrite Hs, contains_app in Hlf. apply orb_false_iff in Hlf as [-> _]. done.
Qed.

Lemma split_once_shorter (s : str) :
  has_terminator s = true → length (split_once s).2 < length s.
Proof.
  unfold has_terminator. intros H.
  destruct (contains LF s) eqn:Hlf.
  - destruct (split_once_lf s Hlf) as (u & r & -> & Hs & _).
    simpl. rewrite Hs, length_app. simpl. lia.
  - destruct (split_once_cr s Hlf H) as (u & r & -> & Hs & _).
    simpl. rewrite Hs, length_app. simpl. lia.
Qed.

Section Sink.
Context {S : Type} (accept : str → S → S).

(** The loop does not depend on the fuel once there is enough of it. *)
Lemma while_terminator_enough fuel1 fuel2 (s : str) (st : S) :
  length s ≤ fuel1 → length s ≤ fuel2 →
  while_terminator accept fuel1 s st = while_terminator accept fuel2 s st.
Proof.
  revert fuel2 s st. induction fuel1 as [|f1 IH]; intros fuel2 s st H1 H2.
  - destruct s; [|simpl in H1; lia]. by destruct fuel2.
  - destruct fuel2 as [|f2].
    { destruct s; [|simpl in H2; lia]. done. }
    simpl. destruct (has_terminator s) eqn:Ht; [|done].
    pose proof (split_once_shorter s Ht) as Hlt.
    destruct (split_once s) as [line r]. simpl in Hlt. cbn zeta.
    case_bool_decide; apply IH; lia.
Qed.

Lemma while_terminator_fuel fuel (s : str) (st : S) :
  length s ≤ fuel → while_terminator accept fuel s st = frame accept s st.
Proof. intros. by apply while_terminator_enough. Qed.

Lemma frame_unfold (s : str) (st : S) :
  frame accept s st =
    if has_terminator s then
      let '(line, remainder) := split_once s in
      let line := strip_line line in
      if bool_decide (line = []) then frame accept remainder st
      else frame accept remainder (accept line st)
    else (s, st).
Proof.
  unfold frame at 1. destruct s as [|c s]; [done|].
  cbn [length while_terminator].
  destruct (has_terminator (c :: s)) eqn:Ht; [|done].
  pose proof (split_once_shorter _ Ht) as Hlt.
  destruct (split_once (c :: s)) as [line r]. simpl in Hlt. cbn zeta.
  case_bool_decide; apply while_terminator_fuel; lia.
Qed.

(** The loop ends, and ends without a terminator left. *)
Lemma frame_no_terminator (s : str) (st : S) :
  has_terminator (frame accept s st).1 = false.
Proof.
  remember (length s) as n eqn:Hn. revert s st Hn.
  induction n as [n IH] using lt_wf_ind. intros s st ->.
  rewrite frame_unfold. destruct (has_terminator s) eqn:Ht; [|done].
  pose proof (split_once_shorter _ Ht) as Hlt.
  destruct (split_once s) as [line r]. simpl in Hlt. cbn zeta.
  case_bool_decide; by eapply IH.
Qed.
End Sink.

Lemma frame_lines_unfold (s : str) :
  frame_lines s =
    if has_terminator s then
      let '(line, remainder) := split_once s in
      let '(rest, ls) := frame_lines remainder in
      (rest, event_of line ++ ls)
    else (s, []).
Proof.
  assert (∀ n (s : str) acc, length s < n →
            frame collect s acc
            = ((frame collect s []).1, acc ++ (frame collect s []).2)) as Hacc.
  { induction n as [|n IH]; intros t acc Hlen; [lia|].
    rewrite (frame_unfold collect t acc), (frame_unfold collect t []).
    destruct (has_terminator t) eqn:Ht; [|by rewrite app_nil_r].
    pose proof (split_once_shorter _ Ht) as Hlt.
    destruct (split_once t) as [line r]. simpl in Hlt. cbn zeta.
    case_bool_decide; [apply IH; lia|].
    rewrite (IH r (collect _ acc)), (IH r (collect _ [])) by lia.
    unfold collect. simpl. by rewrite <-app_assoc. }
  unfold frame_lines. rewrite (frame_unfold collect s []).
  destruct (has_terminator s); [|done].
  destruct (split_once s) as [line r]. cbn zeta. unfold event_of.
  case_bool_decide.
  - by destruct (frame collect r []).
  - rewrite (Hacc (Datatypes.S (length r))) by lia.
    by destruct (frame collect r []).
Qed.

(** Teeing the lines one by one is folding [accept] over the lines
    collected. *)
Lemma frame_collect {S : Type} (accept : str → S → S) (s : str) (st : S) :
  frame accept s st
  = ((frame_lines s).1, foldl (λ st l, accept l st) st (frame_lines s).2).
Proof.
  remember (length s) as n eqn:Hn. revert s st Hn.
  induction n as [n IH] using lt_wf_ind. intros s st ->.
  rewrite frame_unfold, frame_lines_unfold.
  destruct (has_terminator s) eqn:Ht; [|done].
  pose proof (split_once_shorter _ Ht) as Hlt.
  destruct (split_once s) as [line r]. simpl in Hlt. cbn zeta.
  unfold event_of. case_bool_decide.
  - rewrite (IH (length r)) by done. by destruct (frame_lines r).
  - rewrite (IH (length r)) by done. by destruct (frame_lines r).
Qed.

End FramerLemmas.

(** ** Cutting at every terminator: lemmas *)

Section SplitAll.

Local Open Scope N_scope.

Lemma has_terminator_cons c (s : str) :
  has_terminator (c :: s) = is_terminator c || has_terminator s.
Proof.
  unfold has_terminator, is_terminator. rewrite !contains_cons.
  rewrite (N.eqb_sym LF c), (N.eqb_sym CR c).
  by destruct (c =? LF), (c =? CR), (contains LF s), (contains CR s).
Qed.

Lemma has_terminator_app (s t : str) :
  has_terminator (s ++ t) = has_terminator s || has_terminator t.
Proof.
  unfold has_terminator. rewrite !contains_app.
  by destruct (contains LF s), (contains CR s), (contains LF t).
Qed.

Lemma split_all_no_term cur (s : str) :
  has_terminator s = false → split_all cur s = (cur ++ s, []).
Proof.
  revert cur. induction s as [|c s IH]; intros cur; simpl.
  - by rewrite app_nil_r.
  - rewrite has_terminator_cons. intros [-> Hs]%orb_false_iff.
    rewrite IH by done. by rewrite <-app_assoc.
Qed.

Lemma split_all_app cur (a b : str) :
  split_all cur (a ++ b) =
    let '(p1, l1) := split_all cur a in
    let '(p2, l2) := split_all p1 b in
    (p2, l1 ++ l2).
Proof.
  revert cur. induction a as [|c a IH]; intros cur; simpl.
  - by destruct (split_all cur b).
  - destruct (is_terminator c); [|apply IH].
    rewrite IH. destruct (split_all [] a) as [p1 l1].
    destruct (split_all p1 b) as [p2 l2]. by rewrite app_assoc.
Qed.

Lemma split_all_no_term_app cur (u t : str) :
  has_terminator u = false → split_all cur (u ++ t) = split_all (cur ++ u) t.
Proof.
  intros Hu. rewrite split_all_app, (split_all_no_term _ _ Hu).
  by destruct (split_all (cur ++ u) t).
Qed.

Lemma split_all_rest_no_term cur (s : str) :
  has_terminator cur = false → has_terminator (split_all cur s).1 = false.
Proof.
  revert cur. induction s as [|c s IH]; intros cur Hcur; simpl; [done|].
  destruct (is_terminator c) eqn:Hc.
  - specialize (IH [] eq_refl). by destruct (split_all [] s).
  - apply IH. rewrite has_terminator_app, Hcur, has_terminator_cons, Hc. done.
Qed.

Lemma split_all_suffix cur (s : str) :
  ∃ pre, cur ++ s = pre ++ (split_all cur s).1.
Proof.
  revert cur. induction s as [|c s IH]; intros cur; simpl.
  - exists []. by rewrite app_nil_r.
  - destruct (is_terminator c).
    + destruct (IH []) as [pre Hpre]. destruct (split_all [] s) as [p l].
      exists (cur ++ c :: pre). simpl in *. rewrite Hpre.
      by rewrite <-app_assoc.
    + destruct (IH (cur ++ [c])) as [pre Hpre]. exists pre.
      by rewrite <-Hpre, <-app_assoc.
Qed.



Lemma cr_glued_app_r (a b : str) :
  cr_glued (a ++ b) = true → cr_glued b = true.
Proof.
  induction a as [|c a IH]; simpl; [done|].
  intros [_ H2]%andb_true_iff. by apply IH.
Qed.

Lemma cr_glued_no_term_app (p t : str) :
  has_terminator p = false → cr_glued (p ++ t) = cr_glued t.
Proof.
  induction p as [|c p IH]; simpl; [done|].
  rewrite has_terminator_cons. intros [Hc Hp]%orb_false_iff.
  unfold is_terminator in Hc. apply orb_false_iff in Hc as [_ ->].
  by rewrite IH.
Qed.

Lemma cr_run_all_cr (u r : str) :
  cr_run_to_lf (u ++ LF :: r) = true → contains LF u = false →
  forallb (λ x, x =? CR) u = true.
Proof.
  induction u as [|c u IH]; [done|].
  cbn [app cr_run_to_lf forallb]. rewrite contains_cons, (N.eqb_sym LF c).
  destruct (c =? LF); [done|]. rewrite orb_false_l.
  destruct (c =? CR); [by auto|].
  rewrite contains_app, contains_cons, N.eqb_refl, orb_true_r. done.
Qed.

Lemma event_of_nil : event_of [] = [].
Proof. reflexivity. Qed.

Lemma event_of_app_crs cur (u : str) :
  forallb (λ x, x =? CR) u = true → event_of (cur ++ u) = event_of cur.
Proof.
  intros Hu. unfold event_of, strip_line.
  rewrite rstrip_app_strippable; [done|].
  induction u as [|c u IH]; simpl in *; [done|].
  apply andb_true_iff in Hu as [-> Hu]. simpl. by apply IH.
Qed.

Lemma split_all_crs cur (u r : str) :
  forallb (λ x, x =? CR) u = true →
  split_all cur (u ++ LF :: r)
  = ((split_all [] r).1, event_of cur ++ (split_all [] r).2).
Proof.
  revert cur. induction u as [|c u IH]; intros cur; simpl.
  - intros _. by destruct (split_all [] r).
  - intros [Hc Hu]%andb_true_iff. unfold is_terminator. rewrite Hc, orb_true_r.
    rewrite (IH [] Hu), event_of_nil. done.
Qed.

Lemma split_all_lf cur (u r : str) :
  contains LF u = false → cr_glued (u ++ LF :: r) = true →
  split_all cur (u ++ LF :: r)
  = ((split_all [] r).1, event_of (cur ++ u) ++ (split_all [] r).2).
Proof.
  revert cur. induction u as [|c u IH]; intros cur Hlf Hg.
  - rewrite app_nil_r. by apply (split_all_crs cur []).
  - rewrite contains_cons in Hlf. apply orb_false_iff in Hlf as [Hc Hlf].
    simpl in Hg. apply andb_true_iff in Hg as [Hrun Hg].
    destruct (c =? CR) eqn:Hcr.
    + pose proof (cr_run_all_cr _ _ Hrun Hlf) as Hall.
      rewrite event_of_app_crs by (simpl; by rewrite Hcr, Hall).
      apply (split_all_crs cur (c :: u)). simpl. by rewrite Hcr, Hall.
    + simpl. unfold is_terminator. rewrite (N.eqb_sym c LF), Hc, Hcr. simpl.
      rewrite (IH (cur ++ [c]) Hlf Hg). by rewrite <-app_assoc.
Qed.

(** On a text whose carriage returns are glued to the newlines, the
    loop of the source cuts at every terminator. *)
Lemma frame_lines_split_all (s : str) :
  cr_glued s = true → frame_lines s = split_all [] s.
Proof.
  remember (length s) as n eqn:Hn. revert s Hn.
  induction n as [n IH] using lt_wf_ind. intros s -> Hg.
  rewrite frame_lines_unfold. destruct (has_terminator s) eqn:Ht.
  2: { by rewrite split_all_no_term. }
  pose proof (split_once_shorter _ Ht) as Hlt.
  destruct (contains LF s) eqn:Hlf.
  - destruct (split_once_lf s Hlf) as (u & r & Hsp & Hs & Hu).
    rewrite Hsp in *. simpl in Hlt.
    rewrite (IH (length r) Hlt r eq_refl).
    2: { rewrite Hs in Hg. by apply cr_glued_app_r in Hg. }
    rewrite Hs in Hg |- *. rewrite (split_all_lf [] u r Hu Hg).
    by destruct (split_all [] r).
  - unfold has_terminator in Ht. rewrite Hlf in Ht. simpl in Ht.
    destruct (split_once_cr s Hlf Ht) as (u & r & Hsp & Hs & Hu).
    rewrite Hsp in *. simpl in Hlt.
    rewrite (IH (length r) Hlt r eq_refl).
    2: { rewrite Hs in Hg. apply cr_glued_app_r in Hg. simpl in Hg.
         by apply andb_true_iff in Hg as [_ ?]. }
    rewrite Hs. rewrite (split_all_no_term_app [] u _ Hu). simpl.
    unfold is_terminator. simpl. by destruct (split_all [] r).
Qed.

(** The framer over chunks, each with its carriage returns glued. *)
Lemma feed_all_split_all (chunks : list (list byte)) (p : str) :
  has_terminator p = false →
  forallb (λ raw, cr_glued (decode raw)) chunks = true →
  feed_all p chunks = split_all p (concat (map decode chunks)).
Proof.
  revert p. induction chunks as [|raw rest IH]; intros p Hp Hall; [done|].
  simpl in Hall. apply andb_true_iff in Hall as [Hraw Hall].
  cbn [feed_all map concat]. rewrite split_all_app.
  assert (feed p raw = split_all p (decode raw)) as ->.
  { unfold feed. case_bool_decide as Hnil.
    - subst raw. done.
    - rewrite frame_lines_split_all by by rewrite cr_glued_no_term_app.
      by rewrite split_all_no_term_app. }
  pose proof (split_all_rest_no_term p (decode raw) Hp) as Hp'.
  destruct (split_all p (decode raw)) as [p' ls]. simpl in Hp'.
  by rewrite (IH p' Hp' Hall).
Qed.

End SplitAll.

(** ** The framer: theorems *)

Section FramerTheorems.

Local Open Scope N_scope.


Lemma decode_single (b : byte) :
  ∃ c, decode [b] = [c] ∧ (c = REPLACEMENT ∨ c = Byte.to_N b).
Proof. destruct b; eexists; split; try reflexivity; auto. Qed.

Lemma in_crlf x : existsb (N.eqb x) [CR; LF] = is_terminator x.
Proof.
  unfold is_terminator. cbn [existsb].
  by destruct (x =? CR), (x =? LF).
Qed.

Lemma cr_glued_single c : cr_glued [c] = true.
Proof. simpl. by destruct (c =? CR). Qed.

(** Fed one byte at a time, as [iter_chunked(1)] does, the framer cuts
    at every terminator. *)
Lemma feed_all_bytewise (bs : list byte) (p : str) :
  has_terminator p = false →
  feed_all p (map (λ b, [b]) bs)
  = split_all p (concat (map (λ b, decode [b]) bs)).
Proof.
  intros Hp. rewrite feed_all_split_all; [|done|].
  - by rewrite map_map.
  - induction bs as [|b bs IH]; [done|]. simpl map. cbn [forallb].
    rewrite IH. destruct (decode_single b) as (c & -> & _).
    by rewrite cr_glued_single.
Qed.

Lemma partition_snoc x (s : str) c :
  contains x s = false →
  partition x (s ++ [c])
  = if c =? x then (s, [x], []) else (s ++ [c], [], []).
Proof.
  induction s as [|y s IH]; intros Hs.
  - cbn [app partition]. by destruct (c =? x).
  - rewrite contains_cons in Hs. apply orb_false_iff in Hs as [Hy Hs].
    cbn [app partition]. rewrite (N.eqb_sym y x), Hy, (IH Hs).
    by destruct (c =? x).
Qed.

(** After one more byte on a pending text without terminator, as
    [iter_chunked(1)] gives it, a terminator can only be the last
    character: the cut is then at the earliest terminator. *)
Lemma split_once_one_more (partial : str) (c : N) :
  has_terminator partial = false → is_terminator c = true →
  split_once (partial ++ [c]) = (partial, []).
Proof.
  unfold has_terminator, is_terminator, split_once.
  intros [Hlf Hcr]%orb_false_iff Hc.
  rewrite (partition_snoc LF) by done. destruct (c =? LF); [done|].
  rewrite bool_decide_eq_true_2 by done.
  rewrite (partition_snoc CR) by done. simpl in Hc. by rewrite Hc.
Qed.

(** C6. In the framer's per-line processing, the line ["data:ping"]
    gives exactly the event ["ping"], the line ["data:"] gives no
    event, and an empty line gives no event: whatever the lines are
    teed into, and whether the line ends with a newline or with a
    carriage return. *)
Theorem data_prefix_lines :
  strip_line (lit "data:ping") = lit "ping"
  ∧ event_of (lit "data:ping") = [lit "ping"]
  ∧ event_of (lit "data:") = []
  ∧ event_of [] = []
  ∧ Forall (λ t, ∀ (S : Type) (accept : str → S → S) (st : S),
      frame accept (lit "data:ping" ++ [t]) st = ([], accept (lit "ping") st)
      ∧ frame accept (lit "data:" ++ [t]) st = ([], st)
      ∧ frame accept [t] st = ([], st)) [LF; CR]
  ∧ framed [blit "data:ping" ++ [x0a]] = [lit "ping"]
  ∧ framed [blit "data:" ++ [x0a]] = []
  ∧ framed [[x0a]] = [].
Proof.
  split_and!; try reflexivity.
  repeat constructor; reflexivity.
Qed.




Lemma decode_ascii (raw : list byte) :
  forallb is_ascii raw = true → decode raw = map Byte.to_N raw.
Proof.
  unfold decode. induction raw as [|b raw IH]; [done|].
  cbn [forallb map decode_utf8]. intros [Hb Hraw]%andb_true_iff.
  unfold is_ascii in Hb. by rewrite Hb, IH.
Qed.

(** On ASCII input no chunk boundary can fall inside a character. *)
Lemma decode_ascii_concat (chunks : list (list byte)) :
  forallb (forallb is_ascii) chunks = true →
  concat (map decode chunks) = decode (concat chunks).
Proof.
  intros Hall. rewrite (decode_ascii (concat chunks)).
  - rewrite concat_map. f_equal.
    induction chunks as [|raw rest IH]; [done|]. simpl in *.
    apply andb_true_iff in Hall as [Hraw Hrest].
    by rewrite decode_ascii, IH.
  - induction chunks as [|raw rest IH]; [done|]. simpl in *.
    apply andb_true_iff in Hall as [Hraw Hrest].
    by rewrite forallb_app, Hraw, IH.
Qed.




End FramerTheorems.

(** ** The agent queue: lemmas and theorems *)

Section RelayTheorems.


Lemma full_spec (q : Queue) :
  full q = true ↔ (0 < maxsize q ∧ maxsize q ≤ qsize q)%Z.
Proof.
  unfold full. destruct (Z.leb_spec (maxsize q) 0).
  - split; [done|lia].
  - rewrite Z.leb_le. lia.
Qed.


Lemma pushed_maxsize (line : str) (q : Queue) :
  maxsize (pushed line q) = maxsize q.
Proof.
  autounfold with pyqueue.
  destruct (full q) eqn:Hfull; [destruct (items q) as [|x rest]|];
    simpl; rewrite ?Hfull; simpl; try done.
  destruct (full (mkQueue _ _)); reflexivity.
Qed.

Lemma pushed_all_maxsize (lines : list str) (q : Queue) :
  maxsize (pushed_all lines q) = maxsize q.
Proof.
  revert q. induction lines as [|l lines IH]; intros q; [done|].
  simpl. by rewrite IH, pushed_maxsize.
Qed.

(** A push on a queue that is not full appends. *)
Lemma pushed_not_full (line : str) (q : Queue) :
  full q = false → items (pushed line q) = items q ++ [line].
Proof.
  intros Hfull.
  autounfold with pyqueue. rewrite Hfull. simpl. by rewrite Hfull.
Qed.

(** A push on a queue that is exactly full drops the oldest item, then
    appends. *)
Lemma pushed_full (line : str) (q : Queue) :
  (0 < maxsize q)%Z → qsize q = maxsize q →
  ∃ oldest rest, items q = oldest :: rest
                 ∧ items (pushed line q) = rest ++ [line].
Proof.
  intros Hpos Hsize.
  assert (full q = true) as Hfull by (apply full_spec; lia).
  autounfold with pyqueue. rewrite Hfull.
  unfold qsize in Hsize. destruct (items q) as [|x rest] eqn:Hitems.
  { simpl in Hsize. lia. }
  exists x, rest. split; [done|]. simpl.
  assert (full (mkQueue (maxsize q) rest) = false) as ->; [|done].
  unfold full, qsize. simpl in *. destruct (Z.leb_spec (maxsize q) 0); [done|].
  apply Z.leb_gt. lia.
Qed.

Lemma pushed_items (n : nat) (line : str) (q : Queue) :
  maxsize q = Z.of_nat n → 0 < n → length (items q) ≤ n →
  items (pushed line q) = lastn n (items q ++ [line]).
Proof.
  intros Hmax Hpos Hlen. unfold lastn. rewrite length_app. simpl.
  destruct (decide (length (items q) = n)) as [Heq|Hne].
  - destruct (pushed_full line q) as (x & rest & Hitems & ->).
    { lia. } { unfold qsize. lia. }
    rewrite Hitems in *. simpl in *.
    by replace (S (length rest + 1) - n) with 1 by lia.
  - rewrite pushed_not_full.
    + by replace (length (items q) + 1 - n) with 0 by lia.
    + destruct (full q) eqn:Hf; [|done].
      apply full_spec in Hf. unfold qsize in Hf. lia.
Qed.

Lemma lastn_length {A} n (l : list A) : length (lastn n l) ≤ n.
Proof. unfold lastn. rewrite length_drop. lia. Qed.


(** The loop of [drain] takes everything, given one round per item. *)
Lemma drain_rest_all fuel (lines : list str) (q : Queue) :
  length (items q) ≤ fuel →
  drain_rest fuel lines q = (inr (lines ++ items q), mkQueue (maxsize q) []).
Proof.
  revert lines q. induction fuel as [|fuel IH]; intros lines [m its] Hlen.
  - destruct its; [|simpl in Hlen; lia]. simpl. by rewrite app_nil_r.
  - destruct its as [|x its]; simpl.
    + by rewrite app_nil_r.
    + rewrite IH by (simpl in *; lia). simpl. by rewrite <-app_assoc.
Qed.

Lemma drain_nonempty w env (q : Queue) :
  items q ≠ [] →
  drain w env q = (inr (items q), mkQueue (maxsize q) []).
Proof.
  intros Hne. unfold drain, mbind, M_bind, reading, mret, M_ret.
  assert (empty q = false) as -> by (unfold empty; by case_bool_decide).
  simpl. by rewrite drain_rest_all.
Qed.

Lemma drain_empty_wait w env (q : Queue) :
  items q = [] → gt0 w = true →
  drain w env q
  = (inr (items (pushed_all (arrivals env) q)), mkQueue (maxsize q) []).
Proof.
  intros Hnil Hw. unfold drain, mbind, M_bind, reading, mret, M_ret.
  assert (empty q = true) as -> by (unfold empty; by case_bool_decide).
  rewrite Hw. simpl. unfold try_except, wait_for_get, get_nowait.
  pose proof (pushed_all_maxsize (arrivals env) q) as Hmax.
  destruct (pushed_all (arrivals env) q) as [m its]. simpl in *. subst m.
  destruct (timeout_first env); simpl.
  - by rewrite drain_rest_all.
  - unfold empty. simpl. destruct its as [|x its]; simpl.
    + done.
    + by rewrite drain_rest_all.
Qed.

Lemma drain_empty_nowait w env (q : Queue) :
  items q = [] → gt0 w = false → drain w env q = (inr [], q).
Proof.
  intros Hnil Hw. unfold drain, mbind, M_bind, reading, mret, M_ret.
  rewrite Hw, andb_false_r. by rewrite Hnil.
Qed.

(** [drain] always returns normally. *)
Lemma drain_returns w env (q : Queue) :
  ∃ lines q', drain w env q = (inr lines, q').
Proof.
  destruct (items q) as [|x its] eqn:Hitems.
  - destruct (gt0 w) eqn:Hw.
    + eexists _, _. by apply drain_empty_wait.
    + eexists _, _. by apply drain_empty_nowait.
  - eexists _, _. apply drain_nonempty. by rewrite Hitems.
Qed.




(** C2. For every buffer, every [wait_seconds] and everything that can
    happen during the wait: on a non-empty buffer [drain] returns all
    the buffered events oldest first and leaves the buffer empty; on
    an empty buffer with [wait_seconds > 0] it waits and returns
    everything that has accumulated by then (one event, several, or
    none when the wait timed out); on an empty buffer with
    [wait_seconds] not above 0, as in [drain(0)], it returns the empty
    list without waiting, whatever would have arrived; and it always
    returns normally, never with an exception. *)
Theorem drain_contract (q : Queue) (wait_seconds : pyfloat) (env : Waited) :
  (items q ≠ [] →
     drain wait_seconds env q = (inr (items q), mkQueue (maxsize q) []))
  ∧ (items q = [] → gt0 wait_seconds = true →
     drain wait_seconds env q
     = (inr (items (pushed_all (arrivals env) q)), mkQueue (maxsize q) [])
     ∧ (∀ line, arrivals env = [line] →
          (drain wait_seconds env q).1 = inr [line])
     ∧ (arrivals env = [] → drain wait_seconds env q = (inr [], q)))
  ∧ (items q = [] → gt0 wait_seconds = false →
     drain wait_seconds env q = (inr [], q))
  ∧ (items q = [] → drain (Finite 0) env q = (inr [], q))
  ∧ (∃ lines q', drain wait_seconds env q = (inr lines, q')).
Proof.
  split_and!.
  - apply drain_nonempty.
  - intros Hnil Hw. split_and!.
    + by apply drain_empty_wait.
    + intros line Harr. rewrite drain_empty_wait, Harr by done. simpl.
      rewrite pushed_not_full; [by rewrite Hnil|].
      destruct (full q) eqn:Hf; [|done]. apply full_spec in Hf.
      unfold qsize in Hf. rewrite Hnil in Hf. simpl in Hf. lia.
    + intros Harr. rewrite drain_empty_wait, Harr by done. simpl.
      rewrite Hnil. destruct q. simpl in *. by subst.
  - apply drain_empty_nowait.
  - intros Hnil. by apply drain_empty_nowait.
  - apply drain_returns.
Qed.

End RelayTheorems.

(** ** The listener registry: lemmas and theorem *)

Section ListenerTheorems.

Lemma offered_unbounded (line : str) (obj : Queue) :
  maxsize obj = 0%Z → offered line obj = mkQueue 0 (items obj ++ [line]).
Proof.
  intros Hmax. unfold offered, try_except, put_nowait, full.
  rewrite Hmax. done.
Qed.

Lemma offer_all_lookup (line : str) (l : list positive)
    (qs : gmap positive Queue) (q : positive) :
  NoDup l →
  foldr (offer line) qs l !! q
  = if bool_decide (q ∈ l) then offered line <$> qs !! q else qs !! q.
Proof.
  induction l as [|h l IH]; intros Hnd.
  - by rewrite bool_decide_eq_false_2 by set_solver.
  - apply NoDup_cons in Hnd as [Hh Hnd]. specialize (IH Hnd).
    cbn [foldr]. unfold offer at 1.
    destruct (decide (h = q)) as [->|Hne].
    + rewrite bool_decide_eq_true_2 by set_solver.
      rewrite bool_decide_eq_false_2 in IH by done.
      rewrite IH. destruct (qs !! q) as [obj|] eqn:Hq; simpl.
      * by rewrite lookup_insert_eq.
      * by rewrite IH.
    + assert (bool_decide (q ∈ h :: l) = bool_decide (q ∈ l)) as ->.
      { apply bool_decide_ext. rewrite elem_of_cons. naive_solver. }
      destruct (foldr (offer line) qs l !! h); [|done].
      by rewrite lookup_insert_ne.
Qed.

Lemma broadcast_lookup (line : str) (w : World) (q : positive) :
  queues (broadcast line w) !! q
  = if bool_decide (q ∈ ui_queues (self w))
    then offered line <$> queues w !! q else queues w !! q.
Proof.
  unfold broadcast. simpl. rewrite offer_all_lookup by apply NoDup_elements.
  apply (f_equal (λ b : bool, if b then _ else _)).
  apply bool_decide_ext, elem_of_elements.
Qed.

Lemma accept_lookup (line : str) (w : World) (q : positive) :
  queues (accept line w) !! q
  = if bool_decide (q ∈ ui_queues (self w))
    then offered line <$> queues w !! q else queues w !! q.
Proof. unfold accept. by rewrite broadcast_lookup. Qed.

Lemma received_accept (line : str) (w : World) (q : positive) :
  well_formed w →
  received q (accept line w)
  = received q w ++ (if bool_decide (q ∈ ui_queues (self w)) then [line] else []).
Proof.
  intros [Hsub Hmax]. unfold received. rewrite accept_lookup.
  case_bool_decide as Hin; [|by rewrite app_nil_r].
  apply Hsub, elem_of_dom in Hin as [obj Hq]. rewrite Hq. simpl.
  by rewrite (offered_unbounded _ _ (Hmax _ _ Hq)).
Qed.

Lemma well_formed_apply (w : World) (e : Event) :
  well_formed w → well_formed (apply w e).
Proof.
  intros [Hsub Hmax]. destruct e as [|q|line]; cbn [apply].
  - split; simpl.
    + rewrite dom_insert_L. set_solver.
    + intros q obj. destruct (decide (fresh (dom (queues w)) = q)) as [->|Hne].
      * rewrite lookup_insert_eq. by intros [= <-].
      * rewrite lookup_insert_ne by done. apply Hmax.
  - split; simpl; [set_solver|done].
  - split.
    + intros q Hq. change (q ∈ ui_queues (self w)) in Hq.
      apply elem_of_dom. rewrite accept_lookup.
      rewrite bool_decide_eq_true_2 by done.
      apply Hsub, elem_of_dom in Hq as [obj ->]. by eexists.
    + intros q obj. rewrite accept_lookup.
      case_bool_decide; [|apply Hmax].
      destruct (queues w !! q) as [obj'|] eqn:Hq; simpl; [|done].
      rewrite (offered_unbounded _ _ (Hmax _ _ Hq)). by intros [= <-].
Qed.


Lemma well_formed_init url n dbg : well_formed (init url n dbg).
Proof. split; simpl; [set_solver|]. intros q obj. by rewrite lookup_empty. Qed.




End ListenerTheorems.

(** ** The life cycle: lemmas *)

Section LifecycleLemmas.

Lemma same_control_refl w : same_control w w.
Proof. by repeat split. Qed.

Lemma same_control_accept line w : same_control w (accept line w).
Proof. by repeat split. Qed.

Lemma same_control_trans w1 w2 w3 :
  same_control w1 w2 → same_control w2 w3 → same_control w1 w3.
Proof.
  unfold same_control. intros (?&?&?&?&?&?) (?&?&?&?&?&?).
  split_and!; congruence.
Qed.

Lemma same_control_frame (s : str) (w : World) :
  same_control w (frame accept s w).2.
Proof.
  rewrite frame_collect. simpl. generalize (frame_lines s).2. intros ls.
  revert w. induction ls as [|l ls IH]; intros w; simpl.
  - apply same_control_refl.
  - eapply same_control_trans; [apply (same_control_accept l)|apply IH].
Qed.

(** A chunk either finds the stop event set and ends the task, or
    leaves the task in the stream with the control state untouched. *)
Lemma on_chunk_cases partial raw now (w : World) :
  (stop_event (self w) = true
   ∧ on_chunk partial raw now w = (w, Finished None))
  ∨ (stop_event (self w) = false
     ∧ ∃ w' partial', on_chunk partial raw now w = (w', Streaming partial')
                      ∧ same_control w w').
Proof.
  unfold on_chunk, loop_head. destruct (stop_event (self w)) eqn:Hstop.
  - by left.
  - right. split; [done|]. case_bool_decide.
    + eexists _, _. split; [done|]. apply same_control_refl.
    + pose proof (same_control_frame (partial ++ decode raw)
                    (set_self (set_last_activity now (self w)) w)) as Hsame.
      destruct (frame accept _ _) as [p' w']. eexists _, _. split; [done|].
      simpl in Hsame. destruct Hsame as (?&?&?&?&?&?). by repeat split.
Qed.

(** The reader's chunk handler is the framer of [feed], each line of
    the chunk accepted in order. *)
Lemma on_chunk_feed partial raw now (w : World) :
  stop_event (self w) = false →
  on_chunk partial raw now w
  = (if bool_decide (raw = []) then w
     else foldl (λ w line, accept line w)
            (set_self (set_last_activity now (self w)) w)
            (feed partial raw).2,
     Streaming (feed partial raw).1).
Proof.
  intros Hstop. unfold on_chunk, feed. rewrite Hstop.
  case_bool_decide; [done|]. by rewrite frame_collect.
Qed.

(** [_run] never touches the tasks, the waiting stops, [self._task]
    or the stop event. *)
Lemma run_control p i (w : World) :
  tasks (_run p i w).1 = tasks w
  ∧ stopping (_run p i w).1 = stopping w
  ∧ task (self (_run p i w).1) = task (self w)
  ∧ stop_event (self (_run p i w).1) = stop_event (self w).
Proof.
  destruct p as [| |partial|secs|raised], i as [| |raw now| |e]; simpl;
    unfold loop_head, on_exception; simpl;
    repeat case_match; simpl; try done.
  all: destruct (on_chunk_cases partial raw now w)
         as [[_ ->]|[_ (w' & p' & -> & Hs)]]; simpl; try done.
  all: destruct Hs as (?&?&?&?&?&?); done.
Qed.

Lemma run_finished raised i (w : World) :
  _run (Finished raised) i w = (w, Finished raised).
Proof. by destruct i. Qed.

(** [_run] never sets the status ["stopped"]. *)
Lemma run_not_stopped p i (w : World) :
  status (self (_run p i w).1) = stopped → status (self w) = stopped.
Proof.
  destruct p as [| |partial|secs|raised], i as [| |raw now| |e]; simpl;
    unfold loop_head, on_exception; simpl;
    repeat case_match; simpl; try done.
  all: destruct (on_chunk_cases partial raw now w)
         as [[_ ->]|[_ (w' & p' & -> & Hs)]]; simpl; try done.
  all: destruct Hs as (?&?&?&?&<-&?); done.
Qed.

Lemma step_lookup t i (w : World) tk :
  tasks w !! t = Some tk →
  step t i w
  = set_tasks
      (<[t := mkTask (_run (pc tk)
                        (if must_cancel tk then Raise CancelledError else i)
                        w).2 false]> (tasks w))
      (_run (pc tk) (if must_cancel tk then Raise CancelledError else i) w).1.
Proof.
  intros Ht. unfold step. rewrite Ht.
  pose proof (run_control (pc tk)
                (if must_cancel tk then Raise CancelledError else i) w)
    as (Htasks & _).
  destruct (_run _ _ _) as [w' p']. simpl in *. by rewrite Htasks.
Qed.

Lemma step_none t i (w : World) : tasks w !! t = None → step t i w = w.
Proof. intros Ht. unfold step. by rewrite Ht. Qed.

Lemma cancel_lookup t (ts : list Task) i :
  cancel t ts !! i = ts !! i
  ∨ ∃ tk, ts !! i = Some tk ∧ done tk = false
          ∧ cancel t ts !! i = Some (mkTask (pc tk) true).
Proof.
  unfold cancel. destruct (ts !! t) as [tk|] eqn:Ht; [|by left].
  destruct (done tk) eqn:Hd; [by left|].
  destruct (decide (t = i)) as [->|Hne].
  - right. exists tk. split_and!; [done..|].
    apply list_lookup_insert_eq. by eapply lookup_lt_Some.
  - left. by apply list_lookup_insert_ne.
Qed.

Lemma cancel_pc t (ts : list Task) i tk' :
  cancel t ts !! i = Some tk' → ∃ tk, ts !! i = Some tk ∧ pc tk' = pc tk.
Proof.
  destruct (cancel_lookup t ts i) as [->|(tk & Hi & _ & ->)].
  - intros. by exists tk'.
  - intros [= <-]. by exists tk.
Qed.

(** What a resumption does to the status and to the task. *)
Lemma run_status p i (w : World) :
  (status (self (_run p i w).1) = status (self w)
   ∧ last_error (self (_run p i w).1) = last_error (self w)
   ∧ ((_run p i w).2 = p ∨ (∃ e, (_run p i w).2 = Finished e)
      ∨ ∃ partial partial',
          p = Streaming partial ∧ (_run p i w).2 = Streaming partial'))
  ∨ (p = Created ∧ stop_event (self w) = true
     ∧ status (self (_run p i w).1) = starting
     ∧ (_run p i w).2 = Finished None)
  ∨ (p = Created ∧ stop_event (self w) = false
     ∧ status (self (_run p i w).1) = connecting
     ∧ (_run p i w).2 = Connecting)
  ∨ (p = Connecting ∧ status (self (_run p i w).1) = connected
     ∧ last_error (self (_run p i w).1) = None
     ∧ (_run p i w).2 = Streaming [])
  ∨ ((p = Connecting ∨ ∃ partial, p = Streaming partial)
     ∧ status (self (_run p i w).1) = error
     ∧ (_run p i w).2 = Backoff 1)
  ∨ (((∃ seconds, p = Backoff seconds) ∨ ∃ partial, p = Streaming partial)
     ∧ stop_event (self w) = false
     ∧ status (self (_run p i w).1) = connecting
     ∧ (_run p i w).2 = Connecting).
Proof.
  destruct p as [| |partial|secs|raised], i as [| |raw now| |e];
    try (left; split_and!; [done..|by left]).
  all: try (left; split_and!; [done..|right; left; by eexists]).
  all: simpl; unfold loop_head, on_exception; simpl.
  all: try (destruct (stop_event (self w)) eqn:Hstop; simpl;
            [naive_solver|naive_solver]).
  all: try (case_bool_decide; [naive_solver|];
            destruct (is_Exception e); naive_solver).
  destruct (on_chunk_cases partial raw now w)
    as [[_ ->]|[_ (w' & p' & -> & Hs)]]; simpl.
  - naive_solver.
  - destruct Hs as (?&?&?&?&?&?). left. split_and!; [done..|].
    right. right. by eexists _, _.
Qed.

(** *** The invariants of a run *)

Lemma all_done_when_not_alive (w : World) :
  one_alive w → task_alive w = false →
  ∀ i ti, tasks w !! i = Some ti → done ti = true.
Proof.
  intros Hone Hna i ti Hi. destruct (done ti) eqn:Hd; [done|].
  unfold task_alive in Hna. by rewrite (Hone i ti Hi Hd), Hi, Hd in Hna.
Qed.

Lemma one_alive_exec (w : World) (o : Op) :
  one_alive w → one_alive (exec w o).
Proof.
  intros Hone. destruct o as [| |t|t i| |q]; simpl.
  - unfold ensure_running. destruct (task_alive w) eqn:Ha; [done|].
    intros i ti. simpl. intros Hi Hd.
    apply lookup_app_Some in Hi as [Hi|[Hlen Hi]].
    + by rewrite (all_done_when_not_alive w Hone Ha i ti Hi) in Hd.
    + f_equal. apply list_lookup_singleton_Some in Hi as [Hi _]. lia.
  - unfold stop_begin. simpl. destruct (task (self w)) as [t|] eqn:Ht.
    + intros i ti. simpl. intros (tk & Hi & Hpc)%cancel_pc Hd.
      rewrite Ht. rewrite <-(Hone i tk Hi); [by rewrite Ht|].
      unfold done in *. by rewrite <-Hpc.
    + intros i ti. simpl. intros Hi Hd. rewrite Ht.
      rewrite <-(Hone i ti Hi Hd). done.
  - unfold stop_end. case_bool_decide; [|done].
    repeat case_match; done.
  - destruct (tasks w !! t) as [tk|] eqn:Ht; [|by rewrite step_none].
    rewrite (step_lookup t i w tk Ht).
    pose proof (run_control (pc tk)
                  (if must_cancel tk then Raise CancelledError else i) w)
      as (_ & _ & Hself & _).
    intros j tj. simpl. rewrite Hself.
    destruct (decide (t = j)) as [<-|Hne].
    + rewrite list_lookup_insert_eq by by eapply lookup_lt_Some.
      intros [= <-] Hd. apply (Hone t tk Ht).
      destruct (done tk) eqn:Hdone; [|done].
      unfold done in Hdone. by destruct (pc tk) eqn:Hpc.
    + rewrite list_lookup_insert_ne by done. apply Hone.
  - done.
  - done.
Qed.

Lemma one_alive_init url n dbg : one_alive (init url n dbg).
Proof. intros i ti Hi. done. Qed.

Lemma one_alive_run (w : World) (ops : list Op) :
  one_alive w → one_alive (exec_all w ops).
Proof.
  revert w. induction ops as [|o ops IH]; intros w Hw; [done|].
  apply IH. by apply one_alive_exec.
Qed.

Lemma error_means_backoff_exec (w : World) (o : Op) :
  one_alive w → error_means_backoff w → error_means_backoff (exec w o).
Proof.
  intros Hone Herr. destruct o as [| |t|t i| |q]; simpl.
  - unfold ensure_running. destruct (task_alive w) eqn:Ha; [done|].
    intros Hst j tj. simpl. intros Hj.
    apply lookup_app_Some in Hj as [Hj|[_ Hj]]; [by eapply Herr|].
    apply list_lookup_singleton_Some in Hj as [_ <-]. by right; left.
  - unfold stop_begin. simpl. destruct (task (self w)) as [t|]; [|done].
    intros Hst j tj. simpl. intros (tk & Hj & Hpc)%cancel_pc.
    unfold done. rewrite Hpc. by eapply Herr.
  - unfold stop_end. case_bool_decide; [|done].
    repeat case_match; try done; intros Hst j tj Hj; by eapply Herr.
  - destruct (tasks w !! t) as [tk|] eqn:Ht; [|by rewrite step_none].
    rewrite (step_lookup t i w tk Ht).
    set (i' := if must_cancel tk then Raise CancelledError else i).
    intros Hst j tj. simpl in Hst |- *.
    destruct (decide (t = j)) as [<-|Hne].
    + rewrite list_lookup_insert_eq by by eapply lookup_lt_Some.
      intros [= <-]. unfold done. simpl.
      destruct (run_status (pc tk) i' w)
        as [(Hs & _ & Hp)|[(_&_&Hs&_)|[(_&_&Hs&_)|[(_&Hs&_)
           |[(_&_&->)|(_&_&Hs&_)]]]]];
        try congruence; [|left; by eexists].
      rewrite Hs in Hst. specialize (Herr Hst t tk Ht). unfold done in Herr.
      destruct Hp as [->|[[e ->]|(p1 & p2 & Hp1 & ->)]]; [done|by auto|].
      rewrite Hp1 in Herr. naive_solver.
    + rewrite list_lookup_insert_ne by done. intros Hj.
      destruct (decide (done tj = true)) as [|Hdj%not_true_is_false];
        [by auto|].
      pose proof (Hone j tj Hj Hdj) as Hcur.
      destruct (done tk) eqn:Hdk.
      * unfold done in Hdk. destruct (pc tk) eqn:Hpc; try done.
        rewrite run_finished in Hst. simpl in Hst.
        by apply (Herr Hst j tj Hj).
      * pose proof (Hone t tk Ht Hdk). congruence.
  - done.
  - done.
Qed.

Lemma error_means_backoff_init url n dbg :
  error_means_backoff (init url n dbg).
Proof. intros Hst. done. Qed.

(** A cancellation ends the task wherever it stands, and changes
    nothing else. *)
Lemma run_cancelled p (w : World) :
  ∃ raised, _run p (Raise CancelledError) w = (w, Finished raised).
Proof. destruct p; by eexists. Qed.

Lemma stop_means_cancel_exec (w : World) (o : Op) :
  one_alive w → stop_means_cancel w → stop_means_cancel (exec w o).
Proof.
  intros Hone Hinv. destruct o as [| |t|t i| |q]; simpl.
  - unfold ensure_running. by destruct (task_alive w).
  - unfold stop_begin. simpl. destruct (task (self w)) as [t|] eqn:Htask.
    + intros _ j tj. simpl. intros Hj.
      destruct (decide (done tj = true)) as [|Hd%not_true_is_false]; [by left|].
      right. destruct (cancel_lookup t (tasks w) j) as [Heq|(tk & _ & _ & Heq)];
        rewrite Heq in Hj; [|by simplify_eq].
      pose proof (Hone j tj Hj Hd) as Hcur. rewrite Htask in Hcur.
      assert (t = j) as -> by congruence.
      unfold cancel in Heq. rewrite Hj, Hd in Heq.
      rewrite list_lookup_insert_eq in Heq by by eapply lookup_lt_Some.
      destruct tj. by simplify_eq.
    + intros _ j tj. simpl. intros Hj. left.
      apply (all_done_when_not_alive w Hone) with j; [|done].
      unfold task_alive. by rewrite Htask.
  - unfold stop_end. case_bool_decide; [|done]. by repeat case_match.
  - destruct (tasks w !! t) as [tk|] eqn:Ht; [|by rewrite step_none].
    rewrite (step_lookup t i w tk Ht).
    set (i' := if must_cancel tk then Raise CancelledError else i).
    pose proof (run_control (pc tk) i' w) as (_ & _ & _ & Hstop).
    intros Hs j tj. simpl in Hs |- *. rewrite Hstop in Hs.
    destruct (decide (t = j)) as [<-|Hne].
    + rewrite list_lookup_insert_eq by by eapply lookup_lt_Some.
      intros [= <-]. left. unfold done. simpl.
      destruct (Hinv Hs t tk Ht) as [Hd|Hc].
      * unfold done in Hd. by destruct (pc tk).
      * subst i'. rewrite Hc.
        by destruct (run_cancelled (pc tk) w) as [r ->].
    + rewrite list_lookup_insert_ne by done. by apply Hinv.
  - done.
  - done.
Qed.

Lemma stop_means_cancel_init url n dbg : stop_means_cancel (init url n dbg).
Proof. intros Hs. done. Qed.

Lemma invariants_run (url : string) (n : Z) (dbg : bool) (ops : list Op) :
  one_alive (exec_all (init url n dbg) ops)
  ∧ error_means_backoff (exec_all (init url n dbg) ops)
  ∧ stop_means_cancel (exec_all (init url n dbg) ops).
Proof.
  assert (∀ w, one_alive w ∧ error_means_backoff w ∧ stop_means_cancel w →
               one_alive (exec_all w ops) ∧ error_means_backoff (exec_all w ops)
               ∧ stop_means_cancel (exec_all w ops)) as Hrun.
  { induction ops as [|o ops IH]; intros w (H1 & H2 & H3); [done|].
    apply IH. split_and!.
    - by apply one_alive_exec.
    - by apply error_means_backoff_exec.
    - by apply stop_means_cancel_exec. }
  apply Hrun. split_and!.
  - apply one_alive_init.
  - apply error_means_backoff_init.
  - apply stop_means_cancel_init.
Qed.

(** Only [stop] sets the status ["stopped"]. *)
Lemma stopped_only_by_stop (w : World) (o : Op) :
  status (self w) ≠ stopped → status (self (exec w o)) = stopped → is_stop o.
Proof.
  intros Hne Hst. destruct o as [| |t|t i| |q]; simpl in Hst.
  - unfold ensure_running in Hst. by destruct (task_alive w).
  - by left.
  - right. by eexists.
  - destruct (tasks w !! t) as [tk|] eqn:Ht.
    + rewrite (step_lookup t i w tk Ht) in Hst. simpl in Hst.
      by apply run_not_stopped in Hst.
    + by rewrite step_none in Hst.
  - done.
  - done.
Qed.

(** Only a step of a task that is not done changes the status
    ["stopped"]. *)
Lemma stopped_left_by_step (w : World) (o : Op) :
  status (self w) = stopped → status (self (exec w o)) ≠ stopped →
  ∃ t i tk, o = Step t i ∧ tasks w !! t = Some tk ∧ done tk = false.
Proof.
  intros Hst Hne. destruct o as [| |t|t i| |q]; simpl in Hne.
  - unfold ensure_running in Hne. by destruct (task_alive w).
  - unfold stop_begin in Hne. simpl in Hne. by destruct (task (self w)).
  - unfold stop_end in Hne. case_bool_decide; [|done].
    by repeat case_match.
  - destruct (tasks w !! t) as [tk|] eqn:Ht.
    + exists t, i, tk. split_and!; [done..|].
      destruct (done tk) eqn:Hd; [|done].
      rewrite (step_lookup t i w tk Ht) in Hne. simpl in Hne.
      unfold done in Hd. by destruct (pc tk).
    + by rewrite step_none in Hne.
  - done.
  - done.
Qed.

(** With every task done, the status ["stopped"] stays until
    [ensure_running] is called. *)
Lemma stopped_stays (w : World) (more : list Op) :
  status (self w) = stopped →
  (∀ i ti, tasks w !! i = Some ti → done ti = true) →
  EnsureRunning ∉ more →
  status (self (exec_all w more)) = stopped.
Proof.
  revert w. induction more as [|o more IH]; intros w Hst Hdone Hno; [done|].
  apply not_elem_of_cons in Hno as [Ho Hno]. cbn [exec_all foldl].
  fold (exec_all (exec w o) more). apply IH; [| |done].
  - destruct (decide (status (self (exec w o)) = stopped)) as [|Hne]; [done|].
    destruct (stopped_left_by_step w o Hst Hne) as (t & i & tk & _ & Ht & Hd).
    by rewrite (Hdone t tk Ht) in Hd.
  - destruct o as [| |t|t i| |q]; simpl; try done.
    + unfold stop_begin. simpl. destruct (task (self w)) as [t|]; [|done].
      intros j tj. simpl. intros (tk & Hj & Hpc)%cancel_pc.
      unfold done. rewrite Hpc. by apply (Hdone j tk).
    + unfold stop_end. case_bool_decide; [|done]. by repeat case_match.
    + destruct (tasks w !! t) as [tk|] eqn:Ht; [|by rewrite step_none].
      rewrite (step_lookup t i w tk Ht).
      pose proof (Hdone t tk Ht) as Hd. unfold done in Hd.
      destruct (pc tk) eqn:Hpc; try done. rewrite run_finished. simpl.
      intros j tj. destruct (decide (t = j)) as [<-|Hne].
      * rewrite list_lookup_insert_eq by by eapply lookup_lt_Some.
        by intros [= <-].
      * rewrite list_lookup_insert_ne by done. apply Hdone.
Qed.

(** How the status can leave ["error"]. *)
Lemma error_left (w : World) (o : Op) :
  error_means_backoff w → stop_means_cancel w →
  status (self w) = error → status (self (exec w o)) ≠ error →
  (status (self (exec w o)) = connecting ∧ stop_event (self w) = false
   ∧ ∃ t i, o = Step t i)
  ∨ (status (self (exec w o)) = stopped ∧ is_stop o).
Proof.
  intros Herr Hcan Hst Hne. destruct o as [| |t|t i| |q]; simpl in *.
  - unfold ensure_running in Hne. by destruct (task_alive w).
  - right. unfold stop_begin in *. simpl in *.
    destruct (task (self w)); [done|]. split; [done|by left].
  - right. unfold stop_end in *. case_bool_decide; [|done].
    split; [by repeat case_match|]. right. by eexists.
  - destruct (tasks w !! t) as [tk|] eqn:Ht; [|by rewrite step_none in Hne].
    rewrite (step_lookup t i w tk Ht) in Hne |- *. simpl in Hne |- *.
    set (i' := if must_cancel tk then Raise CancelledError else i) in *.
    pose proof (Herr Hst t tk Ht) as Hpc. unfold done in Hpc.
    destruct (run_status (pc tk) i' w)
      as [(Hs & _)|[(Hp&Hstop&Hs&_)|[(_&Hstop&Hs&_)|[(Hp&_)
         |[(_&Hs&_)|(_&Hstop&Hs&_)]]]]].
    + congruence.
    + destruct (Hcan Hstop t tk Ht) as [Hd|Hc].
      * unfold done in Hd. by rewrite Hp in Hd.
      * subst i'. rewrite Hc in Hs.
        destruct (run_cancelled (pc tk) w) as [r Hr]. rewrite Hr in Hs.
        simpl in Hs. congruence.
    + left. split_and!; [done..|]. by exists t, i.
    + rewrite Hp in Hpc. naive_solver.
    + congruence.
    + left. split_and!; [done..|]. by exists t, i.
  - done.
  - done.
Qed.

End LifecycleLemmas.

(** ** The life cycle: theorems *)

Section LifecycleTheorems.

(** C7. [ensure_running] is idempotent: with a task that is created
    and not done it changes nothing; with none it creates exactly one
    task and makes it [self._task]; and in every run of a reader at
    most one task is not done at any time (it is [self._task]). *)
Theorem ensure_running_idempotent :
  (∀ w, task_alive w = true → ensure_running w = w)
  ∧ (∀ w, ensure_running (ensure_running w) = ensure_running w)
  ∧ (∀ w, task_alive w = false →
       tasks (ensure_running w) = tasks w ++ [mkTask Created false]
       ∧ task (self (ensure_running w)) = Some (length (tasks w))
       ∧ task_alive (ensure_running w) = true)
  ∧ (∀ url max_lines dbg ops i j ti tj,
       tasks (exec_all (init url max_lines dbg) ops) !! i = Some ti →
       tasks (exec_all (init url max_lines dbg) ops) !! j = Some tj →
       done ti = false → done tj = false →
       i = j ∧ task (self (exec_all (init url max_lines dbg) ops)) = Some i).
Proof.
  assert (∀ w, task_alive w = false →
            tasks (ensure_running w) = tasks w ++ [mkTask Created false]
            ∧ task (self (ensure_running w)) = Some (length (tasks w))
            ∧ task_alive (ensure_running w) = true) as Hnew.
  { intros w Ha. unfold ensure_running. rewrite Ha. split_and!; try done.
    unfold task_alive. simpl.
    by rewrite lookup_app_r, Nat.sub_diag by done. }
  split_and!.
  - intros w Ha. unfold ensure_running. by rewrite Ha.
  - intros w. destruct (task_alive w) eqn:Ha.
    + unfold ensure_running. by rewrite !Ha.
    + destruct (Hnew w Ha) as (_ & _ & Ha').
      unfold ensure_running at 1. by rewrite Ha'.
  - done.
  - intros url n dbg ops i j ti tj Hi Hj Hdi Hdj.
    destruct (invariants_run url n dbg ops) as (Hone & _).
    pose proof (Hone i ti Hi Hdi) as Hti.
    pose proof (Hone j tj Hj Hdj) as Htj.
    split; [congruence|done].
Qed.

(** C10. [is_running] is true exactly when a task exists, is not done
    and the stop event is not set. So once [stop] has set the event,
    [is_running] is false even while the cancelled task has not
    ended, when [task_running] of the diagnostics is still true;
    [is_running] implies [task_running], and not conversely. *)
Theorem is_running_and_task_running :
  (∀ w, is_running w = true ↔
        ∃ t tk, task (self w) = Some t ∧ tasks w !! t = Some tk
                ∧ done tk = false ∧ stop_event (self w) = false)
  ∧ (∀ w, is_running (stop_begin w) = false)
  ∧ (∀ w, task_alive w = true →
       is_running (stop_begin w) = false
       ∧ d_task_running (get_diagnostics (stop_begin w)) = true)
  ∧ (∀ w, is_running w = true → d_task_running (get_diagnostics w) = true)
  ∧ (d_task_running
       (get_diagnostics (exec_all uart_reader [EnsureRunning; StopBegin])) = true
     ∧ is_running (exec_all uart_reader [EnsureRunning; StopBegin]) = false).
Proof.
  split_and!.
  - intros w. unfold is_running, task_alive. split.
    + intros [Ha Hs]%andb_true_iff.
      destruct (task (self w)) as [t|]; [|done].
      destruct (tasks w !! t) as [tk|] eqn:Ht; [|done].
      exists t, tk. split_and!; try done.
      * by apply negb_true_iff.
      * by apply negb_true_iff.
    + intros (t & tk & -> & -> & -> & ->). done.
  - intros w. unfold is_running, stop_begin. simpl.
    destruct (task (self w)); simpl; apply andb_false_r.
  - intros w Ha. unfold is_running, get_diagnostics, stop_begin. simpl.
    unfold task_alive in *.
    destruct (task (self w)) as [t|] eqn:Ht; [|done]. simpl. rewrite Ht.
    split; [by rewrite andb_false_r|].
    destruct (tasks w !! t) as [tk|] eqn:Htk; [|done].
    destruct (cancel_lookup t (tasks w) t) as [->|(tk' & Htk' & _ & ->)].
    + by rewrite Htk.
    + simpl. rewrite Htk in Htk'. by simplify_eq.
  - intros w [Ha _]%andb_true_iff. done.
  - done.
  - done.
Qed.

(** C8, as the code has it. In every run of a reader (calls of
    [ensure_running] and [stop], steps of the connector loop, listener
    calls): the status ["stopped"] is set only by a call of [stop]; it
    is left only by a step of a connector task that is not done, so
    that, once [stop] has ended with the task done, it stays until
    [ensure_running] restarts the reader. From ["error"] the status
    changes only to ["connecting"], with the stop event not set (the
    retry), or to ["stopped"], by [stop]. A task in the backoff goes on
    to ["connecting"] when the stop event is not set; with the stop
    event set, or cancelled, it ends and leaves the status as it is, and
    the call of [stop] that waits for it then sets ["stopped"]. *)
Theorem stopped_and_error_transitions (url : string) (max_lines : Z)
    (dbg : bool) (ops : list Op) :
  let w := exec_all (init url max_lines dbg) ops in
  (∀ o, status (self w) ≠ stopped → status (self (exec w o)) = stopped →
        is_stop o)
  ∧ (∀ o, status (self w) = stopped → status (self (exec w o)) ≠ stopped →
          ∃ t i tk, o = Step t i ∧ tasks w !! t = Some tk ∧ done tk = false)
  ∧ (status (self w) = stopped → task_alive w = false →
     ∀ more, EnsureRunning ∉ more → status (self (exec_all w more)) = stopped)
  ∧ (∀ o, status (self w) = error → status (self (exec w o)) ≠ error →
       (status (self (exec w o)) = connecting ∧ stop_event (self w) = false
        ∧ ∃ t i, o = Step t i)
       ∨ (status (self (exec w o)) = stopped ∧ is_stop o))
  ∧ (∀ t tk seconds, tasks w !! t = Some tk → pc tk = Backoff seconds →
       (must_cancel tk = false → stop_event (self w) = false →
          status (self (step t Go w)) = connecting
          ∧ tasks (step t Go w) !! t = Some (mkTask Connecting false))
       ∧ (must_cancel tk = false → stop_event (self w) = true →
          status (self (step t Go w)) = status (self w)
          ∧ tasks (step t Go w) !! t = Some (mkTask (Finished None) false))
       ∧ (must_cancel tk = true → ∀ i,
          status (self (step t i w)) = status (self w)
          ∧ tasks (step t i w) !! t
            = Some (mkTask (Finished (Some CancelledError)) false)))
  ∧ (∀ t tk raised, t ∈ stopping w → tasks w !! t = Some tk →
       pc tk = Finished raised →
       raised = None ∨ raised = Some CancelledError →
       status (self (stop_end t w)) = stopped).
Proof.
  intros w.
  destruct (invariants_run url max_lines dbg ops) as (Hone & Herr & Hcan).
  fold w in Hone, Herr, Hcan. split_and!.
  - apply stopped_only_by_stop.
  - apply stopped_left_by_step.
  - intros Hst Ha more Hno. apply stopped_stays; [done| |done].
    by apply all_done_when_not_alive.
  - intros o. by apply error_left.
  - intros t tk seconds Ht Hpc.
    assert (t < length (tasks w)) as Hlt by by eapply lookup_lt_Some.
    split_and!.
    + intros Hc Hs. rewrite (step_lookup t Go w tk Ht), Hc, Hpc. simpl.
      unfold loop_head. rewrite Hs. simpl.
      by rewrite list_lookup_insert_eq.
    + intros Hc Hs. rewrite (step_lookup t Go w tk Ht), Hc, Hpc. simpl.
      unfold loop_head. rewrite Hs. simpl.
      by rewrite list_lookup_insert_eq.
    + intros Hc i. rewrite (step_lookup t i w tk Ht), Hc, Hpc. simpl.
      by rewrite list_lookup_insert_eq.
  - intros t tk raised Hin Ht Hpc Hr. unfold stop_end, wait_outcome.
    rewrite bool_decide_eq_true_2 by done. rewrite Ht, Hpc.
    by destruct Hr as [-> | ->].
Qed.

(** C8 as stated fails: ["stopped"] is not terminal. After [stop] has
    run to its end on the module's reader, [ensure_running] starts a
    new task, whose first step takes the status to ["connecting"]. *)
Lemma stopped_is_left_on_restart :
  status (self (exec_all uart_reader
                  [EnsureRunning; Step 0 Go; StopBegin; Step 0 Go;
                   StopEnd 0])) = stopped
  ∧ task_alive (exec_all uart_reader
                  [EnsureRunning; Step 0 Go; StopBegin; Step 0 Go;
                   StopEnd 0]) = false
  ∧ status (self (exec_all uart_reader
                    [EnsureRunning; Step 0 Go; StopBegin; Step 0 Go;
                     StopEnd 0; EnsureRunning; Step 1 Go])) = connecting
  ∧ connecting ≠ stopped.
Proof. by vm_compute. Qed.

(** C9, as the code has it. For a task suspended in the [try] body of
    the connector loop (in the request or in the stream): a
    cancellation, by [Task.cancel] or raised where the task waits,
    ends the task with [CancelledError] and leaves the reader as it
    is; an exception that derives from [Exception] is absorbed: the
    status becomes ["error"], its text is the last error, the task
    sleeps in the backoff without ending, the buffers are untouched,
    [drain] still returns normally, and after the sleep the loop
    retries (["connecting"]) unless the stop event is set; any other
    exception (deriving from [BaseException] only) ends the task like
    a cancellation. *)
Theorem exceptions_in_connector_loop (w : World) (t : nat) (tk : Task) :
  tasks w !! t = Some tk →
  (pc tk = Connecting ∨ ∃ partial, pc tk = Streaming partial) →
  (∀ i, must_cancel tk = true ∨ i = Raise CancelledError →
        self (step t i w) = self w
        ∧ tasks (step t i w) !! t
          = Some (mkTask (Finished (Some CancelledError)) false))
  ∧ (∀ e, must_cancel tk = false → is_Exception e = true →
       status (self (step t (Raise e) w)) = error
       ∧ last_error (self (step t (Raise e) w)) = Some (str_of_exn e)
       ∧ tasks (step t (Raise e) w) !! t = Some (mkTask (Backoff 1) false)
       ∧ agent_queue (self (step t (Raise e) w)) = agent_queue (self w)
       ∧ queues (step t (Raise e) w) = queues w
       ∧ (∀ ws env, ∃ lines q',
            drain ws env (agent_queue (self (step t (Raise e) w)))
            = (inr lines, q'))
       ∧ (stop_event (self w) = false →
          status (self (step t Go (step t (Raise e) w))) = connecting
          ∧ tasks (step t Go (step t (Raise e) w)) !! t
            = Some (mkTask Connecting false)))
  ∧ (∀ e, must_cancel tk = false → e ≠ CancelledError →
       is_Exception e = false →
       self (step t (Raise e) w) = self w
       ∧ tasks (step t (Raise e) w) !! t
         = Some (mkTask (Finished (Some e)) false)).
Proof.
  intros Ht Hpc.
  assert (t < length (tasks w)) as Hlt by by eapply lookup_lt_Some.
  assert (∀ e, _run (pc tk) (Raise e) w = on_exception e w) as Hres.
  { intros e. by destruct Hpc as [->|[partial ->]]. }
  split_and!.
  - intros i Hi. rewrite (step_lookup t i w tk Ht).
    assert ((if must_cancel tk then Raise CancelledError else i)
            = Raise CancelledError) as ->.
    { destruct Hi as [->| ->]; [done|by destruct (must_cancel tk)]. }
    rewrite Hres. unfold on_exception. simpl.
    by rewrite list_lookup_insert_eq.
  - intros e Hc He.
    assert (e ≠ CancelledError) as Hne by (by intros ->).
    assert (step t (Raise e) w
            = set_tasks (<[t := mkTask (Backoff 1) false]> (tasks w))
                (set_self (set_last_error (Some (str_of_exn e))
                             (set_status error (self w))) w)) as Hstep.
    { rewrite (step_lookup t (Raise e) w tk Ht), Hc, Hres.
      unfold on_exception. rewrite bool_decide_eq_false_2 by done.
      by rewrite He. }
    rewrite Hstep. simpl. split_and!; try done.
    + by rewrite list_lookup_insert_eq.
    + intros ws env. apply drain_returns.
    + intros Hs. erewrite step_lookup; [|by apply list_lookup_insert_eq].
      simpl. unfold loop_head. simpl. rewrite Hs. simpl.
      rewrite list_insert_insert_eq. split; [done|].
      by rewrite list_lookup_insert_eq.
  - intros e Hc Hne He. rewrite (step_lookup t (Raise e) w tk Ht), Hc, Hres.
    unfold on_exception. rewrite bool_decide_eq_false_2 by done.
    rewrite He. simpl. by rewrite list_lookup_insert_eq.
Qed.

(** Witness of [exceptions_in_connector_loop]: the module's reader,
    its task in the request, and a connection error. *)
Lemma exceptions_in_connector_loop_witness :
  status (self (step 0 (Raise (OtherError (lit "Cannot connect to host")))
                  (exec_all uart_reader [EnsureRunning; Step 0 Go]))) = error
  ∧ last_error (self (step 0 (Raise (OtherError (lit "Cannot connect to host")))
                        (exec_all uart_reader [EnsureRunning; Step 0 Go])))
    = Some (lit "Cannot connect to host").
Proof.
  destruct (exceptions_in_connector_loop
              (exec_all uart_reader [EnsureRunning; Step 0 Go]) 0
              (mkTask Connecting false) eq_refl (or_introl eq_refl))
    as (_ & H & _).
  destruct (H (OtherError (lit "Cannot connect to host")) eq_refl eq_refl)
    as (H1 & H2 & _).
  exact (conj H1 H2).
Defined.

(** C9 as stated fails for an exception that is neither a cancellation
    nor an [Exception]: [KeyboardInterrupt] raised in the request is
    not absorbed; the status does not become ["error"], nothing is
    recorded, and the task ends with it. *)
Lemma keyboard_interrupt_not_absorbed :
  KeyboardInterrupt ≠ CancelledError
  ∧ status (self (step 0 (Raise KeyboardInterrupt)
                    (exec_all uart_reader [EnsureRunning; Step 0 Go])))
    = connecting
  ∧ status (self (step 0 (Raise KeyboardInterrupt)
                    (exec_all uart_reader [EnsureRunning; Step 0 Go]))) ≠ error
  ∧ last_error (self (step 0 (Raise KeyboardInterrupt)
                        (exec_all uart_reader [EnsureRunning; Step 0 Go]))) = None
  ∧ tasks (step 0 (Raise KeyboardInterrupt)
             (exec_all uart_reader [EnsureRunning; Step 0 Go]))
    = [mkTask (Finished (Some KeyboardInterrupt)) false].
Proof. by vm_compute. Qed.

End LifecycleTheorems.

(** ** What the framer hands over *)

Section CleanLines.

Local Open Scope N_scope.

Lemma contains_false_app c (s t : str) :
  contains c (s ++ t) = false ↔ contains c s = false ∧ contains c t = false.
Proof. rewrite contains_app. apply orb_false_iff. Qed.

Lemma lstrip_suffix (s : str) : ∃ pre, s = pre ++ lstrip s.
Proof.
  induction s as [|x s [pre IH]]; [by exists []|]. simpl.
  destruct (isspace x); [|by exists []].
  exists (x :: pre). simpl. by f_equal.
Qed.

(** The stripped line is a piece of the extracted one: what is cut off
    in front is the prefix with its white space, what is cut off behind
    is made of CR and LF. *)
Lemma strip_line_infix (line : str) :
  ∃ pre post, line = pre ++ strip_line line ++ post
              ∧ rstrip [CR; LF] line = pre ++ strip_line line.
Proof.
  unfold strip_line. destruct (rstrip_prefix [CR; LF] line) as (t & Hl & _).
  destruct (startswith (rstrip [CR; LF] line) DATA_PREFIX).
  - destruct (lstrip_suffix (drop 5 (rstrip [CR; LF] line))) as [pre Hpre].
    exists (take 5 (rstrip [CR; LF] line) ++ pre), t.
    assert (rstrip [CR; LF] line
            = (take 5 (rstrip [CR; LF] line) ++ pre)
                ++ lstrip (drop 5 (rstrip [CR; LF] line))) as Hr.
    { rewrite <-app_assoc, <-Hpre. by rewrite take_drop. }
    split; [|done]. by rewrite app_assoc, <-Hr.
  - exists [], t. by split.
Qed.

Lemma last_is_Some_snoc {A} (l : list A) x :
  last l = Some x → ∃ r, l = r ++ [x].
Proof.
  intros Hl. destruct l as [|y l'] using rev_ind; [done|].
  rewrite last_snoc in Hl. simplify_eq. by eexists.
Qed.

Lemma strip_line_clean (line : str) :
  contains LF line = false → strip_line line ≠ [] →
  clean (strip_line line) = true.
Proof.
  intros Hlf Hne. destruct (strip_line_infix line) as (pre & post & Hl & Hr).
  unfold clean. rewrite bool_decide_eq_false_2 by done. simpl.
  rewrite Hl in Hlf. apply contains_false_app in Hlf as [_ Hlf].
  apply contains_false_app in Hlf as [-> _]. simpl.
  destruct (last (strip_line line)) as [c|] eqn:Hlast; [|done].
  apply last_is_Some_snoc in Hlast as [r Hs]. rewrite Hs, app_assoc in Hr.
  apply rstrip_last in Hr. by rewrite <-in_crlf, Hr.
Qed.

Lemma split_once_no_newline (s : str) :
  has_terminator s = true → contains LF (split_once s).1 = false.
Proof.
  intros Ht. destruct (contains LF s) eqn:Hlf.
  - by destruct (split_once_lf s Hlf) as (u & r & -> & _ & Hu).
  - unfold has_terminator in Ht. rewrite Hlf in Ht.
    destruct (split_once_cr s Hlf Ht) as (u & r & -> & _ & Hu).
    unfold has_terminator in Hu. by apply orb_false_iff in Hu as [? _].
Qed.

Lemma frame_lines_clean (s : str) :
  forallb clean (frame_lines s).2 = true.
Proof.
  remember (length s) as n eqn:Hn. revert s Hn.
  induction n as [n IH] using lt_wf_ind. intros s ->.
  rewrite frame_lines_unfold. destruct (has_terminator s) eqn:Ht; [|done].
  pose proof (split_once_shorter _ Ht) as Hlt.
  pose proof (split_once_no_newline _ Ht) as Hlf.
  destruct (split_once s) as [line r]. simpl in Hlt, Hlf.
  specialize (IH (length r) Hlt r eq_refl).
  destruct (frame_lines r) as [rest ls]. simpl in *.
  rewrite forallb_app, IH, andb_true_r. unfold event_of.
  case_bool_decide; [done|]. simpl. by rewrite strip_line_clean.
Qed.

Lemma feed_clean (partial : str) (raw : list byte) :
  forallb clean (feed partial raw).2 = true.
Proof. unfold feed. case_bool_decide; [done|]. apply frame_lines_clean. Qed.

(** X1. Whatever bytes arrive, in whatever chunks, and whatever text
    was pending: every line the framer accepts is not empty, holds no
    newline, and does not end in a carriage return. *)
Theorem framed_lines_clean (partial : str) (chunks : list (list byte)) :
  forallb clean (feed_all partial chunks).2 = true.
Proof.
  revert partial. induction chunks as [|raw rest IH]; intros partial; [done|].
  cbn [feed_all]. pose proof (feed_clean partial raw) as Hfeed.
  destruct (feed partial raw) as [p' ls]. specialize (IH p').
  destruct (feed_all p' rest) as [p'' ls']. simpl in *.
  by rewrite forallb_app, Hfeed, IH.
Qed.

End CleanLines.

(** ** What a run keeps true of the queues and the counters *)

Section QueueInvariants.

(** A push keeps what the queue held, less possibly the oldest line,
    plus possibly the new line. *)
Lemma pushed_cases (line : str) (q : Queue) :
  items (pushed line q) = items q ++ [line]
  ∨ items (pushed line q) = tail (items q) ++ [line]
  ∨ items (pushed line q) = tail (items q)
  ∨ items (pushed line q) = items q.
Proof.
  autounfold with pyqueue.
  destruct (full q) eqn:Hfull; [destruct (items q) as [|x rest] eqn:Hi|];
    simpl; rewrite ?Hfull; simpl; rewrite ?Hi; auto.
  destruct (full (mkQueue _ _)); simpl; auto.
Qed.

Lemma forallb_tail {A} (P : A → bool) (l : list A) :
  forallb P l = true → forallb P (tail l) = true.
Proof. destruct l; simpl; [done|]. by intros [_ ?]%andb_true_iff. Qed.

Lemma pushed_forallb (P : str → bool) (line : str) (q : Queue) :
  forallb P (items q) = true → P line = true →
  forallb P (items (pushed line q)) = true.
Proof.
  intros Hq Hl. pose proof (forallb_tail P _ Hq) as Ht.
  destruct (pushed_cases line q) as [-> | [-> | [-> | ->]]];
    rewrite ?forallb_app; simpl; by rewrite ?Hq, ?Ht, ?Hl.
Qed.

Lemma pushed_all_forallb (P : str → bool) (lines : list str) (q : Queue) :
  forallb P (items q) = true → forallb P lines = true →
  forallb P (items (pushed_all lines q)) = true.
Proof.
  revert q. induction lines as [|l lines IH]; intros q Hq Hl; [done|].
  simpl in Hl. apply andb_true_iff in Hl as [Hl Hls].
  cbn [pushed_all foldl]. apply IH; [|done]. by apply pushed_forallb.
Qed.

Lemma pushed_length_le (line : str) (q : Queue) :
  length (items (pushed line q)) ≤ S (length (items q)).
Proof.
  destruct (pushed_cases line q) as [-> | [-> | [-> | ->]]];
    rewrite ?length_app; destruct (items q); simpl; lia.
Qed.

Lemma offered_cases (line : str) (obj : Queue) :
  items (offered line obj) = items obj ++ [line]
  ∨ items (offered line obj) = items obj.
Proof.
  unfold offered, try_except, put_nowait. destruct (full obj); simpl; auto.
Qed.

(** What a resumption does to the queues: a chunk with the stop event
    not set tees its lines, in order; anything else leaves the queues,
    the counter and the registry alone. *)
Lemma run_effect p i (w : World) :
  (∃ partial raw now,
     p = Streaming partial ∧ i = Chunk raw now
     ∧ stop_event (self w) = false ∧ raw ≠ []
     ∧ _run p i w
       = (foldl (λ w line, accept line w)
            (set_self (set_last_activity now (self w)) w) (feed partial raw).2,
          Streaming (feed partial raw).1))
  ∨ (agent_queue (self (_run p i w).1) = agent_queue (self w)
     ∧ queues (_run p i w).1 = queues w
     ∧ lines_read (self (_run p i w).1) = lines_read (self w)
     ∧ ui_queues (self (_run p i w).1) = ui_queues (self w)
     ∧ ∀ partial', (_run p i w).2 = Streaming partial' →
         partial' = [] ∨ p = Streaming partial').
Proof.
  destruct p as [| |partial|secs|raised], i as [| |raw now| |e]; simpl;
    unfold loop_head, on_exception; simpl;
    try (right; repeat case_match; simpl; split_and!; try done;
         intros; simplify_eq; by auto).
  destruct (stop_event (self w)) eqn:Hstop.
  - right. unfold on_chunk, loop_head. rewrite Hstop. simpl. by split_and!.
  - destruct (decide (raw = [])) as [->|Hne].
    + right. unfold on_chunk. rewrite Hstop. simpl. split_and!; try done.
      intros ? [= <-]. by right.
    + left. exists partial, raw, now. split_and!; try done.
      rewrite on_chunk_feed by done. by rewrite bool_decide_eq_false_2.
Qed.

Lemma all_clean_frame (w w' : World) :
  agent_queue (self w') = agent_queue (self w) → queues w' = queues w →
  all_clean w → all_clean w'.
Proof. unfold all_clean. by intros -> ->. Qed.

Lemma all_clean_accept (line : str) (w : World) :
  clean line = true → all_clean w → all_clean (accept line w).
Proof.
  intros Hl [Ha Hq]. split.
  - simpl. by apply pushed_forallb.
  - intros q obj. rewrite accept_lookup. case_bool_decide; [|apply Hq].
    destruct (queues w !! q) as [obj'|] eqn:Hobj; simpl; [|done].
    intros [= <-]. specialize (Hq q obj' Hobj).
    destruct (offered_cases line obj') as [-> | ->]; [|done].
    by rewrite forallb_app, Hq; simpl; rewrite Hl.
Qed.

Lemma all_clean_accept_all (lines : list str) (w : World) :
  forallb clean lines = true → all_clean w →
  all_clean (foldl (λ w line, accept line w) w lines).
Proof.
  revert w. induction lines as [|l lines IH]; intros w Hl Hw; [done|].
  simpl in Hl. apply andb_true_iff in Hl as [Hl Hls].
  simpl. apply IH; [done|]. by apply all_clean_accept.
Qed.

Lemma counted_frame (m : Z) (w w' : World) :
  agent_queue (self w') = agent_queue (self w) →
  lines_read (self w') = lines_read (self w) →
  counted m w → counted m w'.
Proof. unfold counted. by intros -> ->. Qed.

Lemma counted_accept (m : Z) (line : str) (w : World) :
  counted m w → counted m (accept line w).
Proof.
  intros (Hmax & Hle & Hread). unfold counted. simpl.
  rewrite pushed_maxsize. split_and!; [done| |].
  - intros Hpos. specialize (Hle Hpos). unfold qsize in *.
    rewrite (pushed_items (Z.to_nat m)) by lia.
    pose proof (lastn_length (Z.to_nat m)
                  (items (agent_queue (self w)) ++ [line])). lia.
  - unfold qsize in *.
    pose proof (pushed_length_le line (agent_queue (self w))). lia.
Qed.

Lemma counted_accept_all (m : Z) (lines : list str) (w : World) :
  counted m w → counted m (foldl (λ w line, accept line w) w lines).
Proof.
  revert w. induction lines as [|l lines IH]; intros w Hw; [done|].
  simpl. apply IH. by apply counted_accept.
Qed.

Lemma well_formed_frame (w w' : World) :
  ui_queues (self w') = ui_queues (self w) → queues w' = queues w →
  well_formed w → well_formed w'.
Proof. unfold well_formed. by intros -> ->. Qed.

Lemma well_formed_accept_all (lines : list str) (w : World) :
  well_formed w → well_formed (foldl (λ w line, accept line w) w lines).
Proof.
  revert w. induction lines as [|l lines IH]; intros w Hw; [done|].
  simpl. apply IH. by apply (well_formed_apply w (Push l)).
Qed.

(** The three invariants through one operation. *)
Lemma queues_exec (m : Z) (w : World) (o : Op) :
  all_clean w ∧ counted m w ∧ well_formed w →
  all_clean (exec w o) ∧ counted m (exec w o) ∧ well_formed (exec w o).
Proof.
  intros (Hc & Hn & Hw). destruct o as [| |t|t i| |q]; simpl.
  - unfold ensure_running. destruct (task_alive w); [done|].
    split_and!; [by eapply all_clean_frame|by eapply counted_frame
                |by eapply well_formed_frame].
  - unfold stop_begin. simpl. destruct (task (self w));
      (split_and!; [by eapply all_clean_frame|by eapply counted_frame
                   |by eapply well_formed_frame]).
  - unfold stop_end. case_bool_decide; [|done].
    repeat case_match;
      (split_and!; [by eapply all_clean_frame|by eapply counted_frame
                   |by eapply well_formed_frame]).
  - destruct (tasks w !! t) as [tk|] eqn:Ht; [|by rewrite step_none].
    rewrite (step_lookup t i w tk Ht).
    set (i' := if must_cancel tk then Raise CancelledError else i).
    destruct (run_effect (pc tk) i' w)
      as [(partial & raw & now & _ & _ & _ & _ & ->)|(Ha & Hq & Hl & Hu & _)].
    + simpl. split_and!.
      * eapply all_clean_frame; [done..|].
        apply all_clean_accept_all; [apply feed_clean|].
        by eapply all_clean_frame.
      * eapply counted_frame; [done..|].
        apply counted_accept_all. by eapply counted_frame.
      * eapply well_formed_frame; [done..|].
        apply well_formed_accept_all. by eapply well_formed_frame.
    + split_and!; [by eapply all_clean_frame|by eapply counted_frame
                  |by eapply well_formed_frame].
  - split_and!.
    + destruct Hc as [Ha Hq]. split; [done|]. intros q obj. simpl.
      destruct (decide (fresh (dom (queues w)) = q)) as [->|Hne].
      * rewrite lookup_insert_eq. by intros [= <-].
      * rewrite lookup_insert_ne by done. apply Hq.
    + by eapply counted_frame.
    + by apply (well_formed_apply w Add).
  - split_and!; [by eapply all_clean_frame|by eapply counted_frame|].
    by apply (well_formed_apply w (Remove q)).
Qed.

Lemma queues_run (url : string) (m : Z) (dbg : bool) (ops : list Op) :
  all_clean (exec_all (init url m dbg) ops)
  ∧ counted m (exec_all (init url m dbg) ops)
  ∧ well_formed (exec_all (init url m dbg) ops).
Proof.
  assert (∀ w, all_clean w ∧ counted m w ∧ well_formed w →
               all_clean (exec_all w ops) ∧ counted m (exec_all w ops)
               ∧ well_formed (exec_all w ops)) as Hrun.
  { induction ops as [|o ops IH]; intros w Hw; [done|].
    apply IH. by apply queues_exec. }
  apply Hrun. split_and!.
  - split; [done|]. intros q obj. simpl. by rewrite lookup_empty.
  - unfold counted, qsize. simpl. split_and!; [done|lia|lia].
  - apply well_formed_init.
Qed.

(** What [drain] returns is made of what the queue held and of what
    arrived during the wait. *)
Lemma drain_forallb (P : str → bool) ws env (q : Queue) lines q' :
  forallb P (items q) = true → forallb P (arrivals env) = true →
  drain ws env q = (inr lines, q') → forallb P lines = true.
Proof.
  intros Hq Harr Hd. destruct (items q) as [|x its] eqn:Hitems.
  - destruct (gt0 ws) eqn:Hw.
    + rewrite drain_empty_wait in Hd by done. simplify_eq.
      apply pushed_all_forallb; [by rewrite Hitems|done].
    + rewrite drain_empty_nowait in Hd by done. by simplify_eq.
  - rewrite drain_nonempty in Hd by by rewrite Hitems.
    simplify_eq. by rewrite Hitems.
Qed.

(** X2. In every run of a reader, every line held for the agent and
    every line held for a listener is not empty, holds no newline and
    does not end in a carriage return; so every line that [drain]
    returns is such a line, when the lines that arrive during its wait
    are. *)
Theorem queues_hold_clean_lines (url : string) (max_lines : Z) (dbg : bool)
    (ops : list Op) :
  let w := exec_all (init url max_lines dbg) ops in
  forallb clean (items (agent_queue (self w))) = true
  ∧ (∀ q, forallb clean (received q w) = true)
  ∧ (∀ ws env lines q',
       forallb clean (arrivals env) = true →
       drain ws env (agent_queue (self w)) = (inr lines, q') →
       forallb clean lines = true).
Proof.
  intros w. destruct (queues_run url max_lines dbg ops) as ([Ha Hq] & _ & _).
  fold w in Ha, Hq. split_and!; [done| |].
  - intros q. unfold received. destruct (queues w !! q) eqn:Hobj; [|done].
    by eapply Hq.
  - intros ws env lines q' Harr Hd. by eapply drain_forallb.
Qed.

(** X3. In every run of a reader made with [max_lines], the
    diagnostics report an agent queue size between 0 and the number of
    lines read so far, and at most [max_lines] when [max_lines] is
    positive. *)
Theorem diagnostics_bounds (url : string) (max_lines : Z) (dbg : bool)
    (ops : list Op) :
  let d := get_diagnostics (exec_all (init url max_lines dbg) ops) in
  (0 ≤ d_agent_queue_size d)%Z
  ∧ (d_agent_queue_size d ≤ d_lines_read_total d)%Z
  ∧ (0 < max_lines → d_agent_queue_size d ≤ max_lines)%Z.
Proof.
  intros d. destruct (queues_run url max_lines dbg ops) as (_ & Hn & _).
  destruct Hn as (Hmax & Hle & Hread). subst d. simpl. split_and!.
  - unfold qsize. lia.
  - done.
  - done.
Qed.

End QueueInvariants.

(** ** One chunk, and the end of a stream *)

Section ChunkTheorems.

Lemma accept_all_effect (lines : list str) (w : World) :
  well_formed w →
  agent_queue (self (foldl (λ w line, accept line w) w lines))
  = pushed_all lines (agent_queue (self w))
  ∧ lines_read (self (foldl (λ w line, accept line w) w lines))
    = (lines_read (self w) + Z.of_nat (length lines))%Z
  ∧ last_activity (self (foldl (λ w line, accept line w) w lines))
    = last_activity (self w)
  ∧ ui_queues (self (foldl (λ w line, accept line w) w lines))
    = ui_queues (self w)
  ∧ ∀ q, received q (foldl (λ w line, accept line w) w lines)
         = received q w
           ++ (if bool_decide (q ∈ ui_queues (self w)) then lines else []).
Proof.
  revert w. induction lines as [|l lines IH]; intros w Hw.
  - simpl. split_and!; try done; [lia|]. intros q.
    case_bool_decide; by rewrite app_nil_r.
  - cbn [foldl length].
    destruct (IH (accept l w) (well_formed_apply w (Push l) Hw))
      as (Ha & Hn & Hl & Hu & Hr).
    rewrite Ha, Hn, Hl, Hu. split_and!; try done.
    + simpl. lia.
    + intros q. rewrite Hr, received_accept by done.
      change (ui_queues (self (accept l w))) with (ui_queues (self w)).
      rewrite <-app_assoc. by case_bool_decide.
Qed.

Lemma accept_all_tasks (lines : list str) (w : World) :
  tasks (foldl (λ w line, accept line w) w lines) = tasks w.
Proof. revert w. induction lines; intros; simpl; [done|]. by rewrite IHlines. Qed.

(** X4. In a run of a reader, a chunk that arrives while the stop
    event is not set is teed: the lines framed from it are pushed to
    the agent queue in order, each registered listener receives exactly
    these lines in the same order, every other queue is left as it is,
    the counter grows by their number, and the pending text is what the
    framer leaves. *)
Theorem chunk_is_teed (url : string) (max_lines : Z) (dbg : bool)
    (ops : list Op) (t : nat) (tk : Task) (partial : str)
    (raw : list byte) (now : string) :
  let w := exec_all (init url max_lines dbg) ops in
  tasks w !! t = Some tk → pc tk = Streaming partial →
  must_cancel tk = false → stop_event (self w) = false →
  agent_queue (self (step t (Chunk raw now) w))
  = pushed_all (feed partial raw).2 (agent_queue (self w))
  ∧ lines_read (self (step t (Chunk raw now) w))
    = (lines_read (self w) + Z.of_nat (length (feed partial raw).2))%Z
  ∧ (∀ q, received q (step t (Chunk raw now) w)
          = received q w
            ++ (if bool_decide (q ∈ ui_queues (self w))
                then (feed partial raw).2 else []))
  ∧ tasks (step t (Chunk raw now) w) !! t
    = Some (mkTask (Streaming (feed partial raw).1) false)
  ∧ last_activity (self (step t (Chunk raw now) w))
    = (if bool_decide (raw = []) then last_activity (self w) else now).
Proof.
  intros w Ht Hpc Hc Hstop.
  destruct (queues_run url max_lines dbg ops) as (_ & _ & Hw). fold w in Hw.
  assert (t < length (tasks w)) as Hlt by by eapply lookup_lt_Some.
  rewrite (step_lookup t _ w tk Ht), Hc, Hpc. cbn [_run].
  rewrite on_chunk_feed by done. cbn [fst snd].
  case_bool_decide as Hraw.
  - subst raw. unfold feed. simpl. split_and!; try done; [lia| |].
    + intros q. unfold received. simpl. case_bool_decide; by rewrite app_nil_r.
    + by rewrite list_lookup_insert_eq.
  - destruct (accept_all_effect (feed partial raw).2
                (set_self (set_last_activity now (self w)) w))
      as (Ha & Hn & Hl & Hu & Hr); [by eapply well_formed_frame|].
    split_and!; try done.
    simpl. by rewrite list_lookup_insert_eq.
Qed.

(** Witness of [chunk_is_teed]: the module's reader, connected, with
    one listener, receives the bytes of "hi" LF in one chunk. *)
Lemma chunk_is_teed_witness :
  items (agent_queue (self
    (exec_all uart_reader
       [EnsureRunning; Step 0 Go; Step 0 Response; AddListener;
        Step 0 (Chunk (blit "hi" ++ [x0a]) "2025-01-01T00:00:00")])))
  = [lit "hi"]
  ∧ received 1%positive
      (exec_all uart_reader
         [EnsureRunning; Step 0 Go; Step 0 Response; AddListener;
          Step 0 (Chunk (blit "hi" ++ [x0a]) "2025-01-01T00:00:00")])
    = [lit "hi"].
Proof.
  destruct (chunk_is_teed DEFAULT_UART_URL DEFAULT_BUFFER_MAX_LINES false
              [EnsureRunning; Step 0 Go; Step 0 Response; AddListener]
              0 (mkTask (Streaming []) false) [] (blit "hi" ++ [x0a])
              "2025-01-01T00:00:00" eq_refl eq_refl eq_refl eq_refl)
    as (Ha & _ & Hr & _).
  split.
  - etransitivity; [exact (f_equal items Ha)|reflexivity].
  - etransitivity; [exact (Hr 1%positive)|reflexivity].
Defined.

End ChunkTheorems.

(** ** Whole streams *)

Section StreamTheorems.

Lemma feed_all_app (partial : str) (xs ys : list (list byte)) :
  feed_all partial (xs ++ ys)
  = ((feed_all (feed_all partial xs).1 ys).1,
     (feed_all partial xs).2 ++ (feed_all (feed_all partial xs).1 ys).2).
Proof.
  revert partial. induction xs as [|raw xs IH]; intros partial.
  - simpl. by destruct (feed_all partial ys).
  - cbn [app feed_all]. destruct (feed partial raw) as [p1 l1].
    rewrite IH. destruct (feed_all p1 xs) as [p2 l2]. cbn [fst snd].
    destruct (feed_all p2 ys) as [p3 l3]. cbn [fst snd].
    by rewrite app_assoc.
Qed.

Lemma feed_no_terminator (partial : str) (raw : list byte) :
  has_terminator partial = false →
  has_terminator (feed partial raw).1 = false.
Proof.
  intros Hp. unfold feed. case_bool_decide; [done|].
  apply frame_no_terminator.
Qed.

Lemma feed_all_no_terminator (partial : str) (chunks : list (list byte)) :
  has_terminator partial = false →
  has_terminator (feed_all partial chunks).1 = false.
Proof.
  revert partial. induction chunks as [|raw rest IH]; intros partial Hp;
    [done|].
  cbn [feed_all]. pose proof (feed_no_terminator partial raw Hp) as H1.
  destruct (feed partial raw) as [p1 l1]. cbn [fst] in H1.
  specialize (IH p1 H1). by destruct (feed_all p1 rest).
Qed.

(** X5. Text after the last terminator of a connection is never given
    out: a final chunk with no newline and no carriage return in it
    adds no line to those of the chunks before it, and is only kept as
    pending text. *)
Theorem unterminated_tail_is_dropped (chunks : list (list byte))
    (tail : list byte) :
  has_terminator (decode tail) = false →
  framed (chunks ++ [tail]) = framed chunks
  ∧ (feed_all [] (chunks ++ [tail])).1
    = (feed_all [] chunks).1 ++ (if bool_decide (tail = []) then [] else decode tail).
Proof.
  intros Htail. unfold framed. rewrite feed_all_app. cbn [fst snd].
  pose proof (feed_all_no_terminator [] chunks eq_refl) as Hp.
  destruct (feed_all [] chunks) as [p ls]. cbn [fst snd] in *.
  cbn [feed_all]. unfold feed. case_bool_decide.
  - cbn. by rewrite !app_nil_r.
  - rewrite frame_lines_unfold, has_terminator_app, Hp, Htail. cbn.
    by rewrite app_nil_r.
Qed.

(** Witness of [unterminated_tail_is_dropped]: "a" LF, then "b" with no
    terminator after it. *)
Lemma unterminated_tail_is_dropped_witness :
  framed [blit "a" ++ [x0a]; blit "b"] = [lit "a"].
Proof.
  destruct (unterminated_tail_is_dropped [blit "a" ++ [x0a]] (blit "b")
              eq_refl) as [H _].
  etransitivity; [exact H|reflexivity].
Defined.

Lemma exec_all_app (w : World) (xs ys : list Op) :
  exec_all w (xs ++ ys) = exec_all (exec_all w xs) ys.
Proof. apply foldl_app. Qed.

Lemma pushed_all_app (xs ys : list str) (q : Queue) :
  pushed_all (xs ++ ys) q = pushed_all ys (pushed_all xs q).
Proof. apply foldl_app. Qed.

Lemma accept_all_self (lines : list str) (w : World) :
  agent_queue (self (foldl (λ w line, accept line w) w lines))
  = pushed_all lines (agent_queue (self w))
  ∧ lines_read (self (foldl (λ w line, accept line w) w lines))
    = (lines_read (self w) + Z.of_nat (length lines))%Z
  ∧ stop_event (self (foldl (λ w line, accept line w) w lines))
    = stop_event (self w)
  ∧ status (self (foldl (λ w line, accept line w) w lines)) = status (self w)
  ∧ last_error (self (foldl (λ w line, accept line w) w lines))
    = last_error (self w)
  ∧ tasks (foldl (λ w line, accept line w) w lines) = tasks w.
Proof.
  revert w. induction lines as [|l lines IH]; intros w.
  - simpl. split_and!; try done. lia.
  - cbn [foldl length]. destruct (IH (accept l w)) as (-> & -> & -> & -> & -> & ->).
    simpl. split_and!; try done. lia.
Qed.

Lemma chunks_run (t : nat) (chunks : list (list byte * string))
    (partial : str) (w : World) :
  streaming t partial w →
  let w' := exec_all w (map (λ c, Step t (Chunk c.1 c.2)) chunks) in
  streaming t (feed_all partial (map fst chunks)).1 w'
  ∧ agent_queue (self w')
    = pushed_all (feed_all partial (map fst chunks)).2 (agent_queue (self w))
  ∧ lines_read (self w')
    = (lines_read (self w)
       + Z.of_nat (length (feed_all partial (map fst chunks)).2))%Z
  ∧ status (self w') = status (self w)
  ∧ last_error (self w') = last_error (self w).
Proof.
  revert partial w. induction chunks as [|[raw now] rest IH];
    intros partial w [Ht Hstop]; cbn zeta.
  - simpl. split_and!; try done. lia.
  - cbn [map exec_all foldl exec fst snd feed_all].
    assert (streaming t (feed partial raw).1 (step t (Chunk raw now) w)
            ∧ agent_queue (self (step t (Chunk raw now) w))
              = pushed_all (feed partial raw).2 (agent_queue (self w))
            ∧ lines_read (self (step t (Chunk raw now) w))
              = (lines_read (self w)
                 + Z.of_nat (length (feed partial raw).2))%Z
            ∧ status (self (step t (Chunk raw now) w)) = status (self w)
            ∧ last_error (self (step t (Chunk raw now) w))
              = last_error (self w)) as (Hs & Ha & Hn & Hst & Hle).
    { rewrite (step_lookup t _ w _ Ht). cbn [must_cancel pc _run].
      rewrite on_chunk_feed by done. cbn [fst snd]. unfold streaming.
      case_bool_decide as Hraw.
      - subst raw. unfold feed. simpl. rewrite list_lookup_insert_eq
          by by eapply lookup_lt_Some.
        split_and!; try done. lia.
      - destruct (accept_all_self (feed partial raw).2
                    (set_self (set_last_activity now (self w)) w))
          as (H1 & H2 & H3 & H4 & H5 & H6).
        simpl. rewrite H1, H2, H3, H4, H5. simpl.
        rewrite list_lookup_insert_eq by by eapply lookup_lt_Some.
        by split_and!. }
    destruct (IH _ _ Hs) as (Hs' & Ha' & Hn' & Hst' & Hle').
    fold (exec_all (step t (Chunk raw now) w)
            (map (λ c, Step t (Chunk c.1 c.2)) rest)).
    destruct (feed partial raw) as [p1 l1]. cbn [fst snd] in *.
    destruct (feed_all p1 (map fst rest)) as [p2 l2]. cbn [fst snd] in *.
    rewrite Ha', Hn', Hst', Hle', Ha, Hn, Hst, Hle, pushed_all_app, length_app.
    split_and!; try done. lia.
Qed.

Lemma connection_run (t : nat) (chunks : list (list byte * string))
    (w : World) :
  tasks w !! t = Some (mkTask Connecting false) →
  stop_event (self w) = false →
  let w' := exec_all w (connection t chunks) in
  tasks w' !! t = Some (mkTask Connecting false)
  ∧ stop_event (self w') = false
  ∧ agent_queue (self w')
    = pushed_all (framed (map fst chunks)) (agent_queue (self w))
  ∧ lines_read (self w')
    = (lines_read (self w) + Z.of_nat (length (framed (map fst chunks))))%Z
  ∧ status (self w') = connecting
  ∧ last_error (self w') = None.
Proof.
  intros Ht Hstop. cbn zeta. unfold connection.
  cbn [exec_all foldl exec].
  fold (exec_all (step t Response w)
          (map (λ c, Step t (Chunk c.1 c.2)) chunks ++ [Step t EndOfStream])).
  rewrite exec_all_app.
  assert (streaming t [] (step t Response w)) as Hs.
  { rewrite (step_lookup t _ w _ Ht). cbn [must_cancel pc _run fst snd].
    split; [|done]. simpl.
    by rewrite list_lookup_insert_eq by by eapply lookup_lt_Some. }
  assert (agent_queue (self (step t Response w)) = agent_queue (self w)
          ∧ lines_read (self (step t Response w)) = lines_read (self w)
          ∧ status (self (step t Response w)) = connected
          ∧ last_error (self (step t Response w)) = None)
    as (Ha0 & Hn0 & Hst0 & Hle0).
  { by rewrite (step_lookup t _ w _ Ht). }
  destruct (chunks_run t chunks [] _ Hs) as ([Ht1 Hstop1] & Ha & Hn & Hst & Hle).
  set (w1 := exec_all (step t Response w)
               (map (λ c, Step t (Chunk c.1 c.2)) chunks)) in *.
  cbn [exec_all foldl exec].
  rewrite (step_lookup t _ w1 _ Ht1). cbn [must_cancel pc _run fst snd].
  unfold loop_head. rewrite Hstop1. simpl.
  rewrite list_lookup_insert_eq by by eapply lookup_lt_Some.
  unfold framed. rewrite Ha, Hn, Ha0, Hn0, Hle, Hle0. by split_and!.
Qed.

(** X6. Connections are framed one by one. When the task is in a
    request and nothing stops it, a sequence of connections that each
    end with the end of their stream pushes to the agent queue the
    lines of the first connection framed from an empty pending text,
    then those of the second framed again from an empty pending text,
    and so on; the counter grows by their number; the task is in a
    request again, and no error is recorded. What a connection leaves
    pending after its last terminator is not carried over to the
    next. *)
Theorem connections_framed_afresh (w : World) (t : nat)
    (conns : list (list (list byte * string))) :
  tasks w !! t = Some (mkTask Connecting false) →
  stop_event (self w) = false →
  agent_queue (self (exec_all w (concat (map (connection t) conns))))
  = pushed_all (concat (map (λ chunks, framed (map fst chunks)) conns))
      (agent_queue (self w))
  ∧ lines_read (self (exec_all w (concat (map (connection t) conns))))
    = (lines_read (self w)
       + Z.of_nat (length (concat (map (λ chunks, framed (map fst chunks))
                                     conns))))%Z
  ∧ tasks (exec_all w (concat (map (connection t) conns))) !! t
    = Some (mkTask Connecting false)
  ∧ (conns ≠ [] →
     status (self (exec_all w (concat (map (connection t) conns))))
     = connecting
     ∧ last_error (self (exec_all w (concat (map (connection t) conns))))
       = None).
Proof.
  revert w. induction conns as [|c conns IH]; intros w Ht Hstop.
  - simpl. split_and!; try done. lia.
  - cbn [map concat]. rewrite exec_all_app.
    destruct (connection_run t c w Ht Hstop) as (Ht1 & Hstop1 & Ha & Hn & Hst & Hle).
    destruct (IH _ Ht1 Hstop1) as (Ha' & Hn' & Ht' & Hs').
    rewrite Ha', Hn', Ha, Hn, pushed_all_app, length_app.
    split_and!; try done; [lia|]. intros _.
    destruct conns as [|c' conns]; [by simpl|]. by apply Hs'.
Qed.

(** Witness of [connections_framed_afresh]: "a" LF "b" and then the
    end of the stream, and in the next connection "c" LF; the lines are
    "a" and "c", the pending "b" is lost. *)
Lemma connections_framed_afresh_witness :
  items (agent_queue (self
    (exec_all (exec_all uart_reader [EnsureRunning; Step 0 Go])
       (concat (map (connection 0)
          [[(blit "a" ++ [x0a] ++ blit "b", "2025-01-01T00:00:00"%string)];
           [(blit "c" ++ [x0a], "2025-01-01T00:00:01"%string)]])))))
  = [lit "a"; lit "c"].
Proof.
  destruct (connections_framed_afresh
              (exec_all uart_reader [EnsureRunning; Step 0 Go]) 0
              [[(blit "a" ++ [x0a] ++ blit "b", "2025-01-01T00:00:00"%string)];
               [(blit "c" ++ [x0a], "2025-01-01T00:00:01"%string)]]
              eq_refl eq_refl) as (Ha & _).
  etransitivity; [exact (f_equal items Ha)|reflexivity].
Defined.

End StreamTheorems.

(** ** Failures and reconnection *)

Section RetryTheorems.

Lemma failure_run (w : World) (t : nat) (p : Pc) (e : exn) :
  tasks w !! t = Some (mkTask p false) →
  (p = Connecting ∨ ∃ partial, p = Streaming partial) →
  stop_event (self w) = false → is_Exception e = true →
  (tasks (step t (Raise e) w) !! t = Some (mkTask (Backoff 1) false)
   ∧ status (self (step t (Raise e) w)) = error
   ∧ last_error (self (step t (Raise e) w)) = Some (str_of_exn e))
  ∧ tasks (step t Go (step t (Raise e) w)) !! t
    = Some (mkTask Connecting false)
  ∧ stop_event (self (step t Go (step t (Raise e) w))) = false
  ∧ status (self (step t Go (step t (Raise e) w))) = connecting
  ∧ last_error (self (step t Go (step t (Raise e) w)))
    = Some (str_of_exn e)
  ∧ agent_queue (self (step t Go (step t (Raise e) w)))
    = agent_queue (self w)
  ∧ queues (step t Go (step t (Raise e) w)) = queues w
  ∧ lines_read (self (step t Go (step t (Raise e) w))) = lines_read (self w)
  ∧ ui_queues (self (step t Go (step t (Raise e) w))) = ui_queues (self w).
Proof.
  intros Ht Hp Hstop He.
  assert (t < length (tasks w)) as Hlt by by eapply lookup_lt_Some.
  assert (e ≠ CancelledError) as Hne by by intros ->.
  assert (step t (Raise e) w
          = set_tasks (<[t := mkTask (Backoff 1) false]> (tasks w))
              (set_self (set_last_error (Some (str_of_exn e))
                           (set_status error (self w))) w)) as Hw1.
  { rewrite (step_lookup t _ w _ Ht). cbn [must_cancel pc].
    assert (_run p (Raise e) w = on_exception e w) as ->
      by by destruct Hp as [->|[? ->]].
    unfold on_exception. by rewrite bool_decide_eq_false_2, He by done. }
  rewrite Hw1.
  set (w1 := set_tasks _ _).
  assert (tasks w1 !! t = Some (mkTask (Backoff 1) false)) as Ht1
    by by (subst w1; simpl; rewrite list_lookup_insert_eq).
  split; [by split_and!|].
  rewrite (step_lookup t _ w1 _ Ht1). cbn [must_cancel pc _run].
  unfold loop_head. replace (stop_event (self w1)) with false by done.
  simpl. rewrite list_lookup_insert_eq by by rewrite length_insert.
  by split_and!.
Qed.

(** X7. Failures are retried for ever, one second apart. When the task
    is in a request or waits for a chunk and nothing stops it, any
    sequence of exceptions of class [Exception], each followed by the
    end of the sleep, leaves the task in a new request: after each
    exception the status is ["error"], the error text is recorded and
    the task sleeps for 1 second, whatever the number of failures
    before; at the end the status is ["connecting"], [last_error] is
    the text of the last exception, and the queues, the listeners and
    the counter are as before the failures. *)
Theorem failures_are_retried (errors : list exn) (w : World) (t : nat)
    (p : Pc) :
  tasks w !! t = Some (mkTask p false) →
  (p = Connecting ∨ ∃ partial, p = Streaming partial) →
  stop_event (self w) = false →
  forallb is_Exception errors = true →
  (∀ k e, errors !! k = Some e →
     tasks (exec_all w (failures t (take k errors) ++ [Step t (Raise e)])) !! t
     = Some (mkTask (Backoff 1) false)
     ∧ status (self (exec_all w (failures t (take k errors)
                                   ++ [Step t (Raise e)]))) = error
     ∧ last_error (self (exec_all w (failures t (take k errors)
                                       ++ [Step t (Raise e)])))
       = Some (str_of_exn e))
  ∧ (errors ≠ [] →
     tasks (exec_all w (failures t errors)) !! t
     = Some (mkTask Connecting false)
     ∧ status (self (exec_all w (failures t errors))) = connecting
     ∧ last_error (self (exec_all w (failures t errors)))
       = str_of_exn <$> last errors)
  ∧ agent_queue (self (exec_all w (failures t errors)))
    = agent_queue (self w)
  ∧ queues (exec_all w (failures t errors)) = queues w
  ∧ lines_read (self (exec_all w (failures t errors))) = lines_read (self w)
  ∧ ui_queues (self (exec_all w (failures t errors))) = ui_queues (self w).
Proof.
  revert w p. induction errors as [|e errors IH]; intros w p Ht Hp Hstop Hall.
  - split_and!; try done.
  - cbn [forallb] in Hall. apply andb_true_iff in Hall as [He Hall].
    destruct (failure_run w t p e Ht Hp Hstop He)
      as (H1 & Ht2 & Hstop2 & Hst2 & Hle2 & Ha2 & Hq2 & Hn2 & Hu2).
    destruct (IH _ Connecting Ht2 (or_introl eq_refl) Hstop2 Hall)
      as (Hmid & Hend & Ha & Hq & Hn & Hu).
    assert (∀ l, exec_all w (failures t (e :: l))
                 = exec_all (step t Go (step t (Raise e) w)) (failures t l))
      as Hcons by done.
    assert (∀ l o, exec_all w (failures t (e :: l) ++ o)
                   = exec_all (step t Go (step t (Raise e) w))
                       (failures t l ++ o)) as Hcons' by done.
    rewrite !Hcons, Ha, Hq, Hn, Hu. split_and!; try done.
    + intros [|k] e' Hk.
      * simpl in Hk. injection Hk as <-. exact H1.
      * cbn [take]. rewrite Hcons'. by apply Hmid.
    + intros _. destruct errors as [|e' errors]; [by split_and!|].
      rewrite last_cons_cons. by apply Hend.
Qed.

(** Witness of [failures_are_retried]: two connection errors in a row
    on the module's reader. *)
Lemma failures_are_retried_witness :
  status (self (exec_all (exec_all uart_reader [EnsureRunning; Step 0 Go])
                  (failures 0 [OtherError (lit "refused");
                               OtherError (lit "timed out")])))
  = connecting
  ∧ last_error (self (exec_all (exec_all uart_reader [EnsureRunning; Step 0 Go])
                        (failures 0 [OtherError (lit "refused");
                                     OtherError (lit "timed out")])))
    = Some (lit "timed out").
Proof.
  destruct (failures_are_retried
              [OtherError (lit "refused"); OtherError (lit "timed out")]
              (exec_all uart_reader [EnsureRunning; Step 0 Go]) 0 Connecting
              eq_refl (or_introl eq_refl) eq_refl eq_refl)
    as (_ & H & _).
  destruct (H ltac:(done)) as (_ & H1 & H2). exact (conj H1 H2).
Defined.

End RetryTheorems.

(** ** A whole stop, and what follows it *)

Section StopTheorems.

Lemma remove_one_head (t : nat) (l : list nat) : remove_one t (t :: l) = l.
Proof. simpl. by rewrite bool_decide_eq_true_2. Qed.

Lemma run_cancel_alive (tk : Task) (w : World) :
  done tk = false →
  _run (pc tk) (Raise CancelledError) w
  = (w, Finished (Some CancelledError)).
Proof. unfold done. by destruct (pc tk). Qed.

Lemma stop_begin_alive (w : World) (t : nat) (tk : Task) :
  task (self w) = Some t → tasks w !! t = Some tk → done tk = false →
  stop_begin w
  = mkWorld (set_stop_event true (self w)) (queues w)
      (<[t := mkTask (pc tk) true]> (tasks w)) (t :: stopping w).
Proof.
  intros Htask Ht Hd. unfold stop_begin.
  cbn [self set_self task set_stop_event]. rewrite Htask. unfold cancel.
  cbn [tasks set_self]. by rewrite Ht, Hd.
Qed.

Lemma stop_run (w : World) (t : nat) (tk : Task) (i : Resume) :
  task (self w) = Some t → tasks w !! t = Some tk → done tk = false →
  stop_end t (step t i (stop_begin w))
  = mkWorld (set_status stopped (set_stop_event true (self w))) (queues w)
      (<[t := mkTask (Finished (Some CancelledError)) false]> (tasks w))
      (stopping w).
Proof.
  intros Htask Ht Hd.
  assert (t < length (tasks w)) as Hlt by by eapply lookup_lt_Some.
  rewrite (stop_begin_alive w t tk Htask Ht Hd).
  set (w0 := mkWorld _ _ _ _).
  assert (tasks w0 !! t = Some (mkTask (pc tk) true)) as Ht0
    by by (subst w0; simpl; rewrite list_lookup_insert_eq).
  rewrite (step_lookup t i w0 _ Ht0). cbn [must_cancel pc].
  rewrite run_cancel_alive by done. cbn [fst snd].
  unfold stop_end. subst w0. cbn [stopping set_tasks set_stopping].
  rewrite bool_decide_eq_true_2 by set_solver.
  unfold wait_outcome. cbn [tasks set_tasks set_stopping].
  rewrite list_lookup_insert_eq by by rewrite length_insert.
  cbn [pc]. rewrite remove_one_head. unfold set_self, set_stopping.
  cbn [self queues tasks stopping set_tasks].
  by rewrite list_insert_insert_eq.
Qed.

(** X8. A whole [stop] on a reader whose task is not done (the event
    set and the task cancelled, the task resumed once, the wait over)
    ends the task with [CancelledError], sets the status ["stopped"]
    and leaves the buffered lines, the listeners and the counter as
    they are; [is_running] and [task_running] are false. A second
    [stop] then changes nothing. [ensure_running] after the stop makes
    a new task and clears the stop event, so [is_running] is true
    again, while the status stays ["stopped"] until the new task runs
    its first step. *)
Theorem stop_then_restart (w : World) (t : nat) (tk : Task) (i : Resume) :
  task (self w) = Some t → tasks w !! t = Some tk → done tk = false →
  (status (self (exec_all w [StopBegin; Step t i; StopEnd t])) = stopped
   ∧ is_running (exec_all w [StopBegin; Step t i; StopEnd t]) = false
   ∧ d_task_running
       (get_diagnostics (exec_all w [StopBegin; Step t i; StopEnd t])) = false
   ∧ tasks (exec_all w [StopBegin; Step t i; StopEnd t]) !! t
     = Some (mkTask (Finished (Some CancelledError)) false)
   ∧ agent_queue (self (exec_all w [StopBegin; Step t i; StopEnd t]))
     = agent_queue (self w)
   ∧ queues (exec_all w [StopBegin; Step t i; StopEnd t]) = queues w
   ∧ ui_queues (self (exec_all w [StopBegin; Step t i; StopEnd t]))
     = ui_queues (self w)
   ∧ lines_read (self (exec_all w [StopBegin; Step t i; StopEnd t]))
     = lines_read (self w)
   ∧ stopping (exec_all w [StopBegin; Step t i; StopEnd t]) = stopping w)
  ∧ exec_all (exec_all w [StopBegin; Step t i; StopEnd t])
      [StopBegin; StopEnd t]
    = exec_all w [StopBegin; Step t i; StopEnd t]
  ∧ is_running (ensure_running
                  (exec_all w [StopBegin; Step t i; StopEnd t])) = true
  ∧ task (self (ensure_running
                  (exec_all w [StopBegin; Step t i; StopEnd t])))
    = Some (length (tasks w))
  ∧ status (self (ensure_running
                    (exec_all w [StopBegin; Step t i; StopEnd t]))) = stopped
  ∧ status (self (step (length (tasks w)) Go
                    (ensure_running
                       (exec_all w [StopBegin; Step t i; StopEnd t]))))
    = connecting.
Proof.
  intros Htask Ht Hd.
  assert (t < length (tasks w)) as Hlt by by eapply lookup_lt_Some.
  change (exec_all w [StopBegin; Step t i; StopEnd t])
    with (stop_end t (step t i (stop_begin w))).
  rewrite (stop_run w t tk i Htask Ht Hd).
  set (ts1 := <[t := mkTask (Finished (Some CancelledError)) false]> (tasks w)).
  assert (ts1 !! t = Some (mkTask (Finished (Some CancelledError)) false))
    as Ht1 by by (subst ts1; rewrite list_lookup_insert_eq).
  assert (length ts1 = length (tasks w)) as Hlen
    by by (subst ts1; rewrite length_insert).
  split_and!; try done.
  - unfold is_running, task_alive. simpl. by rewrite Htask, Ht1.
  - unfold get_diagnostics, task_alive. simpl. by rewrite Htask, Ht1.
  - cbn [exec_all foldl exec]. unfold stop_begin.
    cbn [self set_self task set_stop_event set_status]. rewrite Htask.
    unfold cancel. cbn [tasks set_self]. rewrite Ht1. cbn [done pc].
    unfold stop_end. cbn [stopping set_tasks set_stopping].
    rewrite bool_decide_eq_true_2 by set_solver.
    unfold wait_outcome. cbn [tasks set_tasks set_stopping set_self].
    rewrite Ht1. cbn [pc]. by rewrite remove_one_head.
  - unfold ensure_running, is_running, task_alive. simpl.
    rewrite Htask, Ht1. simpl.
    by rewrite lookup_app_r, Hlen, Nat.sub_diag by lia.
  - unfold ensure_running, task_alive. simpl. rewrite Htask, Ht1. simpl.
    by rewrite Hlen.
  - unfold ensure_running, task_alive. simpl. by rewrite Htask, Ht1.
  - unfold ensure_running, task_alive. simpl. rewrite Htask, Ht1. simpl.
    unfold step. simpl.
    by rewrite lookup_app_r, <-Hlen, Nat.sub_diag by lia.
Qed.

(** Witness of [stop_then_restart]: the module's reader, stopped while
    its task waits for a chunk. *)
Lemma stop_then_restart_witness :
  status (self (exec_all
                  (exec_all uart_reader
                     [EnsureRunning; Step 0 Go; Step 0 Response])
                  [StopBegin; Step 0 (Chunk [x0a] "2025-01-01T00:00:00");
                   StopEnd 0])) = stopped.
Proof.
  exact (proj1 (proj1
    (stop_then_restart
       (exec_all uart_reader [EnsureRunning; Step 0 Go; Step 0 Response])
       0 (mkTask (Streaming []) false)
       (Chunk [x0a] "2025-01-01T00:00:00") eq_refl eq_refl eq_refl))).
Defined.

(** X9. A call of [ensure_running] that comes while [stop] waits for
    the cancelled task does nothing, since the task is not done yet: no
    task is made and the stop event stays set. When the task has ended
    and [stop] is over, no task is running, although [ensure_running]
    was called after [stop] began. *)
Theorem ensure_running_during_stop (w : World) (t : nat) (tk : Task)
    (i : Resume) :
  task (self w) = Some t → tasks w !! t = Some tk → done tk = false →
  ensure_running (stop_begin w) = stop_begin w
  ∧ exec_all w [StopBegin; EnsureRunning; Step t i; StopEnd t]
    = exec_all w [StopBegin; Step t i; StopEnd t]
  ∧ is_running (exec_all w [StopBegin; EnsureRunning; Step t i; StopEnd t])
    = false
  ∧ d_task_running
      (get_diagnostics
         (exec_all w [StopBegin; EnsureRunning; Step t i; StopEnd t])) = false
  ∧ length (tasks (exec_all w [StopBegin; EnsureRunning; Step t i; StopEnd t]))
    = length (tasks w).
Proof.
  intros Htask Ht Hd.
  assert (t < length (tasks w)) as Hlt by by eapply lookup_lt_Some.
  assert (ensure_running (stop_begin w) = stop_begin w) as Hen.
  { rewrite (stop_begin_alive w t tk Htask Ht Hd).
    unfold ensure_running, task_alive. cbn [self task set_stop_event tasks].
    rewrite Htask, list_lookup_insert_eq by done.
    unfold done in *. cbn [pc]. by destruct (pc tk). }
  split; [done|]. cbn [exec_all foldl exec]. rewrite Hen.
  split; [done|]. rewrite (stop_run w t tk i Htask Ht Hd).
  unfold is_running, get_diagnostics, task_alive. simpl.
  rewrite Htask, list_lookup_insert_eq by done.
  by rewrite length_insert.
Qed.

(** Witness of [ensure_running_during_stop]: the module's reader in
    its first request. *)
Lemma ensure_running_during_stop_witness :
  is_running (exec_all (exec_all uart_reader [EnsureRunning; Step 0 Go])
                [StopBegin; EnsureRunning; Step 0 Response; StopEnd 0])
  = false.
Proof.
  exact (proj1 (proj2 (proj2
    (ensure_running_during_stop
       (exec_all uart_reader [EnsureRunning; Step 0 Go]) 0
       (mkTask Connecting false) Response eq_refl eq_refl eq_refl)))).
Defined.

End StopTheorems.

(** ** The listener set *)

Section ListenerSetTheorems.

Lemma accept_all_ui_queues (lines : list str) (w : World) :
  ui_queues (self (foldl (λ w line, accept line w) w lines))
  = ui_queues (self w).
Proof.
  revert w. induction lines as [|l lines IH]; intros w; [done|].
  cbn [foldl]. by rewrite IH.
Qed.

Lemma ui_queues_step t i (w : World) :
  ui_queues (self (step t i w)) = ui_queues (self w).
Proof.
  destruct (tasks w !! t) as [tk|] eqn:Ht; [|by rewrite step_none].
  rewrite (step_lookup t i w tk Ht). cbn [self set_tasks].
  destruct (run_effect (pc tk)
              (if must_cancel tk then Raise CancelledError else i) w)
    as [(partial & raw & now & _ & _ & _ & _ & ->)|(_ & _ & _ & Hu & _)];
    [|done].
  cbn [fst]. by rewrite accept_all_ui_queues.
Qed.

Lemma ui_queues_exec (w : World) (o : Op) :
  keeps_listeners o = true →
  ui_queues (self (exec w o)) = ui_queues (self w).
Proof.
  destruct o as [| |t|t i| |q]; try done; intros _; simpl.
  - unfold ensure_running. by destruct (task_alive w).
  - unfold stop_begin. simpl. by destruct (task (self w)).
  - unfold stop_end. case_bool_decide; [|done].
    by destruct (wait_outcome t w) as [[]|].
  - apply ui_queues_step.
Qed.

(** X10. The listener set of a reader. In every run, [add_listener]
    makes the number of active listeners one more, and removing the
    queue it returned gives the listener set back as it was; removing
    a registered queue makes the number one less; removing a queue
    that is not registered changes nothing, so that a second removal is
    without effect; and nothing but these two calls changes the set:
    the listeners stay registered through the steps of the connector
    loop, through [stop] and through a restart. *)
Theorem listener_set_changes (url : string) (max_lines : Z) (dbg : bool)
    (ops : list Op) :
  let w := exec_all (init url max_lines dbg) ops in
  d_active_listeners (get_diagnostics (add_listener w).2)
  = S (d_active_listeners (get_diagnostics w))
  ∧ ui_queues (self (remove_listener (add_listener w).1 (add_listener w).2))
    = ui_queues (self w)
  ∧ (∀ q, q ∈ ui_queues (self w) →
       S (d_active_listeners (get_diagnostics (remove_listener q w)))
       = d_active_listeners (get_diagnostics w))
  ∧ (∀ q, q ∉ ui_queues (self w) → remove_listener q w = w)
  ∧ (∀ q, remove_listener q (remove_listener q w) = remove_listener q w)
  ∧ (∀ more, forallb keeps_listeners more = true →
       ui_queues (self (exec_all w more)) = ui_queues (self w)).
Proof.
  intros w.
  destruct (queues_run url max_lines dbg ops) as (_ & _ & [Hsub _]).
  fold w in Hsub.
  pose proof (is_fresh (dom (queues w))) as Hfresh.
  assert (fresh (dom (queues w)) ∉ ui_queues (self w)) as Hnew by set_solver.
  assert (∀ q (w0 : World), q ∉ ui_queues (self w0) → remove_listener q w0 = w0)
    as Hnot.
  { intros q [[] ? ? ?] Hq. unfold remove_listener, set_self, set_ui_queues.
    simpl in *. do 2 f_equal. set_solver. }
  split_and!.
  - unfold get_diagnostics, add_listener. cbn.
    rewrite size_union by set_solver. by rewrite size_singleton.
  - unfold remove_listener, add_listener. cbn. set_solver.
  - intros q Hq. unfold get_diagnostics, remove_listener. cbn.
    rewrite size_difference by set_solver. rewrite size_singleton.
    assert (size (ui_queues (self w)) ≠ 0); [|lia].
    intros Hz%size_empty_inv. set_solver.
  - intros q. apply Hnot.
  - intros q. apply Hnot. unfold remove_listener. cbn. set_solver.
  - intros more. generalize w. clear.
    induction more as [|o more IH]; intros w Hall; [done|].
    cbn [forallb] in Hall. apply andb_true_iff in Hall as [Ho Hall].
    cbn [exec_all foldl]. fold (exec_all (exec w o) more).
    by rewrite IH, ui_queues_exec.
Qed.

End ListenerSetTheorems.

(** ** The tool [read_uart] *)

Section ToolTheorems.
Local Open Scope N_scope.

Lemma join_cons (sep line : str) (rest : list str) :
  join sep (line :: rest)
  = line ++ (if bool_decide (rest = []) then [] else sep ++ join sep rest).
Proof. destruct rest; simpl; [by rewrite app_nil_r|done]. Qed.


Lemma cut_at_newline (s1 s2 t1 t2 : str) :
  contains LF s1 = false → contains LF s2 = false →
  s1 ++ (if bool_decide (t1 = []) then [] else LF :: t1)
  = s2 ++ (if bool_decide (t2 = []) then [] else LF :: t2) →
  s1 = s2
  ∧ (if bool_decide (t1 = []) then [] else LF :: t1)
    = (if bool_decide (t2 = []) then [] else LF :: t2).
Proof.
  revert s2. induction s1 as [|x s1 IH]; intros [|y s2] H1 H2 Heq.
  - done.
  - exfalso. simpl in Heq. destruct (bool_decide (t1 = [])); [done|].
    injection Heq as <- _. by rewrite contains_cons in H2.
  - exfalso. simpl in Heq. destruct (bool_decide (t2 = [])); [done|].
    injection Heq as -> _. by rewrite contains_cons in H1.
  - simpl in Heq. injection Heq as -> Heq.
    rewrite contains_cons in H1, H2.
    apply orb_false_iff in H1 as [_ H1]. apply orb_false_iff in H2 as [_ H2].
    destruct (IH s2 H1 H2 Heq) as [-> ?]. done.
Qed.

Lemma clean_spec (line : str) :
  clean line = true → line ≠ [] ∧ contains LF line = false.
Proof.
  unfold clean. intros [[H1 H2]%andb_true_iff _]%andb_true_iff.
  apply negb_true_iff in H1, H2. split; [|done].
  by apply bool_decide_eq_false in H1.
Qed.

Lemma join_clean_nil (lines : list str) :
  forallb clean lines = true → join [LF] lines = [] → lines = [].
Proof.
  destruct lines as [|l rest]; [done|]. cbn [forallb].
  intros [[Hne _]%clean_spec _]%andb_true_iff.
  rewrite join_cons. by destruct l.
Qed.

Lemma join_tail (l : list str) :
  forallb clean l = true →
  (if bool_decide (l = []) then [] else [LF] ++ join [LF] l)
  = (if bool_decide (join [LF] l = []) then [] else LF :: join [LF] l).
Proof.
  intros Hl. case_bool_decide as Hn.
  - subst l. by rewrite bool_decide_eq_true_2.
  - rewrite bool_decide_eq_false_2; [done|].
    intros Hj. by apply join_clean_nil in Hj.
Qed.

Lemma join_injective (l1 l2 : list str) :
  forallb clean l1 = true → forallb clean l2 = true →
  join [LF] l1 = join [LF] l2 → l1 = l2.
Proof.
  revert l2. induction l1 as [|a l1 IH]; intros l2 H1 H2 Heq.
  - symmetry. by apply join_clean_nil.
  - destruct l2 as [|b l2]; [by apply join_clean_nil in Heq|].
    cbn [forallb] in H1, H2.
    apply andb_true_iff in H1 as [[_ Ha]%clean_spec H1].
    apply andb_true_iff in H2 as [[_ Hb]%clean_spec H2].
    rewrite !join_cons in Heq.
    rewrite !join_tail in Heq by done.
    destruct (cut_at_newline _ _ _ _ Ha Hb Heq) as [-> Hrest].
    f_equal. apply IH; [done..|].
    repeat case_bool_decide; simplify_eq; congruence.
Qed.



(** X12. What [read_uart] returns tells the lines apart: for lines as
    the framer gives them (not empty, no newline inside), two calls
    that return the same text, other than ["(uart buffer empty)"], have
    taken the same lines from the buffer. *)
Theorem read_uart_lines_recoverable (env env' : Waited) (w w' : World)
    (lines lines' : list str) (q q' : Queue) :
  drain (Finite (3 # 2)) env (agent_queue (self (ensure_running w)))
  = (inr lines, q) →
  drain (Finite (3 # 2)) env' (agent_queue (self (ensure_running w')))
  = (inr lines', q') →
  forallb clean lines = true → forallb clean lines' = true →
  (read_uart env w).1 = (read_uart env' w').1 →
  (read_uart env w).1 ≠ inr BUFFER_EMPTY →
  lines = lines'.
Proof.
  unfold read_uart. intros -> -> Hc Hc'. cbn [fst].
  intros [= Heq] Hne.
  case_bool_decide as H1; [done|]. case_bool_decide as H2.
  - by rewrite Heq in Hne.
  - by apply join_injective.
Qed.

(** Witness of [read_uart_lines_recoverable]: two readers that hold
    the lines "a" and "b". *)
Lemma read_uart_lines_recoverable_witness :
  [lit "a"; lit "b"] = [lit "a"; lit "b"].
Proof.
  exact (read_uart_lines_recoverable (mkWaited [] false) (mkWaited [] true)
    (exec_all uart_reader
       [EnsureRunning; Step 0 Go; Step 0 Response;
        Step 0 (Chunk (blit "a" ++ [x0a] ++ blit "b" ++ [x0a])
                  "2025-01-01T00:00:00")])
    (exec_all uart_reader
       [EnsureRunning; Step 0 Go; Step 0 Response;
        Step 0 (Chunk (blit "a" ++ [x0a]) "2025-01-01T00:00:00");
        Step 0 (Chunk (blit "b" ++ [x0a]) "2025-01-01T00:00:01")])
    [lit "a"; lit "b"] [lit "a"; lit "b"]
    (mkQueue 1000 []) (mkQueue 1000 [])
    eq_refl eq_refl eq_refl eq_refl eq_refl ltac:(done)).
Defined.

End ToolTheorems.

(** ** The listener endpoints *)

Section ServerTheorems.

Lemma consumed_dom q taken (wp ws : World) :
  consumed q taken wp ws → dom (queues ws) = dom (queues wp).
Proof.
  intros (_ & _ & _ & Hother & rest & Hs & Hp).
  apply set_eq. intros x. rewrite !elem_of_dom.
  destruct (decide (x = q)) as [->|Hne].
  - rewrite Hs, Hp. by split; eexists.
  - by rewrite Hother.
Qed.

Lemma consumed_accept q taken (wp ws : World) (line : str) :
  consumed q taken wp ws → consumed q taken (accept line wp) (accept line ws).
Proof.
  intros (Hself & Htasks & Hstop & Hother & rest & Hs & Hp).
  unfold consumed. split_and!.
  - unfold accept, broadcast. simpl. by rewrite Hself.
  - done.
  - done.
  - intros q' Hne. rewrite !accept_lookup, Hself, Hother by done. done.
  - rewrite !accept_lookup, Hself, Hs, Hp. case_bool_decide.
    + exists (rest ++ [line]). simpl.
      rewrite !offered_unbounded by done. simpl. by rewrite app_assoc.
    + by exists rest.
Qed.

Lemma consumed_accept_all q taken (lines : list str) (wp ws : World) :
  consumed q taken wp ws →
  consumed q taken (foldl (λ w line, accept line w) wp lines)
    (foldl (λ w line, accept line w) ws lines).
Proof.
  revert wp ws. induction lines as [|l lines IH]; intros wp ws H; [done|].
  simpl. by apply IH, consumed_accept.
Qed.

Lemma consumed_set_self q taken (wp ws : World) (r : Reader) :
  consumed q taken wp ws → consumed q taken (set_self r wp) (set_self r ws).
Proof. intros (? & ? & ? & ? & ?). by split_and!. Qed.

Lemma consumed_run q taken p i (wp ws : World) :
  consumed q taken wp ws →
  (_run p i ws).2 = (_run p i wp).2
  ∧ consumed q taken (_run p i wp).1 (_run p i ws).1.
Proof.
  intros H. pose proof H as (Hself & _).
  destruct p as [| |partial|secs|raised], i as [| |raw now| |e]; simpl;
    unfold loop_head, on_exception; simpl; rewrite ?Hself;
    try (repeat case_match; simpl; (split; [done|]);
         repeat apply consumed_set_self; done).
  unfold on_chunk, loop_head. rewrite Hself.
  destruct (stop_event (self wp)) eqn:Hstop.
  { simpl. by split. }
  case_bool_decide; [by split|].
  rewrite !frame_collect. simpl. split; [done|].
  by apply consumed_accept_all, consumed_set_self.
Qed.

Lemma consumed_exec q taken (wp ws : World) (o : Op) :
  consumed q taken wp ws → consumed q taken (exec wp o) (exec ws o).
Proof.
  intros H. pose proof (consumed_dom _ _ _ _ H) as Hdom.
  pose proof H as (Hself & Htasks & Hstop & Hother & rest & Hs & Hp).
  destruct o as [| |t|t i| |q0]; simpl.
  - unfold ensure_running, task_alive. rewrite Hself, Htasks.
    repeat case_match; try done.
    all: unfold consumed; simpl; rewrite ?Hself, ?Htasks;
      split_and!; try done; by exists rest.
  - unfold stop_begin. simpl. rewrite Hself, Htasks, Hstop.
    destruct (task (self wp));
      (unfold consumed; simpl; rewrite ?Hself; split_and!; try done;
       by exists rest).
  - unfold stop_end, wait_outcome. rewrite Hstop, Htasks.
    case_bool_decide; [|done].
    repeat case_match;
      (unfold consumed; simpl; rewrite ?Hself; split_and!; try done;
       by exists rest).
  - unfold step. rewrite Htasks. destruct (tasks wp !! t) as [tk|]; [|done].
    destruct (consumed_run q taken (pc tk)
                (if must_cancel tk then Raise CancelledError else i) wp ws H)
      as [Hpc Hc].
    destruct (_run (pc tk) _ wp) as [wp' pp] eqn:Hrp.
    destruct (_run (pc tk) _ ws) as [ws' ps] eqn:Hrs.
    simpl in Hpc, Hc. subst ps.
    destruct Hc as (Hself' & Htasks' & Hstop' & Hother' & rest' & Hs' & Hp').
    unfold consumed. simpl. rewrite Htasks'. split_and!; try done.
    by exists rest'.
  - rewrite Hdom. unfold consumed. simpl. rewrite Hself.
    pose proof (is_fresh (dom (queues wp))) as Hfresh.
    assert (fresh (dom (queues wp)) ≠ q) as Hne.
    { intros Heq. apply Hfresh. rewrite Heq. apply elem_of_dom. by eexists. }
    split_and!; try done.
    + intros q' Hq'. destruct (decide (fresh (dom (queues wp)) = q')) as [->|?].
      * by rewrite !lookup_insert_eq.
      * rewrite !lookup_insert_ne by done. by apply Hother.
    + exists rest. by rewrite !lookup_insert_ne by done.
  - unfold consumed. simpl. rewrite Hself. split_and!; try done.
    by exists rest.
Qed.

Lemma closed_stays (s : Server) (evs : list SEvent) raised :
  handler s = Closed raised → handler (serve_all s evs) = Closed raised.
Proof.
  revert s. induction evs as [|e evs IH]; intros s Hs; [done|].
  cbn [serve_all foldl]. apply IH.
  destruct e as [o|i]; simpl; [done|].
  unfold websocket_uart. rewrite Hs. by destruct i.
Qed.

Lemma serve_listening q (wp : World) (s : Server) (e : SEvent) :
  listening (handler s) = Some q →
  consumed q (sent s ++ in_flight (handler s)) wp (reader s) →
  e ≠ OnHandler (Throw TimeoutError) →
  (∃ raised, handler (serve s e) = Closed raised)
  ∨ (listening (handler (serve s e)) = Some q
     ∧ consumed q (sent (serve s e) ++ in_flight (handler (serve s e)))
         (exec_all wp (reader_ops [e])) (reader (serve s e))).
Proof.
  intros Hq Hc He. destruct e as [o|i].
  - right. simpl. split; [done|]. by apply consumed_exec.
  - cbn [reader_ops omap exec_all foldl serve]. unfold websocket_uart.
    destruct s as [w p snt]. simpl in *.
    destruct p as [|q0|q0 line|raised]; simplify_eq/=.
    + destruct i as [| | | |e]; try (right; by split).
      * unfold get_item.
        pose proof Hc as (Hself & Htasks & Hstop & Hother & rest & Hs & Hp).
        rewrite Hs. unfold get_nowait. simpl.
        destruct rest as [|x rest]; [right; by split|].
        right. simpl. split; [done|]. unfold consumed. simpl.
        split_and!; try done.
        -- intros q' Hne. rewrite lookup_insert_ne by done. by apply Hother.
        -- exists rest. rewrite lookup_insert_eq. split; [done|].
           rewrite Hp, app_nil_r. by rewrite <-app_assoc.
      * unfold on_timeout. simpl. destruct (is_running w); simpl;
          [right; by split|left; by eexists].
      * rewrite bool_decide_eq_false_2 by congruence.
        left. by eexists.
    + destruct i as [| | | |e]; try (right; by split).
      * right. simpl. split; [done|].
        rewrite app_nil_r. done.
      * rewrite bool_decide_eq_false_2 by congruence.
        left. by eexists.
Qed.

Lemma serve_all_listening q (evs : list SEvent) (wp : World) (s : Server) :
  listening (handler s) = Some q →
  consumed q (sent s ++ in_flight (handler s)) wp (reader s) →
  OnHandler (Throw TimeoutError) ∉ evs →
  is_Some (listening (handler (serve_all s evs))) →
  listening (handler (serve_all s evs)) = Some q
  ∧ consumed q (sent (serve_all s evs)
                ++ in_flight (handler (serve_all s evs)))
      (exec_all wp (reader_ops evs)) (reader (serve_all s evs)).
Proof.
  revert wp s. induction evs as [|e evs IH]; intros wp s Hq Hc Hno Hopen;
    [done|].
  apply not_elem_of_cons in Hno as [Hne Hno].
  cbn [serve_all foldl] in *. fold (serve_all (serve s e) evs) in *.
  destruct (serve_listening q wp s e Hq Hc) as [[raised Hcl]|[Hq' Hc']];
    [by intros ->| |].
  - rewrite (closed_stays _ evs _ Hcl) in Hopen. by destruct Hopen.
  - assert (exec_all wp (reader_ops (e :: evs))
            = exec_all (exec_all wp (reader_ops [e])) (reader_ops evs)) as ->.
    { unfold exec_all. rewrite <-foldl_app. f_equal.
      by destruct e. }
    by apply IH.
Qed.

(** X13. The endpoint [websocket_uart] sends every line once and in
    order. For a handler that has registered its queue and is still in
    its loop, whatever the reader and the handler have done since (no
    timeout raised by a send): the texts sent, then the line taken and
    not yet sent, then the lines still in its queue are exactly what
    the queue would hold had nothing been taken from it, that is, the
    lines accepted since the registration while the queue was
    registered; and the handler has changed nothing else of the
    reader. *)
Theorem websocket_sends_in_order (w : World) (evs : list SEvent) :
  OnHandler (Throw TimeoutError) ∉ evs →
  is_Some (listening
             (handler (serve_all (mkServer w Accepting [])
                         (OnHandler Accepted :: evs)))) →
  listening (handler (serve_all (mkServer w Accepting [])
                        (OnHandler Accepted :: evs)))
  = Some (add_listener w).1
  ∧ sent (serve_all (mkServer w Accepting []) (OnHandler Accepted :: evs))
    ++ in_flight (handler (serve_all (mkServer w Accepting [])
                             (OnHandler Accepted :: evs)))
    ++ received (add_listener w).1
         (reader (serve_all (mkServer w Accepting [])
                    (OnHandler Accepted :: evs)))
    = received (add_listener w).1
        (exec_all (add_listener w).2 (reader_ops evs))
  ∧ self (reader (serve_all (mkServer w Accepting [])
                    (OnHandler Accepted :: evs)))
    = self (exec_all (add_listener w).2 (reader_ops evs)).
Proof.
  intros Hno Hopen. cbn [serve_all foldl serve] in *.
  unfold websocket_uart in *. cbn [handler reader sent] in *.
  destruct (add_listener w) as [q w1] eqn:Hadd. cbn [fst snd].
  fold (serve_all (mkServer w1 (Waiting q) []) evs) in *.
  assert (consumed q [] w1 w1) as Hc.
  { unfold consumed. split_and!; try done. exists [].
    unfold add_listener in Hadd. injection Hadd as <- <-. simpl.
    by rewrite lookup_insert_eq. }
  destruct (serve_all_listening q evs w1 (mkServer w1 (Waiting q) [])
              eq_refl Hc Hno Hopen)
    as (Hq & Hself & _ & _ & _ & rest & Hs & Hp).
  split_and!; try done.
  unfold received. rewrite Hs, Hp. simpl. by rewrite app_assoc.
Qed.

(** Witness of [websocket_sends_in_order]: a client connects, the
    reader starts and receives "hi" LF and "yo" LF, and the handler
    takes and sends the first line. *)
Lemma websocket_sends_in_order_witness :
  sent (serve_all (mkServer uart_reader Accepting [])
          [OnHandler Accepted; OnReader EnsureRunning; OnReader (Step 0 Go);
           OnReader (Step 0 Response);
           OnReader (Step 0 (Chunk (blit "hi" ++ [x0a] ++ blit "yo" ++ [x0a])
                               "2025-01-01T00:00:00"));
           OnHandler Item; OnHandler Sent])
  ++ in_flight (handler (serve_all (mkServer uart_reader Accepting [])
          [OnHandler Accepted; OnReader EnsureRunning; OnReader (Step 0 Go);
           OnReader (Step 0 Response);
           OnReader (Step 0 (Chunk (blit "hi" ++ [x0a] ++ blit "yo" ++ [x0a])
                               "2025-01-01T00:00:00"));
           OnHandler Item; OnHandler Sent]))
  ++ received 1%positive
       (reader (serve_all (mkServer uart_reader Accepting [])
          [OnHandler Accepted; OnReader EnsureRunning; OnReader (Step 0 Go);
           OnReader (Step 0 Response);
           OnReader (Step 0 (Chunk (blit "hi" ++ [x0a] ++ blit "yo" ++ [x0a])
                               "2025-01-01T00:00:00"));
           OnHandler Item; OnHandler Sent]))
  = [lit "hi"; lit "yo"].
Proof.
  destruct (websocket_sends_in_order uart_reader
              [OnReader EnsureRunning; OnReader (Step 0 Go);
               OnReader (Step 0 Response);
               OnReader (Step 0 (Chunk (blit "hi" ++ [x0a] ++ blit "yo" ++ [x0a])
                                   "2025-01-01T00:00:00"));
               OnHandler Item; OnHandler Sent])
    as (_ & H & _).
  - intros Hin. repeat (apply elem_of_cons in Hin as [Hin|Hin]; [done|]).
    by apply elem_of_nil in Hin.
  - by eexists.
  - etransitivity; [exact H|reflexivity].
Defined.

Lemma serve_one_more (m : Z) (ui0 : gset handle) (s : Server) (e : SEvent) :
  quiet e = true →
  one_more ui0 s
  ∧ (handler s = Accepting →
     all_clean (reader s) ∧ counted m (reader s) ∧ well_formed (reader s)) →
  one_more ui0 (serve s e)
  ∧ (handler (serve s e) = Accepting →
     all_clean (reader (serve s e)) ∧ counted m (reader (serve s e))
     ∧ well_formed (reader (serve s e))).
Proof.
  intros Hq [Hone Hacc]. destruct e as [o|i].
  - simpl in Hq. split.
    + unfold one_more in *. simpl. rewrite ui_queues_exec by done. done.
    + simpl. intros Hh. by apply queues_exec, Hacc.
  - clear Hq. destruct s as [w p snt]. unfold one_more in *.
    cbn [serve]. unfold websocket_uart. simpl in *.
    destruct p as [|q|q line|raised]; simpl in *.
    + destruct i as [| | | |e]; simpl; try done.
      destruct (Hacc eq_refl) as (_ & _ & [Hsub _]).
      pose proof (is_fresh (dom (queues w))) as Hfresh.
      split; [|done]. subst ui0. split; [set_solver|done].
    + destruct Hone as [Hnot Hui].
      destruct i as [| | | |e]; simpl; try done.
      * unfold get_item. destruct (queues w !! q) as [obj|]; [|done].
        unfold get_nowait. by destruct (items obj).
      * unfold on_timeout. simpl. destruct (is_running w); simpl; [done|].
        split; [|done]. rewrite Hui. set_solver.
      * unfold on_timeout, on_raise. simpl. case_bool_decide;
          [destruct (is_running w)|]; simpl; try done;
          (split; [|done]); rewrite Hui; set_solver.
    + destruct Hone as [Hnot Hui].
      destruct i as [| | | |e]; simpl; try done.
      unfold on_timeout, on_raise. simpl. case_bool_decide;
        [destruct (is_running w)|]; simpl; try done;
        (split; [|done]); rewrite Hui; set_solver.
    + by destruct i.
Qed.

(** X14. The endpoint [websocket_uart] leaves no listener behind. In a
    run of the server in which nothing else adds or removes a listener,
    from the connection of a client on: while the handler is in its
    loop the listener set is the one before the connection and the
    handler's queue, which was not in it; before the registration, and
    once the handler is over, however it ended (the reader no longer
    running at a timeout, a disconnect, an error, a cancellation), the
    listener set is as it was before the connection. *)
Theorem websocket_leaves_no_listener (url : string) (max_lines : Z)
    (dbg : bool) (ops : list Op) (evs : list SEvent) :
  forallb quiet evs = true →
  match listening
          (handler (serve_all
                      (mkServer (exec_all (init url max_lines dbg) ops)
                         Accepting []) evs)) with
  | Some q =>
      (q ∉ ui_queues (self (exec_all (init url max_lines dbg) ops)))
      ∧ ui_queues (self (reader
                           (serve_all
                              (mkServer (exec_all (init url max_lines dbg) ops)
                                 Accepting []) evs)))
        = {[q]} ∪ ui_queues (self (exec_all (init url max_lines dbg) ops))
  | None =>
      ui_queues (self (reader
                         (serve_all
                            (mkServer (exec_all (init url max_lines dbg) ops)
                               Accepting []) evs)))
      = ui_queues (self (exec_all (init url max_lines dbg) ops))
  end.
Proof.
  intros Hall.
  set (w := exec_all (init url max_lines dbg) ops).
  assert (∀ s, one_more (ui_queues (self w)) s
               ∧ (handler s = Accepting →
                  all_clean (reader s) ∧ counted max_lines (reader s)
                  ∧ well_formed (reader s)) →
               one_more (ui_queues (self w)) (serve_all s evs)) as Hrun.
  { induction evs as [|e evs IH]; intros s Hs; [by destruct Hs|].
    cbn [forallb] in Hall. apply andb_true_iff in Hall as [He Hall].
    cbn [serve_all foldl]. apply (IH Hall).
    by apply serve_one_more. }
  apply (Hrun (mkServer w Accepting [])). split; [done|].
  intros _. apply queues_run.
Qed.

(** Witness of [websocket_leaves_no_listener]: a client connects to
    the running reader and disconnects while the handler waits. *)
Lemma websocket_leaves_no_listener_witness :
  ui_queues (self (reader
    (serve_all (mkServer (exec_all (init DEFAULT_UART_URL 1000 false)
                            [EnsureRunning; Step 0 Go])
                  Accepting [])
       [OnHandler Accepted; OnReader (Step 0 Response);
        OnHandler (Throw (OtherError (lit "disconnect")))])))
  = ui_queues (self (exec_all (init DEFAULT_UART_URL 1000 false)
                       [EnsureRunning; Step 0 Go])).
Proof.
  exact (websocket_leaves_no_listener DEFAULT_UART_URL 1000 false
           [EnsureRunning; Step 0 Go]
           [OnHandler Accepted; OnReader (Step 0 Response);
            OnHandler (Throw (OtherError (lit "disconnect")))] eq_refl).
Defined.

End ServerTheorems.

(** ** The labelled stream *)

Section StreamerTheorems.
Import Streamer.

Lemma loop_cons (event : StreamEvent) (rest : list StreamEvent) (st : State) :
  loop (event :: rest) st
  = ((on_event event st).1 ++ (loop rest (on_event event st).2).1,
     (loop rest (on_event event st).2).2).
Proof.
  cbn [loop]. destruct (on_event event st) as [ys st1]. cbn [fst snd].
  by destruct (loop rest st1).
Qed.

Lemma loop_app (xs ys : list StreamEvent) (st : State) :
  loop (xs ++ ys) st
  = ((loop xs st).1 ++ (loop ys (loop xs st).2).1,
     (loop ys (loop xs st).2).2).
Proof.
  revert st. induction xs as [|x xs IH]; intros st.
  - simpl. by destruct (loop ys st).
  - cbn [app]. rewrite !loop_cons, IH. cbn [fst snd]. by rewrite app_assoc.
Qed.

Lemma labelled_app (l : Label) (xs ys : list (Label * Content)) :
  labelled l (xs ++ ys) = labelled l xs ++ labelled l ys.
Proof. apply omap_app. Qed.

Lemma omap_cons_app {A B} (f : A → option B) (x : A) (l : list A) :
  omap f (x :: l) = omap f [x] ++ omap f l.
Proof. simpl. by destruct (f x). Qed.

Ltac one_event e :=
  destruct e as [[delta|delta|delta|]|[raw_item|raw|]|]; simpl;
  repeat case_match; simplify_eq/=; try done.

Lemma loop_final (evs : list StreamEvent) (st : State) :
  labelled final (loop evs st).1 = Text <$> collect_deltas evs.
Proof.
  revert st. induction evs as [|e evs IH]; intros st; [done|].
  rewrite loop_cons. cbn [fst]. rewrite labelled_app, IH.
  unfold collect_deltas. rewrite (omap_cons_app _ e evs), fmap_app.
  f_equal. one_event e.
Qed.

Lemma loop_reasoning (evs : list StreamEvent) (st : State) :
  labelled reasoning (loop evs st).1 = Text <$> reasoning_deltas evs.
Proof.
  revert st. induction evs as [|e evs IH]; intros st; [done|].
  rewrite loop_cons. cbn [fst]. rewrite labelled_app, IH.
  unfold reasoning_deltas. rewrite (omap_cons_app _ e evs), fmap_app.
  f_equal. one_event e.
Qed.

Lemma loop_tool_call (evs : list StreamEvent) (st : State) :
  labelled tool_call (loop evs st).1
  = (λ raw, ToolCall (tool_name raw) (tool_arguments raw)) <$> tool_calls evs.
Proof.
  revert st. induction evs as [|e evs IH]; intros st; [done|].
  rewrite loop_cons. cbn [fst]. rewrite labelled_app, IH.
  unfold tool_calls. rewrite (omap_cons_app _ e evs), fmap_app.
  f_equal. one_event e.
Qed.

Lemma loop_final_message (evs : list StreamEvent) (st : State) :
  labelled final_message (loop evs st).1 = [].
Proof.
  revert st. induction evs as [|e evs IH]; intros st; [done|].
  rewrite loop_cons. cbn [fst]. rewrite labelled_app, IH, app_nil_r.
  one_event e.
Qed.

Lemma loop_final_start (evs : list StreamEvent) (st : State) :
  labelled final_start (loop evs st).1
  = (if saw_final st then []
     else match collect_deltas evs with
          | [] => []
          | _ :: _ => [Text FINAL_OUTPUT]
          end)
  ∧ saw_final (loop evs st).2
    = saw_final st || match collect_deltas evs with
                      | [] => false
                      | _ :: _ => true
                      end.
Proof.
  revert st. induction evs as [|e evs IH]; intros st.
  - simpl. rewrite orb_false_r. by destruct (saw_final st).
  - rewrite loop_cons. cbn [fst snd]. rewrite labelled_app.
    destruct (IH (on_event e st).2) as [-> ->].
    unfold collect_deltas. rewrite (omap_cons_app _ e evs).
    fold (collect_deltas evs). destruct (collect_deltas evs);
      one_event e; rewrite ?orb_false_r, ?orb_true_r; try done;
      by destruct (saw_final st).
Qed.

Lemma loop_reasoning_start (evs : list StreamEvent) (st : State) :
  labelled reasoning_start (loop evs st).1
  = (if saw_reasoning st then []
     else match reasoning_deltas evs with
          | [] => []
          | _ :: _ => [Text REASONING_STEP]
          end)
  ∧ saw_reasoning (loop evs st).2
    = saw_reasoning st || match reasoning_deltas evs with
                          | [] => false
                          | _ :: _ => true
                          end.
Proof.
  revert st. induction evs as [|e evs IH]; intros st.
  - simpl. rewrite orb_false_r. by destruct (saw_reasoning st).
  - rewrite loop_cons. cbn [fst snd]. rewrite labelled_app.
    destruct (IH (on_event e st).2) as [-> ->].
    unfold reasoning_deltas. rewrite (omap_cons_app _ e evs).
    fold (reasoning_deltas evs). destruct (reasoning_deltas evs);
      one_event e; rewrite ?orb_false_r, ?orb_true_r; try done;
      by destruct (saw_reasoning st).
Qed.

Lemma loop_last_message (evs : list StreamEvent) (st : State) :
  last_message_output_text (loop evs st).2
  = match last (message_texts evs) with
    | Some t => Some t
    | None => last_message_output_text st
    end.
Proof.
  revert st. induction evs as [|e evs IH]; intros st; [done|].
  rewrite loop_cons. cbn [snd]. rewrite IH.
  unfold message_texts. rewrite (omap_cons_app _ e evs).
  fold (message_texts evs). rewrite last_app.
  destruct (last (message_texts evs)); [done|].
  one_event e.
Qed.

Lemma labelled_lookup (l : Label) (ys : list (Label * Content)) i c :
  ys !! i = Some (l, c) → c ∈ labelled l ys.
Proof.
  intros Hi. apply list_elem_of_omap. exists (l, c). split.
  - by eapply list_elem_of_lookup_2.
  - simpl. by rewrite bool_decide_eq_true_2.
Qed.

Lemma no_final_start_after (evs : list StreamEvent) (st : State) i c :
  saw_final st = true → (loop evs st).1 !! i = Some (final_start, c) → False.
Proof.
  intros Hs Hi%labelled_lookup.
  destruct (loop_final_start evs st) as [Hl _]. rewrite Hs in Hl.
  rewrite Hl in Hi. by apply elem_of_nil in Hi.
Qed.

Lemma no_reasoning_start_after (evs : list StreamEvent) (st : State) i c :
  saw_reasoning st = true →
  (loop evs st).1 !! i = Some (reasoning_start, c) → False.
Proof.
  intros Hs Hi%labelled_lookup.
  destruct (loop_reasoning_start evs st) as [Hl _]. rewrite Hs in Hl.
  rewrite Hl in Hi. by apply elem_of_nil in Hi.
Qed.

Lemma final_start_adjacent (evs : list StreamEvent) (st : State) i c :
  (loop evs st).1 !! i = Some (final_start, c) →
  c = Text FINAL_OUTPUT
  ∧ labelled final (take i (loop evs st).1) = []
  ∧ ∃ delta, (loop evs st).1 !! S i = Some (final, Text delta).
Proof.
  revert st i. induction evs as [|e evs IH]; intros st i; [done|].
  rewrite loop_cons. cbn [fst].
  pose proof (no_final_start_after evs (on_event e st).2) as Hno.
  destruct e as [[delta|delta|delta|]|[raw_item|raw|]|]; simpl in *;
    repeat case_match; simpl in *; try apply IH.
  all: destruct i as [|i]; simpl; try done.
  all: try (intros Hi; by apply IH in Hi).
  all: try (intros Hi; exfalso; by eapply Hno).
  all: try (intros [= <-]; split_and!; try done; by eexists).
  all: destruct i as [|i]; simpl; try done.
  all: try (intros Hi; by apply IH in Hi).
  all: try (intros Hi; exfalso; by eapply Hno).
Qed.

Lemma reasoning_start_adjacent (evs : list StreamEvent) (st : State) i c :
  (loop evs st).1 !! i = Some (reasoning_start, c) →
  c = Text REASONING_STEP
  ∧ labelled reasoning (take i (loop evs st).1) = []
  ∧ ∃ delta, (loop evs st).1 !! S i = Some (reasoning, Text delta).
Proof.
  revert st i. induction evs as [|e evs IH]; intros st i; [done|].
  rewrite loop_cons. cbn [fst].
  pose proof (no_reasoning_start_after evs (on_event e st).2) as Hno.
  destruct e as [[delta|delta|delta|]|[raw_item|raw|]|]; simpl in *;
    repeat case_match; simpl in *; try apply IH.
  all: destruct i as [|i]; simpl; try done.
  all: try (intros Hi; by apply IH in Hi).
  all: try (intros Hi; exfalso; by eapply Hno).
  all: try (intros [= <-]; split_and!; try done; by eexists).
  all: destruct i as [|i]; simpl; try done.
  all: try (intros Hi; by apply IH in Hi).
  all: try (intros Hi; exfalso; by eapply Hno).
Qed.

(** The generator yields what the loop yields and then, if the stream
    has not failed, at most one final message. *)
Lemma iter_labeled_deltas_unfold (streamed : Streamed) :
  ∃ tail,
    iter_labeled_deltas streamed
    = ((loop (events streamed) initial).1 ++ tail, failure streamed)
    ∧ tail = match failure streamed with
             | Some _ => []
             | None => after_loop (final_output streamed)
                         (loop (events streamed) initial).2
             end
    ∧ (tail = [] ∨ ∃ t, t ≠ [] ∧ tail = [(final_message, Text t)]).
Proof.
  unfold iter_labeled_deltas.
  destruct (loop (events streamed) initial) as [ys st]. cbn [fst snd].
  destruct (failure streamed) as [e|].
  - exists []. rewrite app_nil_r. split_and!; auto.
  - eexists. split_and!; [done..|]. unfold after_loop.
    repeat case_match; simplify_eq/=;
      first [by left|right; eexists; split; [|reflexivity]; done].
Qed.

Lemma labelled_tail (l : Label) (ys tail : list (Label * Content)) :
  l ≠ final_message →
  (tail = [] ∨ ∃ t, t ≠ [] ∧ tail = [(final_message, Text t)]) →
  labelled l (ys ++ tail) = labelled l ys.
Proof.
  intros Hl [->|(t & _ & ->)]; [by rewrite app_nil_r|].
  rewrite labelled_app. simpl. rewrite bool_decide_eq_false_2 by done.
  by rewrite app_nil_r.
Qed.

Lemma lookup_before_tail (l : Label) (ys tail : list (Label * Content)) i c :
  l ≠ final_message →
  (tail = [] ∨ ∃ t, t ≠ [] ∧ tail = [(final_message, Text t)]) →
  (ys ++ tail) !! i = Some (l, c) → ys !! i = Some (l, c).
Proof.
  intros Hl [->|(t & _ & ->)]; [by rewrite app_nil_r|].
  intros [?|[_ Hi]]%lookup_app_Some; [done|].
  destruct (i - length ys) as [|n]; simpl in Hi; [congruence|done].
Qed.

(** X15. What [iter_labeled_deltas] yields for the deltas and the tool
    calls. The ["final"] yields are the text deltas of the stream that
    are not empty, in order, and the ["reasoning"] yields are the
    reasoning deltas (of both kinds) that are not empty, in order; for
    each tool call item there is one ["tool_call"] yield, in order,
    with its name and arguments. ["final_start"] is yielded once if
    there is a ["final"] yield and not at all otherwise, with the
    marker text, and it comes immediately before the first ["final"]
    yield; the same holds of ["reasoning_start"] and ["reasoning"]. *)
Theorem labeled_deltas_in_order (streamed : Streamed) :
  labelled final (iter_labeled_deltas streamed).1
  = Text <$> collect_deltas (events streamed)
  ∧ labelled reasoning (iter_labeled_deltas streamed).1
    = Text <$> reasoning_deltas (events streamed)
  ∧ labelled tool_call (iter_labeled_deltas streamed).1
    = (λ raw, ToolCall (tool_name raw) (tool_arguments raw))
      <$> tool_calls (events streamed)
  ∧ labelled final_start (iter_labeled_deltas streamed).1
    = match collect_deltas (events streamed) with
      | [] => []
      | _ :: _ => [Text FINAL_OUTPUT]
      end
  ∧ labelled reasoning_start (iter_labeled_deltas streamed).1
    = match reasoning_deltas (events streamed) with
      | [] => []
      | _ :: _ => [Text REASONING_STEP]
      end
  ∧ (∀ i c, (iter_labeled_deltas streamed).1 !! i = Some (final_start, c) →
       labelled final (take i (iter_labeled_deltas streamed).1) = []
       ∧ ∃ delta, (iter_labeled_deltas streamed).1 !! S i
                  = Some (final, Text delta))
  ∧ (∀ i c, (iter_labeled_deltas streamed).1 !! i
            = Some (reasoning_start, c) →
       labelled reasoning (take i (iter_labeled_deltas streamed).1) = []
       ∧ ∃ delta, (iter_labeled_deltas streamed).1 !! S i
                  = Some (reasoning, Text delta)).
Proof.
  destruct (iter_labeled_deltas_unfold streamed) as (tail & -> & _ & Htail).
  cbn [fst]. rewrite !labelled_tail by done.
  split_and!.
  - apply loop_final.
  - apply loop_reasoning.
  - apply loop_tool_call.
  - by destruct (loop_final_start (events streamed) initial) as [-> _].
  - by destruct (loop_reasoning_start (events streamed) initial) as [-> _].
  - intros i c Hi%lookup_before_tail; [|done..].
    destruct (final_start_adjacent _ _ _ _ Hi) as (_ & Hpre & delta & Hnext).
    split.
    + rewrite take_app_le; [done|].
      apply lookup_lt_Some in Hi. lia.
    + exists delta. by apply lookup_app_l_Some.
  - intros i c Hi%lookup_before_tail; [|done..].
    destruct (reasoning_start_adjacent _ _ _ _ Hi)
      as (_ & Hpre & delta & Hnext).
    split.
    + rewrite take_app_le; [done|].
      apply lookup_lt_Some in Hi. lia.
    + exists delta. by apply lookup_app_l_Some.
Qed.

Lemma message_texts_truthy (evs : list StreamEvent) (t : str) :
  last (message_texts evs) = Some t → t ≠ [].
Proof.
  intros Hl%last_Some_elem_of. unfold message_texts in Hl.
  apply list_elem_of_omap in Hl as (e & _ & He).
  destruct e as [|[raw_item| |]|]; try done.
  destruct (truthy (message_text raw_item)) eqn:Ht; [|done].
  injection He as <-. unfold truthy in Ht. apply negb_true_iff in Ht.
  by apply bool_decide_eq_false in Ht.
Qed.

(** X16. The final message of [iter_labeled_deltas]. ["final_message"]
    is yielded at most once, as the last yield, after the stream has
    ended without an exception, and never with an empty text: its text
    is that of the last message item whose [output_text] parts are not
    empty or, when there is none, [final_output] if that is a string
    that is not empty. Every other yield is made while the stream
    runs: what the loop has yielded for the events so far is a prefix
    of what the generator yields, whatever events come later. When the
    stream raises, the generator raises the same exception after its
    yields. *)
Theorem final_message_last (streamed : Streamed) :
  labelled final_message (iter_labeled_deltas streamed).1
  = match failure streamed with
    | Some _ => []
    | None =>
        match last (message_texts (events streamed)) with
        | Some t => [Text t]
        | None => match final_output streamed with
                  | StrOutput ((_ :: _) as s) => [Text s]
                  | _ => []
                  end
        end
    end
  ∧ (∀ i c, (iter_labeled_deltas streamed).1 !! i = Some (final_message, c) →
       S i = length (iter_labeled_deltas streamed).1
       ∧ ∃ t, c = Text t ∧ t ≠ [])
  ∧ (∀ more f fo,
       (loop (events streamed) initial).1
       `prefix_of` (iter_labeled_deltas
                      (mkStreamed (events streamed ++ more) f fo)).1)
  ∧ (iter_labeled_deltas streamed).2 = failure streamed.
Proof.
  destruct (iter_labeled_deltas_unfold streamed) as (tail & Hit & Htl & Htail).
  rewrite Hit. cbn [fst snd]. split_and!; [| | |done].
  - rewrite labelled_app, loop_final_message, app_nil_l, Htl.
    destruct (failure streamed) as [e|]; [done|].
    unfold after_loop. rewrite loop_last_message.
    destruct (last (message_texts (events streamed))) as [t|] eqn:Hlast.
    + apply message_texts_truthy in Hlast. by destruct t.
    + simpl. destruct (final_output streamed) as [|[|x s]|]; done.
  - intros i c [Hi|[Hlen Hi]]%lookup_app_Some.
    + apply labelled_lookup in Hi. rewrite loop_final_message in Hi.
      by apply elem_of_nil in Hi.
    + destruct Htail as [->|(t & Ht & ->)]; [done|].
      destruct (i - length (loop (events streamed) initial).1) as [|n] eqn:Hn;
        [|done].
      injection Hi as <-. rewrite length_app. simpl. split; [lia|].
      by exists t.
  - intros more f fo.
    destruct (iter_labeled_deltas_unfold
                (mkStreamed (events streamed ++ more) f fo))
      as (tail' & -> & _ & _).
    cbn [fst events]. rewrite loop_app. cbn [fst].
    rewrite <-app_assoc. by apply prefix_app_r.
Qed.

End StreamerTheorems.
